(** * cs2-stars: the binary wire codec and the purchase settle guard

    A shallow embedding of the protobuf-style decode layer of
    [src/backend/SchemaResolver.js] (class [ArmoryManager], module
    [Armory] below) and of [src/backend/SessionManager.js] (the balance
    extractor, module [Session] below), followed by the properties of the
    specification that can be stated over them.  The rest of the two
    files follows: the welcome message and the login promise of
    [SteamClient] (modules [SteamClient] and [Login]), the accounts
    listed by [SessionManager] (module [SessionFiles]) and the exterior
    of an item in [SchemaResolver] (module [Schema]).

    Conventions.
    - A [Buffer] is a [list byte]; [len b] is its JS [length].
    - A JS [BigInt] is a [Z].  A JS [Number] that results from the
      conversion [Number(bigint)] is a [Num]: an integer-valued double,
      an infinity or NaN.  A JS [Number] that is only ever combined with
      the 32-bit operators is a [Z] kept in the int32 range by [wrap32].
    - An offset of [ArmoryManager] is a buffer index, a [nat]; the
      offsets of SessionManager.js can become negative and are in [Z].
    - Loops are recursive functions over a fuel counter; a function
      whose loop can be shown to stop is closed off with enough fuel, the
      others keep their counter and report [OutOfFuel]. *)

From Stdlib Require Import String Ascii ZArith List Lia Bool.
From Stdlib.Strings Require Import Byte.
From Stdlib Require QArith.
Import ListNotations.
Open Scope Z_scope.

(** ** Bytes and buffers *)

Definition b2z (b : byte) : Z := Z.of_N (Byte.to_N b).

(** Storing a number into a [Buffer] keeps its low eight bits. *)
Definition z2b (z : Z) : byte :=
  match Byte.of_N (Z.to_N (z mod 256)) with
  | Some b => b
  | None => x00
  end.

Definition len (b : list byte) : Z := Z.of_nat (length b).

(** [buffer[i]]: [None] stands for [undefined]. *)
Definition byteAt (buffer : list byte) (i : Z) : option Z :=
  if i <? 0 then None else option_map b2z (nth_error buffer (Z.to_nat i)).

(** Node's [adjustOffset], used by [Buffer.prototype.subarray]: a
    negative index counts from the end, and the result is clamped to
    [0 .. length]. *)
Definition adjustOffset (offset length : Z) : Z :=
  if offset =? 0 then 0
  else if offset <? 0 then
    (if 0 <? offset + length then offset + length else 0)
  else if offset <? length then offset
  else length.

Definition subarray (buffer : list byte) (start end_ : Z) : list byte :=
  let srcLength := len buffer in
  let start := adjustOffset start srcLength in
  let end_ := adjustOffset end_ srcLength in
  let newLength := if start <? end_ then end_ - start else 0 in
  firstn (Z.to_nat newLength) (skipn (Z.to_nat start) buffer).

(** ** Outcomes of a computation

    [Ret] is a normal return (of [null] when the payload is [None]),
    [Throw] an uncaught exception, [OutOfFuel] a loop that was cut. *)
Inductive res (A : Type) : Type :=
| Ret (a : A)
| Throw
| OutOfFuel.
Arguments Ret {A} a.
Arguments Throw {A}.
Arguments OutOfFuel {A}.

Definition bind {A B} (m : res A) (k : A -> res B) : res B :=
  match m with
  | Ret a => k a
  | Throw => Throw
  | OutOfFuel => OutOfFuel
  end.

Notation "x <- m ;; k" := (bind m (fun x => k))
  (at level 61, m at next level, right associativity).

(** ** JS numbers *)

Inductive Num : Type :=
| Fin (z : Z)
| PosInf
| NegInf
| NaN.

Definition two53 : Z := 2 ^ 53.
Definition two1024 : Z := 2 ^ 1024.

(** Round a non-negative integer to the nearest double, ties to even. *)
Definition roundDouble (z : Z) : Z :=
  if z <? two53 then z
  else
    let e := Z.log2 z - 52 in
    let q := Z.shiftr z e in
    let r := z - Z.shiftl q e in
    let half := 2 ^ (e - 1) in
    let q' := if (half <? r) || ((r =? half) && Z.odd q) then q + 1 else q in
    Z.shiftl q' e.

Definition toDouble (z : Z) : Num :=
  if z <? 0 then
    (let m := roundDouble (- z) in if two1024 <=? m then NegInf else Fin (- m))
  else
    (let m := roundDouble z in if two1024 <=? m then PosInf else Fin m).

(** [Number(x)] for a BigInt [x]. *)
Definition Number (x : Z) : Num := toDouble x.

(** [a + b] on numbers that hold integers. *)
Definition Num_add (a b : Num) : Num :=
  match a, b with
  | Fin x, Fin y => toDouble (x + y)
  | NaN, _ | _, NaN => NaN
  | PosInf, NegInf | NegInf, PosInf => NaN
  | PosInf, _ | _, PosInf => PosInf
  | NegInf, _ | _, NegInf => NegInf
  end.

(** [a - b] on numbers that hold integers: the double nearest to the
    exact difference. *)
Definition Num_sub (a b : Num) : Num :=
  match a, b with
  | Fin x, Fin y => toDouble (x - y)
  | NaN, _ | _, NaN => NaN
  | PosInf, PosInf | NegInf, NegInf => NaN
  | PosInf, _ | _, NegInf => PosInf
  | NegInf, _ | _, PosInf => NegInf
  end.

(** [a > b]. *)
Definition Num_gtb (a b : Num) : bool :=
  match a, b with
  | Fin x, Fin y => y <? x
  | PosInf, (Fin _ | NegInf) => true
  | Fin _, NegInf => true
  | _, _ => false
  end.

(** Truthiness of a number: everything but zero and NaN. *)
Definition truthy (a : Num) : bool :=
  match a with
  | Fin z => negb (z =? 0)
  | NaN => false
  | _ => true
  end.

Definition wrap32 (z : Z) : Z :=
  let m := z mod 2 ^ 32 in
  if 2 ^ 31 <=? m then m - 2 ^ 32 else m.

Definition ToInt32 (a : Num) : Z :=
  match a with Fin z => wrap32 z | _ => 0 end.

(** The 32-bit operators on numbers that hold integers: both operands go
    through [ToInt32], a shift count is taken modulo 32. *)
Definition js_or (a b : Z) : Z := Z.lor (wrap32 a) (wrap32 b).
Definition js_and (a b : Z) : Z := Z.land (wrap32 a) (wrap32 b).
Definition js_shl (a s : Z) : Z := wrap32 (Z.shiftl (wrap32 a) (s mod 32)).
Definition js_sar (a s : Z) : Z := Z.shiftr (wrap32 a) (s mod 32).

(** An operand read from a buffer: [undefined] converts to 0. *)
Definition orUndefined (b : option Z) : Z :=
  match b with Some z => z | None => 0 end.

(** ** Hexadecimal rendering ([buf.toString('hex')]) *)

Definition hexDigit (n : Z) : ascii :=
  if n <? 10 then ascii_of_nat (Z.to_nat (48 + n))
  else ascii_of_nat (Z.to_nat (87 + n)).

Fixpoint toHex (bs : list byte) : string :=
  match bs with
  | [] => EmptyString
  | b :: bs' =>
    String (hexDigit (Z.shiftr (b2z b) 4))
      (String (hexDigit (Z.land (b2z b) 15)) (toHex bs'))
  end.

(** * [ArmoryManager] (SchemaResolver.js) *)

Module Armory.

Record Varint : Type := mkVarint { value : Z; bytesRead : nat }.

(** [readVarint]: BigInt accumulator; the only buffer access is
    [buffer[offset + bytesRead]], and [BigInt(undefined)] raises. *)
Fixpoint readVarint_loop (fuel : nat) (buffer : list byte) (offset : nat)
    (result shift : Z) (bytesRead : nat) : res (option Varint) :=
  match fuel with
  | O => OutOfFuel
  | S fuel' =>
    if (length buffer <=? offset + bytesRead)%nat then Ret None
    else
      match byteAt buffer (Z.of_nat (offset + bytesRead)) with
      | None => Throw
      | Some b =>
        let result := Z.lor result (Z.shiftl (Z.land b 127) shift) in
        let shift := shift + 7 in
        let bytesRead := S bytesRead in
        if Z.land b 128 =? 0 then Ret (Some (mkVarint result bytesRead))
        else readVarint_loop fuel' buffer offset result shift bytesRead
      end
  end.

Definition readVarint (buffer : list byte) (offset : nat) : res (option Varint) :=
  readVarint_loop (S (length buffer)) buffer offset 0 0 0.

(** [encodeVarint]: the loop divides [x] by 128 while [x >= 128], so it
    runs at most [log2 x] times. *)
Fixpoint encodeVarint_loop (fuel : nat) (x : Z) : list byte :=
  if 128 <=? x then
    match fuel with
    | O => []
    | S fuel' =>
      z2b (Z.lor (Z.land x 127) 128) :: encodeVarint_loop fuel' (Z.shiftr x 7)
    end
  else [z2b x].

Definition encodeVarint (n : Z) : list byte :=
  encodeVarint_loop (Z.to_nat (Z.log2 n)) n.

(** [encodeRedeemBody]: [tag = (fieldNumber << 3) | 0] for the field
    numbers 1..4 of [values = [11, armoryId, stars, price]]. *)
Fixpoint encodeRedeemBody_loop (i : Z) (values : list Z) : list byte :=
  match values with
  | [] => []
  | v :: rest =>
    let fieldNumber := i + 1 in
    let tag := Z.lor (Z.shiftl fieldNumber 3) 0 in
    encodeVarint tag ++ encodeVarint v ++ encodeRedeemBody_loop (i + 1) rest
  end.

Definition encodeRedeemBody (armoryId stars price : Z) : list byte :=
  encodeRedeemBody_loop 0 [11; armoryId; stars; price].

(** A decoded field.  [fieldValue] is a BigInt for a varint, a slice for
    a length-delimited field and [null] for the fixed-width ones. *)
Inductive FieldValue : Type :=
| VBigInt (v : Z)
| VBuffer (b : list byte)
| VNull.

Record Field : Type := mkField {
  fieldNumber : Z;
  wireType : Z;
  fieldValue : FieldValue;
  nextOffset : nat
}.

(** [Number(f.value)]; the callers apply it to varint fields only, whose
    value is a BigInt. *)
Definition NumberOf (v : FieldValue) : Num :=
  match v with
  | VBigInt x => Number x
  | VBuffer _ => NaN
  | VNull => Fin 0
  end.

Definition readField (buffer : list byte) (offset : nat) : res (option Field) :=
  tagData <- readVarint buffer offset ;;
  match tagData with
  | None => Ret None
  | Some tagData =>
    let tag := Number (value tagData) in
    let fieldNumber := Z.shiftr (ToInt32 tag) 3 in
    let wireType := Z.land (ToInt32 tag) 7 in
    let cursor := (offset + bytesRead tagData)%nat in
    if wireType =? 0 then
      v <- readVarint buffer cursor ;;
      match v with
      | None => Ret None
      | Some v =>
        let cursor := (cursor + bytesRead v)%nat in
        Ret (Some (mkField fieldNumber wireType (VBigInt (value v)) cursor))
      end
    else if wireType =? 2 then
      lenData <- readVarint buffer cursor ;;
      match lenData with
      | None => Ret None
      | Some lenData =>
        let cursor := (cursor + bytesRead lenData)%nat in
        let l := Number (value lenData) in
        let start := Z.of_nat cursor in
        let end_ := Num_add (Fin (Z.of_nat cursor)) l in
        if Num_gtb end_ (Fin (len buffer)) then Ret None
        else
          match end_ with
          | Fin e =>
            Ret (Some (mkField fieldNumber wireType
                         (VBuffer (subarray buffer start e)) (Z.to_nat e)))
          | _ => Throw (* -Infinity, NaN: excluded, a length read by readVarint is never negative *)
          end
      end
    else if wireType =? 5 then
      if (length buffer <? cursor + 4)%nat then Ret None
      else Ret (Some (mkField fieldNumber wireType VNull (cursor + 4)))
    else if wireType =? 1 then
      if (length buffer <? cursor + 8)%nat then Ret None
      else Ret (Some (mkField fieldNumber wireType VNull (cursor + 8)))
    else Ret None
  end.

(** [findVarint]: first varint field numbered [wantedField] on the top
    level; a field that cannot be read ends the scan with [null]. *)
Fixpoint findVarint_loop (fuel : nat) (buffer : list byte) (wantedField : Z)
    (offset : nat) : res (option Num) :=
  match fuel with
  | O => OutOfFuel
  | S fuel' =>
    if (offset <? length buffer)%nat then
      f <- readField buffer offset ;;
      match f with
      | None => Ret None
      | Some f =>
        let offset := nextOffset f in
        if (wireType f =? 0) && (fieldNumber f =? wantedField)
        then Ret (Some (NumberOf (fieldValue f)))
        else findVarint_loop fuel' buffer wantedField offset
      end
    else Ret None
  end.

Definition findVarint (buffer : list byte) (wantedField : Z) : res (option Num) :=
  findVarint_loop (S (length buffer)) buffer wantedField 0.

Record Attribute : Type := mkAttribute {
  attr_def_index : option Num;
  value_bytes : option string
}.

Record Item : Type := mkItem {
  def_index : option Num;
  attribute : list Attribute
}.

Definition isBuffer (v : FieldValue) : bool :=
  match v with VBuffer _ => true | _ => false end.

Definition bufferOf (v : FieldValue) : list byte :=
  match v with VBuffer b => b | _ => [] end.

Fixpoint parseAttribute_loop (fuel : nat) (buffer : list byte) (offset : nat)
    (attr : Attribute) : res Attribute :=
  match fuel with
  | O => OutOfFuel
  | S fuel' =>
    if (offset <? length buffer)%nat then
      f <- readField buffer offset ;;
      match f with
      | None => Ret attr
      | Some f =>
        let offset := nextOffset f in
        let attr :=
          if (fieldNumber f =? 1) && (wireType f =? 0)
          then mkAttribute (Some (NumberOf (fieldValue f))) (value_bytes attr)
          else attr in
        let attr :=
          if (fieldNumber f =? 3) && (wireType f =? 2) && isBuffer (fieldValue f)
          then mkAttribute (attr_def_index attr) (Some (toHex (bufferOf (fieldValue f))))
          else attr in
        parseAttribute_loop fuel' buffer offset attr
      end
    else Ret attr
  end.

Definition parseAttribute (buffer : list byte) : res (option Attribute) :=
  attr <- parseAttribute_loop (S (length buffer)) buffer 0 (mkAttribute None None) ;;
  Ret (match attr_def_index attr with Some _ => Some attr | None => None end).

Fixpoint parseCSOEconItem_loop (fuel : nat) (buffer : list byte) (offset : nat)
    (item : Item) : res Item :=
  match fuel with
  | O => OutOfFuel
  | S fuel' =>
    if (offset <? length buffer)%nat then
      f <- readField buffer offset ;;
      match f with
      | None => Ret item
      | Some f =>
        let offset := nextOffset f in
        let item :=
          if (fieldNumber f =? 4) && (wireType f =? 0)
          then mkItem (Some (NumberOf (fieldValue f))) (attribute item)
          else item in
        if (fieldNumber f =? 12) && (wireType f =? 2) && isBuffer (fieldValue f)
        then
          attr <- parseAttribute (bufferOf (fieldValue f)) ;;
          let item :=
            match attr with
            | Some a => mkItem (def_index item) (attribute item ++ [a])
            | None => item
            end in
          parseCSOEconItem_loop fuel' buffer offset item
        else parseCSOEconItem_loop fuel' buffer offset item
      end
    else Ret item
  end.

(** [item.def_index ? item : null]. *)
Definition accepted (item : Item) : bool :=
  match def_index item with
  | Some n => truthy n
  | None => false
  end.

Definition parseCSOEconItem (buffer : list byte) : res (option Item) :=
  item <- parseCSOEconItem_loop (S (length buffer)) buffer 0 (mkItem None []) ;;
  Ret (if accepted item then Some item else None).

(** [x != null && x > 0]. *)
Definition positive (x : option Num) : bool :=
  match x with
  | Some n => Num_gtb n (Fin 0)
  | None => false
  end.

(** The loop of [findDefIndexDeep]; [self] is the recursive call. *)
Fixpoint findDefIndexDeep_loop (self : list byte -> res (option Num))
    (fuel : nat) (buffer : list byte) (offset : nat) : res (option Num) :=
  match fuel with
  | O => OutOfFuel
  | S fuel' =>
    if (offset <? length buffer)%nat then
      f <- readField buffer offset ;;
      match f with
      | None => Ret None
      | Some f =>
        let offset := nextOffset f in
        if (wireType f =? 2) && isBuffer (fieldValue f)
           && (0 <? len (bufferOf (fieldValue f)))
        then
          inner <- self (bufferOf (fieldValue f)) ;;
          if positive inner then Ret inner
          else findDefIndexDeep_loop self fuel' buffer offset
        else findDefIndexDeep_loop self fuel' buffer offset
      end
    else Ret None
  end.

Fixpoint findDefIndexDeep_fuel (fuel : nat) (buffer : list byte) : res (option Num) :=
  match fuel with
  | O => OutOfFuel
  | S fuel' =>
    direct <- findVarint buffer 4 ;;
    if positive direct then Ret direct
    else findDefIndexDeep_loop (findDefIndexDeep_fuel fuel')
           (S (length buffer)) buffer 0
  end.

Definition findDefIndexDeep (buffer : list byte) : res (option Num) :=
  findDefIndexDeep_fuel (S (length buffer)) buffer.

(** [x && x.def_index]. *)
Definition acceptedItem (x : option Item) : bool :=
  match x with
  | Some item => accepted item
  | None => false
  end.

(** The loop of [findCSOEconItem]; [self] is the recursive call. *)
Fixpoint findCSOEconItem_loop (self : list byte -> res (option Item))
    (fuel : nat) (buffer : list byte) (offset : nat) : res (option Item) :=
  match fuel with
  | O => OutOfFuel
  | S fuel' =>
    if (offset <? length buffer)%nat then
      f <- readField buffer offset ;;
      match f with
      | None => Ret None
      | Some f =>
        let offset := nextOffset f in
        if (wireType f =? 2) && isBuffer (fieldValue f)
           && (0 <? len (bufferOf (fieldValue f)))
        then
          item <- self (bufferOf (fieldValue f)) ;;
          if acceptedItem item then Ret item
          else findCSOEconItem_loop self fuel' buffer offset
        else findCSOEconItem_loop self fuel' buffer offset
      end
    else Ret None
  end.

Fixpoint findCSOEconItem_fuel (fuel : nat) (buffer : list byte) : res (option Item) :=
  match fuel with
  | O => OutOfFuel
  | S fuel' =>
    direct <- parseCSOEconItem buffer ;;
    if acceptedItem direct then Ret direct
    else findCSOEconItem_loop (findCSOEconItem_fuel fuel')
           (S (length buffer)) buffer 0
  end.

Definition findCSOEconItem (buffer : list byte) : res (option Item) :=
  findCSOEconItem_fuel (S (length buffer)) buffer.

End Armory.

(** * The balance extractor (SessionManager.js) *)

Module Session.

Record Varint : Type := mkVarint { value : Z; bytesRead : Z }.

(** [readVarint]: a plain number accumulator under the 32-bit operators.
    Reading [buffer[i]] outside the buffer gives [undefined], which the
    operators take for 0. *)
Fixpoint readVarint_loop (fuel : nat) (buffer : list byte) (offset : Z)
    (result shift bytesRead : Z) : res (option Varint) :=
  match fuel with
  | O => OutOfFuel
  | S fuel' =>
    if len buffer <=? offset + bytesRead then Ret None
    else
      let b := orUndefined (byteAt buffer (offset + bytesRead)) in
      let result := js_or result (js_shl (js_and b 127) shift) in
      let shift := shift + 7 in
      let bytesRead := bytesRead + 1 in
      if js_and b 128 =? 0 then Ret (Some (mkVarint result bytesRead))
      else readVarint_loop fuel' buffer offset result shift bytesRead
  end.

Definition readVarint (buffer : list byte) (offset : Z) : res (option Varint) :=
  readVarint_loop (S (length buffer)) buffer offset 0 0 0.

Definition skipByWireType (buf : list byte) (offset wireType : Z) : res (option Z) :=
  if wireType =? 0 then
    v <- readVarint buf offset ;;
    match v with
    | None => Ret None
    | Some v => Ret (Some (offset + bytesRead v))
    end
  else if wireType =? 2 then
    lenData <- readVarint buf offset ;;
    match lenData with
    | None => Ret None
    | Some lenData => Ret (Some (offset + bytesRead lenData + value lenData))
    end
  else if wireType =? 5 then Ret (Some (offset + 4))
  else if wireType =? 1 then Ret (Some (offset + 8))
  else Ret None.

Fixpoint parseType6_loop (fuel : nat) (objectData : list byte) (offset : Z)
    (stars : option Z) : res (option Z) :=
  match fuel with
  | O => OutOfFuel
  | S fuel' =>
    if offset <? len objectData then
      tagData <- readVarint objectData offset ;;
      match tagData with
      | None => Ret stars
      | Some tagData =>
        let offset := offset + bytesRead tagData in
        let tag := value tagData in
        let fieldNumber := js_sar tag 3 in
        let wireType := js_and tag 7 in
        if wireType =? 0 then
          v <- readVarint objectData offset ;;
          match v with
          | None => Ret stars
          | Some v =>
            let offset := offset + bytesRead v in
            let stars :=
              if fieldNumber =? 2 then
                (let n := value v in
                 if (0 <=? n) && (n <=? 5000) then Some n else stars)
              else stars in
            parseType6_loop fuel' objectData offset stars
          end
        else
          next <- skipByWireType objectData offset wireType ;;
          match next with
          | None => Ret stars
          | Some next => parseType6_loop fuel' objectData next stars
          end
      end
    else Ret stars
  end.

Definition parseType6ObjectDataForStars (fuel : nat) (objectData : list byte)
    : res (option Z) :=
  if len objectData =? 0 then Ret None
  else parseType6_loop fuel objectData 0 None.

(** The code after the loop of [findStarsInCache]. *)
Definition findStarsInCache_end (fuel : nat) (foundTypeId : option Z)
    (objectData : option (list byte)) : res (option Z) :=
  match foundTypeId, objectData with
  | Some t, Some data =>
    if t =? 6 then parseType6ObjectDataForStars fuel data else Ret None
  | _, _ => Ret None
  end.

Fixpoint findStarsInCache_loop (fuel : nat) (buffer : list byte) (offset : Z)
    (foundTypeId : option Z) (objectData : option (list byte))
    : res (option Z) :=
  match fuel with
  | O => OutOfFuel
  | S fuel' =>
    if offset <? len buffer then
      tagData <- readVarint buffer offset ;;
      match tagData with
      | None => findStarsInCache_end fuel' foundTypeId objectData
      | Some tagData =>
        let offset := offset + bytesRead tagData in
        let tag := value tagData in
        let fieldNumber := js_sar tag 3 in
        let wireType := js_and tag 7 in
        if wireType =? 0 then
          v <- readVarint buffer offset ;;
          match v with
          | None => findStarsInCache_end fuel' foundTypeId objectData
          | Some v =>
            let offset := offset + bytesRead v in
            let foundTypeId :=
              if fieldNumber =? 1 then Some (value v) else foundTypeId in
            findStarsInCache_loop fuel' buffer offset foundTypeId objectData
          end
        else if wireType =? 2 then
          lenData <- readVarint buffer offset ;;
          match lenData with
          | None => findStarsInCache_end fuel' foundTypeId objectData
          | Some lenData =>
            let offset := offset + bytesRead lenData in
            let l := value lenData in
            let fieldData := subarray buffer offset (offset + l) in
            let offset := offset + l in
            let objectData :=
              if (fieldNumber =? 2) || (fieldNumber =? 3)
              then Some fieldData else objectData in
            inner <- findStarsInCache_loop fuel' fieldData 0 None None ;;
            match inner with
            | Some stars => Ret (Some stars)
            | None =>
              findStarsInCache_loop fuel' buffer offset foundTypeId objectData
            end
          end
        else
          next <- skipByWireType buffer offset wireType ;;
          match next with
          | None => findStarsInCache_end fuel' foundTypeId objectData
          | Some next =>
            findStarsInCache_loop fuel' buffer next foundTypeId objectData
          end
      end
    else findStarsInCache_end fuel' foundTypeId objectData
  end.

Definition findStarsInCache (fuel : nat) (buffer : list byte) : res (option Z) :=
  findStarsInCache_loop fuel buffer 0 None None.

End Session.

(** * The purchase operation ([ArmoryManager.purchaseItem])

    The promise body after the session file has been read.  The state
    keeps the [settled] flag of the closure and a log of the calls made on
    the promise, the timer and the two emitters.  [handle] is the body of
    each registered callback; it is run for every event that is delivered,
    also for one delivered after the listeners were asked to go, so that
    the guard in [settle] is what decides. *)

Module Purchase.

Definition APP_ID : Z := 730.
Definition MSG_GC_REDEEM : Z := 9209.
Definition MSG_ESO_CREATE : Z := 21.

Inductive Error : Type :=
| PurchaseTimeout
| Disconnected
| ClientError (e : Z)
| CouldNotParse.

Record Data : Type := mkData {
  success : bool;
  defIndex : option Num;
  newStars : Num;
  item : Armory.Item
}.

Inductive Effect : Type :=
| ClearTimeout
| ClientRemoveAllListeners
| CsgoRemoveAllListeners
| GamesPlayed (apps : list Z)
| LogOff
| SetPersonaOnline
| SendToGC (appid msgType : Z) (body : list byte)
| Resolve (data : option Data)
| Reject (err : option Error).

Record State : Type := mkState {
  settled : bool;
  log : list Effect
}.

Definition initial : State := mkState false [].

Definition settle (err : option Error) (ok : bool) (data : option Data)
    (st : State) : State :=
  if settled st then st
  else
    mkState true
      (log st ++
       [ClearTimeout; ClientRemoveAllListeners; CsgoRemoveAllListeners;
        GamesPlayed []; LogOff;
        if ok then Resolve data else Reject err]).

Inductive Event : Type :=
| TimerFired
| OnError (e : Z)
| OnDisconnected
| OnLoggedOn
| OnConnectedToGC
| OnReceivedFromGC (appid msgType : Z) (payload : list byte).

Section Handlers.

(** The arguments are JS numbers that hold integers, given by their
    values: [BigInt] converts them exactly in [encodeRedeemBody], and
    [currentStars - itemPrice] is the subtraction of doubles, rounded
    when the exact difference is not a double. *)
Variables armoryId currentStars itemPrice : Z.

Definition handle (st : State) (ev : Event) : State :=
  match ev with
  | TimerFired => settle (Some PurchaseTimeout) false None st
  | OnError e => settle (Some (ClientError e)) false None st
  | OnDisconnected => settle (Some Disconnected) false None st
  | OnLoggedOn =>
    mkState (settled st) (log st ++ [SetPersonaOnline; GamesPlayed [APP_ID]])
  | OnConnectedToGC =>
    mkState (settled st)
      (log st ++ [SendToGC APP_ID MSG_GC_REDEEM
                    (Armory.encodeRedeemBody armoryId currentStars itemPrice)])
  | OnReceivedFromGC appid msgType payload =>
    if negb (appid =? APP_ID) then st
    else if negb (msgType =? MSG_ESO_CREATE) then st
    else
      match Armory.findCSOEconItem payload with
      | Ret (Some it) =>
        if Armory.accepted it then
          settle None true
            (Some (mkData true (Armory.def_index it)
                     (Num_sub (Fin currentStars) (Fin itemPrice)) it))
            st
        else settle (Some CouldNotParse) false None st
      | Ret None => settle (Some CouldNotParse) false None st
      | _ => st
      end
  end.

Definition run (evs : list Event) (st : State) : State :=
  fold_left handle evs st.

End Handlers.

(** An event whose handler returns before reaching [settle]. *)
Definition passive (ev : Event) : bool :=
  match ev with
  | OnLoggedOn | OnConnectedToGC => true
  | OnReceivedFromGC appid msgType _ =>
    negb (appid =? APP_ID) || negb (msgType =? MSG_ESO_CREATE)
  | _ => false
  end.

Definition isOutcome (e : Effect) : bool :=
  match e with Resolve _ | Reject _ => true | _ => false end.

Definition isCleanup (e : Effect) : bool :=
  match e with
  | ClearTimeout | ClientRemoveAllListeners | CsgoRemoveAllListeners
  | GamesPlayed [] | LogOff => true
  | _ => false
  end.

Definition outcomes (st : State) : list Effect := filter isOutcome (log st).
Definition cleanups (st : State) : list Effect := filter isCleanup (log st).

Definition cleanupOnce : list Effect :=
  [ClearTimeout; ClientRemoveAllListeners; CsgoRemoveAllListeners;
   GamesPlayed []; LogOff].

End Purchase.

(** * Vocabulary of the statements *)

(** ** Varints seen as lists of bytes *)

(** The varint that starts a list of bytes, with the accumulators of
    [Armory.readVarint_loop]: what the loop computes on the suffix of the
    buffer it is positioned at. *)
Fixpoint decodeFrom (bs : list byte) (result shift : Z) (bytesRead : nat)
    : option Armory.Varint :=
  match bs with
  | [] => None
  | b :: bs' =>
    let result := Z.lor result (Z.shiftl (Z.land (b2z b) 127) shift) in
    if Z.land (b2z b) 128 =? 0
    then Some (Armory.mkVarint result (S bytesRead))
    else decodeFrom bs' result (shift + 7) (S bytesRead)
  end.

(** The varint that starts a list of bytes, with the accumulators of
    [Session.readVarint_loop]. *)
Fixpoint decodeFrom32 (bs : list byte) (result shift bytesRead : Z)
    : option Session.Varint :=
  match bs with
  | [] => None
  | b :: bs' =>
    let result := js_or result (js_shl (js_and (b2z b) 127) shift) in
    if js_and (b2z b) 128 =? 0
    then Some (Session.mkVarint result (bytesRead + 1))
    else decodeFrom32 bs' result (shift + 7) (bytesRead + 1)
  end.

(** Every byte of the list carries the continuation bit. *)
Definition allContinue (bs : list byte) : Prop :=
  Forall (fun b => Z.land (b2z b) 128 <> 0) bs.

(** ** Fields of a buffer *)

(** A buffer whose length is an exact JS number (Node bounds the length
    of a Buffer by [2^53 - 1]). *)
Definition fits (buffer : list byte) : Prop := len buffer < two53.

(** What a successful [readField] has read. *)
Inductive FieldShape (buffer : list byte) (offset : nat) (f : Armory.Field) : Prop :=
| shape_varint (tag v : Armory.Varint) :
    decodeFrom (skipn offset buffer) 0 0 0 = Some tag ->
    decodeFrom (skipn (offset + Armory.bytesRead tag) buffer) 0 0 0 = Some v ->
    Armory.wireType f = 0 ->
    Armory.fieldValue f = Armory.VBigInt (Armory.value v) ->
    Armory.nextOffset f = (offset + Armory.bytesRead tag + Armory.bytesRead v)%nat ->
    FieldShape buffer offset f
| shape_bytes (tag l : Armory.Varint) (e : Z) :
    decodeFrom (skipn offset buffer) 0 0 0 = Some tag ->
    decodeFrom (skipn (offset + Armory.bytesRead tag) buffer) 0 0 0 = Some l ->
    Armory.wireType f = 2 ->
    Num_add (Fin (Z.of_nat (offset + Armory.bytesRead tag + Armory.bytesRead l)))
      (Number (Armory.value l)) = Fin e ->
    e <= len buffer ->
    Armory.fieldValue f =
      Armory.VBuffer (subarray buffer
        (Z.of_nat (offset + Armory.bytesRead tag + Armory.bytesRead l)) e) ->
    Armory.nextOffset f = Z.to_nat e ->
    FieldShape buffer offset f
| shape_fixed (tag : Armory.Varint) (w : nat) :
    decodeFrom (skipn offset buffer) 0 0 0 = Some tag ->
    (Armory.wireType f = 5 /\ w = 4%nat) \/ (Armory.wireType f = 1 /\ w = 8%nat) ->
    (offset + Armory.bytesRead tag + w <= length buffer)%nat ->
    Armory.fieldValue f = Armory.VNull ->
    Armory.nextOffset f = (offset + Armory.bytesRead tag + w)%nat ->
    FieldShape buffer offset f.

(** The fields on the top level of a buffer, in order: [readField] from
    offset 0 on, up to the end of the buffer or to the first field that
    cannot be read. *)
Fixpoint fieldsFrom (fuel : nat) (buffer : list byte) (offset : nat)
    : list Armory.Field :=
  match fuel with
  | O => []
  | S fuel' =>
    if (offset <? length buffer)%nat then
      match Armory.readField buffer offset with
      | Ret (Some f) => f :: fieldsFrom fuel' buffer (Armory.nextOffset f)
      | _ => []
      end
    else []
  end.

Definition topFields (buffer : list byte) : list Armory.Field :=
  fieldsFrom (S (length buffer)) buffer 0.

(** The fields a deep search descends into, and their contents. *)
Definition isChild (f : Armory.Field) : bool :=
  (Armory.wireType f =? 2) && Armory.isBuffer (Armory.fieldValue f)
  && (0 <? len (Armory.bufferOf (Armory.fieldValue f))).

Definition childrenOf (fs : list Armory.Field) : list (list byte) :=
  map (fun f => Armory.bufferOf (Armory.fieldValue f)) (filter isChild fs).

Definition children (buffer : list byte) : list (list byte) :=
  childrenOf (topFields buffer).

(** Try the branches in order; the first accepted result wins. *)
Fixpoint firstMatch {A : Type} (ok : option A -> bool)
    (self : list byte -> res (option A)) (cs : list (list byte))
    : res (option A) :=
  match cs with
  | [] => Ret None
  | c :: cs' =>
    r <- self c ;;
    if ok r then Ret r else firstMatch ok self cs'
  end.

(** The first varint field with the wanted number among some fields. *)
Definition isVarintField (wanted : Z) (f : Armory.Field) : bool :=
  (Armory.wireType f =? 0) && (Armory.fieldNumber f =? wanted).

Definition firstVarint (wanted : Z) (fs : list Armory.Field) : option Num :=
  option_map (fun f => Armory.NumberOf (Armory.fieldValue f))
    (find (isVarintField wanted) fs).

(** A strictly positive varint field 4 somewhere in the nesting. *)
Inductive hasField4 : list byte -> Num -> Prop :=
| field4_here (buffer : list byte) (f : Armory.Field) :
    In f (topFields buffer) ->
    isVarintField 4 f = true ->
    Num_gtb (Armory.NumberOf (Armory.fieldValue f)) (Fin 0) = true ->
    hasField4 buffer (Armory.NumberOf (Armory.fieldValue f))
| field4_nested (buffer c : list byte) (v : Num) :
    In c (children buffer) ->
    hasField4 c v ->
    hasField4 buffer v.

(** ** Fields on the wire *)

Definition mkTag (fieldNumber wireType : Z) : Z :=
  Z.lor (Z.shiftl fieldNumber 3) wireType.

(** A varint field and a sequence of them. *)
Definition encField (f : Z * Z) : list byte :=
  Armory.encodeVarint (mkTag (fst f) 0) ++ Armory.encodeVarint (snd f).

Definition encFields (fs : list (Z * Z)) : list byte := flat_map encField fs.

(** A length-delimited field and a sequence of them. *)
Definition encBytes (f : Z * list byte) : list byte :=
  Armory.encodeVarint (mkTag (fst f) 2) ++ Armory.encodeVarint (len (snd f)) ++ snd f.

Definition encBytesFields (ps : list (Z * list byte)) : list byte :=
  flat_map encBytes ps.

(** What one varint field does to the balance held by
    [parseType6ObjectDataForStars]. *)
Definition starsStep (stars : option Z) (f : Z * Z) : option Z :=
  if (fst f =? 2) && (0 <=? snd f) && (snd f <=? 5000) then Some (snd f) else stars.

(** What one varint field does to the discriminator held by
    [findStarsInCache]. *)
Definition typeStep (foundTypeId : option Z) (f : Z * Z) : option Z :=
  if fst f =? 1 then Some (snd f) else foundTypeId.

(** The candidate payload after some length-delimited fields 2 or 3. *)
Definition lastPayload (ps : list (Z * list byte)) (objectData : option (list byte))
    : option (list byte) :=
  fold_left (fun _ p => Some (snd p)) ps objectData.

Definition wfField (f : Z * Z) : Prop :=
  0 <= fst f < 2 ^ 28 /\ 0 <= snd f < 2 ^ 31.

Definition wfPayload (p : Z * list byte) : Prop :=
  (fst p = 2 \/ fst p = 3) /\ len (snd p) < 2 ^ 31.

(** A balance, when there is one, lies in 0..5000. *)
Definition inRange (r : option Z) : Prop :=
  match r with Some n => 0 <= n <= 5000 | None => True end.

(** ** The settle guard *)


(** ** Concrete buffers *)

Definition bytes (l : list Z) : list byte := map z2b l.

(** field 4 = varint 501; field 12 = message { field 1 = varint 6;
    field 3 = bytes DE AD BE EF }. *)
Definition itemBuffer : list byte :=
  bytes [0x20; 0xF5; 0x03;
         0x62; 0x08; 0x08; 0x06; 0x1A; 0x04; 0xDE; 0xAD; 0xBE; 0xEF].

(** field 4 = varint 0; field 4 = varint 5. *)
Definition zeroThenFive : list byte := bytes [0x20; 0x00; 0x20; 0x05].

(** field 1 = bytes FF (not a field); field 2 = message { field 4 = varint 5 }. *)
Definition brokenThenFive : list byte :=
  bytes [0x0A; 0x01; 0xFF; 0x12; 0x02; 0x20; 0x05].

(** field 1 = varint 6; field 2 = message { field 2 = varint 1200 }. *)
Definition balance1200 : list byte := bytes [0x08; 0x06; 0x12; 0x03; 0x10; 0xB0; 0x09].

(** field 1 = varint 6; field 2 = message { field 2 = varint 7000 }. *)
Definition balance7000 : list byte := bytes [0x08; 0x06; 0x12; 0x03; 0x10; 0xD8; 0x36].

(** field 1, length-delimited, with the five-byte length FA FF FF FF 0F,
    which the 32-bit accumulator reads as -6. *)
Definition loopingCache : list byte := bytes [0x0A; 0xFA; 0xFF; 0xFF; 0xFF; 0x0F].

(** * The rest of SteamClient (SessionManager.js, second part) *)

Module SteamClient.

Definition APP_ID : Z := 730.
Definition MSG_CLIENT_WELCOME : Z := 4004.

(** [parseClientWelcomeManual]: every length-delimited field of the
    welcome message is handed to [findStarsInCache]; the first balance
    found is returned. *)
Fixpoint parseClientWelcomeManual_loop (fuel : nat) (payload : list byte)
    (offset : Z) : res (option Z) :=
  match fuel with
  | O => OutOfFuel
  | S fuel' =>
    if offset <? len payload then
      tagData <- Session.readVarint payload offset ;;
      match tagData with
      | None => Ret None
      | Some tagData =>
        let offset := offset + Session.bytesRead tagData in
        let tag := Session.value tagData in
        let wireType := js_and tag 7 in
        if wireType =? 2 then
          lenData <- Session.readVarint payload offset ;;
          match lenData with
          | None => Ret None
          | Some lenData =>
            let offset := offset + Session.bytesRead lenData in
            let l := Session.value lenData in
            let fieldData := subarray payload offset (offset + l) in
            let offset := offset + l in
            stars <- Session.findStarsInCache fuel' fieldData ;;
            match stars with
            | Some s => Ret (Some s)
            | None => parseClientWelcomeManual_loop fuel' payload offset
            end
          end
        else
          next <- Session.skipByWireType payload offset wireType ;;
          match next with
          | None => Ret None
          | Some next => parseClientWelcomeManual_loop fuel' payload next
          end
      end
    else Ret None
  end.

Definition parseClientWelcomeManual (fuel : nat) (payload : list byte)
    : res (option Z) :=
  if len payload =? 0 then Ret None
  else parseClientWelcomeManual_loop fuel payload 0.

(** The listener [_gcHandlerBound] registered by [connect], as a function
    of the field [this.stars]: a welcome message that carries a balance
    replaces it, any other message leaves it; an exception of the parser
    is caught and logged. *)
Definition gcHandler (fuel : nat) (stars : option Z) (appid msgType : Z)
    (payload : list byte) : res (option Z) :=
  if negb (appid =? APP_ID) || negb (msgType =? MSG_CLIENT_WELCOME) then Ret stars
  else
    match parseClientWelcomeManual fuel payload with
    | Ret (Some s) => Ret (Some s)
    | Ret None => Ret stars
    | Throw => Ret stars
    | OutOfFuel => OutOfFuel
    end.

(** The field [this.stars] after a sequence of messages from the
    coordinator. *)
Fixpoint gcHandlerAll (fuel : nat) (stars : option Z)
    (msgs : list (Z * Z * list byte)) : res (option Z) :=
  match msgs with
  | [] => Ret stars
  | (appid, msgType, payload) :: rest =>
    stars' <- gcHandler fuel stars appid msgType payload ;;
    gcHandlerAll fuel stars' rest
  end.

End SteamClient.

(** * [SteamClient.loginWithCredentials]

    The promise body: the closure variables [done], [pendingToken] and
    [waitingDisconnect], and a log of the calls made on the promise, the
    timers and the client.  As for the purchase, a handler is run for
    every event delivered, also after [cleanup] has removed the
    listeners; the 1500 ms timer set by [onRefreshToken] is never
    cleared by the code. *)

Module Login.

Inductive Error : Type :=
| LoginTimeout
| ClientError (e : Z).

Inductive Effect : Type :=
| ClearTimeout
| RemoveListener (event : string)
| LogOff
| SetDelay
| Resolve (token : option string)
| Reject (err : Error).

Record State : Type := mkState {
  done : bool;
  pendingToken : option string;
  waitingDisconnect : bool;
  log : list Effect
}.

Definition initial : State := mkState false None false [].

Definition cleanup : list Effect :=
  [RemoveListener "error"; RemoveListener "refreshToken";
   RemoveListener "disconnected"; RemoveListener "loggedOn"].

Definition finishReject (e : Error) (st : State) : State :=
  if done st then st
  else mkState true (pendingToken st) (waitingDisconnect st)
         (log st ++ [ClearTimeout] ++ cleanup ++ [LogOff; Reject e]).

Definition finishResolve (token : option string) (st : State) : State :=
  if done st then st
  else mkState true (pendingToken st) (waitingDisconnect st)
         (log st ++ [ClearTimeout] ++ cleanup ++ [Resolve token]).

(** The body shared by [onDisconnected] and by the 1500 ms timer. *)
Definition releaseToken (st : State) : State :=
  if negb (waitingDisconnect st) then st
  else
    let token := pendingToken st in
    finishResolve token (mkState (done st) None false (log st)).

Inductive Event : Type :=
| TimerFired
| OnError (e : Z)
| OnLoggedOn
| OnDisconnected
| OnRefreshToken (refreshToken : string)
| DelayFired.

Definition handle (st : State) (ev : Event) : State :=
  match ev with
  | TimerFired => finishReject LoginTimeout st
  | OnError e => finishReject (ClientError e) st
  | OnLoggedOn => st
  | OnDisconnected => releaseToken st
  | OnRefreshToken refreshToken =>
    mkState (done st) (Some refreshToken) true (log st ++ [LogOff; SetDelay])
  | DelayFired => releaseToken st
  end.

Definition run (evs : list Event) (st : State) : State := fold_left handle evs st.

Definition isOutcome (e : Effect) : bool :=
  match e with Resolve _ | Reject _ => true | _ => false end.

Definition outcomes (st : State) : list Effect := filter isOutcome (log st).

End Login.

(** * JS strings

    A JS string is a sequence of UTF-16 code units. *)

Definition JsString : Type := list N.

(** A literal of the source, all of whose characters are ASCII. *)
Definition lit (s : string) : JsString :=
  map N_of_ascii (list_ascii_of_string s).

Fixpoint JsString_eqb (a b : JsString) : bool :=
  match a, b with
  | [], [] => true
  | x :: a', y :: b' => (x =? y)%N && JsString_eqb a' b'
  | _, _ => false
  end.

(** [s.startsWith(p)]. *)
Fixpoint startsWith (p s : JsString) : bool :=
  match p, s with
  | [], _ => true
  | _ :: _, [] => false
  | x :: p', y :: s' => (x =? y)%N && startsWith p' s'
  end.

(** [s.endsWith(p)]. *)
Definition endsWith (s p : JsString) : bool :=
  (length p <=? length s)%nat &&
  JsString_eqb (skipn (length s - length p) s) p.

(** [s.replace(p, '')] for a string [p]: the first occurrence of [p] is
    removed. *)
Fixpoint removeFirst (p s : JsString) : JsString :=
  if startsWith p s then skipn (length p) s
  else
    match s with
    | [] => []
    | c :: s' => c :: removeFirst p s'
    end.

(** The code units that [trim] removes: the white space and the line
    terminators of ECMAScript. *)
Definition isWhiteSpace (c : N) : bool :=
  ((9 <=? c) && (c <=? 13) || (c =? 32) || (c =? 160) || (c =? 5760)
   || (8192 <=? c) && (c <=? 8202) || (c =? 8232) || (c =? 8233)
   || (c =? 8239) || (c =? 8287) || (c =? 12288) || (c =? 65279))%N.

Fixpoint trimStart (s : JsString) : JsString :=
  match s with
  | [] => []
  | c :: s' => if isWhiteSpace c then trimStart s' else s
  end.

Definition trimEnd (s : JsString) : JsString := rev (trimStart (rev s)).

Definition trim (s : JsString) : JsString := trimEnd (trimStart s).

(** * [SessionManager.listAccounts] (SessionManager.js, first part)

    The directory is given by what [fs.existsSync] and [fs.readdirSync]
    return for it. *)

Module SessionFiles.

Definition extension : JsString := lit ".steamsession".

Definition listAccounts (baseDirExists : bool) (entries : list JsString)
    : list JsString :=
  if negb baseDirExists then []
  else map (removeFirst extension) (filter (fun f => endsWith f extension) entries).

(** The name of the file that [saveSession] writes for [username] in the
    directory. *)
Definition sessionFile (username : JsString) : JsString := username ++ extension.

End SessionFiles.

(** * [SchemaResolver] (SchemaResolver.js, first part)

    A JS number is here a rational (every finite double is one, and [-0]
    compares as [0]), an infinity or NaN; the comparisons are the ones of
    JS, false as soon as NaN takes part.  A value whose [typeof] is
    neither ['number'] nor ['string'] is [JOther]. *)

Module Schema.

Import QArith.
Local Open Scope Q_scope.

Inductive JsNumber : Type :=
| Finite (q : Q)
| PosInfinity
| NegInfinity
| NotANumber.

Inductive JsValue : Type :=
| JNumber (x : JsNumber)
| JString (s : JsString)
| JOther.

(** [x < y] and [x <= y]. *)
Definition lt (x y : JsNumber) : bool :=
  match x, y with
  | NotANumber, _ | _, NotANumber => false
  | _, NegInfinity => false
  | NegInfinity, _ => true
  | PosInfinity, _ => false
  | Finite _, PosInfinity => true
  | Finite a, Finite b => negb (Qle_bool b a)
  end.

Definition le (x y : JsNumber) : bool :=
  match x, y with
  | NotANumber, _ | _, NotANumber => false
  | NegInfinity, _ => true
  | _, PosInfinity => true
  | _, NegInfinity => false
  | PosInfinity, _ => false
  | Finite a, Finite b => Qle_bool a b
  end.

Definition zero : JsNumber := Finite 0.
Definition one : JsNumber := Finite 1.

(** The doubles written 0.07, 0.15, 0.38 and 0.45 in the source. *)
Definition d0_07 : Q := 1261007895663739 # (2 ^ 54).
Definition d0_15 : Q := 5404319552844595 # (2 ^ 55).
Definition d0_38 : Q := 3422735716801577 # (2 ^ 53).
Definition d0_45 : Q := 8106479329266893 # (2 ^ 54).

Definition DEFAULT_WEAR_BOUNDS : list (JsNumber * JsString) :=
  [(Finite d0_07, lit "Factory New");
   (Finite d0_15, lit "Minimal Wear");
   (Finite d0_38, lit "Field-Tested");
   (Finite d0_45, lit "Well-Worn");
   (one, lit "Battle-Scarred")].

(** [null] is [None]. *)
Definition normalizeExteriorFromGC (quality : JsValue) : option JsString :=
  match quality with
  | JString s =>
    match trim s with
    | [] => None
    | t => Some t
    end
  | _ => None
  end.

Definition clamp01 (x : JsValue) : option JsNumber :=
  match x with
  | JNumber NotANumber => None
  | JNumber n =>
    if lt n zero then Some zero
    else if lt one n then Some one
    else Some n
  | _ => None
  end.

Fixpoint wearToExteriorByFloat_loop (wear : JsNumber)
    (bounds : list (JsNumber * JsString)) : JsString :=
  match bounds with
  | [] => lit "Battle-Scarred"
  | (max, name) :: rest =>
    if le wear max then name else wearToExteriorByFloat_loop wear rest
  end.

Definition wearToExteriorByFloat (wear : JsValue) : JsString :=
  match wear with
  | JNumber w => wearToExteriorByFloat_loop w DEFAULT_WEAR_BOUNDS
  | _ => lit ""
  end.

(** The entry of a paint in the schema, as far as [resolveExterior]
    reads it. *)
Record Paint : Type := mkPaint { paint_min : JsValue; paint_max : JsValue }.

Definition numberOrNull (v : option JsValue) : option JsNumber :=
  match v with
  | Some (JNumber n) => Some n
  | _ => None
  end.

(** [resolveExterior]; [p] is what the lookup
    [this.schema?.weapons?.[String(defindex)]?.paints?.[String(paintindex)]]
    gives, [None] when a link of the chain is missing. *)
Definition resolveExterior (p : option Paint) (paintwear gcQuality : JsValue)
    : JsString :=
  match normalizeExteriorFromGC gcQuality with
  | Some fromGC => fromGC
  | None =>
    match clamp01 paintwear with
    | None => lit ""
    | Some wear =>
      let min := numberOrNull (option_map paint_min p) in
      let max := numberOrNull (option_map paint_max p) in
      let effectiveWear := wear in
      let effectiveWear :=
        match min with
        | Some m => if lt effectiveWear m then m else effectiveWear
        | None => effectiveWear
        end in
      let effectiveWear :=
        match max with
        | Some m => if lt m effectiveWear then m else effectiveWear
        | None => effectiveWear
        end in
      wearToExteriorByFloat (JNumber effectiveWear)
    end
  end.

(** The place of an exterior in the scale, from Factory New on. *)
Definition rank (name : JsString) : nat :=
  if JsString_eqb name (lit "Factory New") then 0
  else if JsString_eqb name (lit "Minimal Wear") then 1
  else if JsString_eqb name (lit "Field-Tested") then 2
  else if JsString_eqb name (lit "Well-Worn") then 3
  else 4.

End Schema.

(** * Vocabulary of the further properties *)

(** ** Streams of fields *)

Inductive WireField : Type :=
| WVarint (fieldNumber v : Z)
| WBytes (fieldNumber : Z) (p : list byte)
| WFixed32 (fieldNumber : Z) (b : list byte)
| WFixed64 (fieldNumber : Z) (b : list byte).

Definition wireNumber (w : WireField) : Z :=
  match w with
  | WVarint fn _ | WBytes fn _ | WFixed32 fn _ | WFixed64 fn _ => fn
  end.

Definition wireTypeOf (w : WireField) : Z :=
  match w with
  | WVarint _ _ => 0
  | WBytes _ _ => 2
  | WFixed32 _ _ => 5
  | WFixed64 _ _ => 1
  end.

(** The bytes after the tag. *)
Definition wireBody (w : WireField) : list byte :=
  match w with
  | WVarint _ v => Armory.encodeVarint v
  | WBytes _ p => Armory.encodeVarint (len p) ++ p
  | WFixed32 _ b | WFixed64 _ b => b
  end.

Definition encWire (w : WireField) : list byte :=
  Armory.encodeVarint (mkTag (wireNumber w) (wireTypeOf w)) ++ wireBody w.

Definition encStream (ws : list WireField) : list byte := flat_map encWire ws.

Definition wfWire (w : WireField) : Prop :=
  0 <= wireNumber w < 2 ^ 28 /\
  match w with
  | WVarint _ v => 0 <= v
  | WBytes _ _ => True
  | WFixed32 _ b => length b = 4%nat
  | WFixed64 _ b => length b = 8%nat
  end.

(** What [readField] is to return for a field of the stream that
    starts at [offset]. *)
Definition wireValue (w : WireField) : Armory.FieldValue :=
  match w with
  | WVarint _ v => Armory.VBigInt v
  | WBytes _ p => Armory.VBuffer p
  | WFixed32 _ _ | WFixed64 _ _ => Armory.VNull
  end.

Definition fieldOf (offset : nat) (w : WireField) : Armory.Field :=
  Armory.mkField (wireNumber w) (wireTypeOf w) (wireValue w)
    (offset + length (encWire w)).

Fixpoint fieldsOf (offset : nat) (ws : list WireField) : list Armory.Field :=
  match ws with
  | [] => []
  | w :: rest => fieldOf offset w :: fieldsOf (offset + length (encWire w)) rest
  end.

(** ** The parsers as folds over the fields read *)

Definition attrStep (attr : Armory.Attribute) (f : Armory.Field) : Armory.Attribute :=
  let attr :=
    if (Armory.fieldNumber f =? 1) && (Armory.wireType f =? 0)
    then Armory.mkAttribute (Some (Armory.NumberOf (Armory.fieldValue f)))
           (Armory.value_bytes attr)
    else attr in
  if (Armory.fieldNumber f =? 3) && (Armory.wireType f =? 2)
     && Armory.isBuffer (Armory.fieldValue f)
  then Armory.mkAttribute (Armory.attr_def_index attr)
         (Some (toHex (Armory.bufferOf (Armory.fieldValue f))))
  else attr.

Definition attributeOf (buffer : list byte) : option Armory.Attribute :=
  let attr := fold_left attrStep (topFields buffer) (Armory.mkAttribute None None) in
  match Armory.attr_def_index attr with
  | Some _ => Some attr
  | None => None
  end.

Definition itemStep (item : Armory.Item) (f : Armory.Field) : Armory.Item :=
  let item :=
    if (Armory.fieldNumber f =? 4) && (Armory.wireType f =? 0)
    then Armory.mkItem (Some (Armory.NumberOf (Armory.fieldValue f)))
           (Armory.attribute item)
    else item in
  if (Armory.fieldNumber f =? 12) && (Armory.wireType f =? 2)
     && Armory.isBuffer (Armory.fieldValue f)
  then
    match attributeOf (Armory.bufferOf (Armory.fieldValue f)) with
    | Some a => Armory.mkItem (Armory.def_index item) (Armory.attribute item ++ [a])
    | None => item
    end
  else item.

Definition itemOf (buffer : list byte) : option Armory.Item :=
  let item := fold_left itemStep (topFields buffer) (Armory.mkItem None []) in
  if Armory.accepted item then Some item else None.

(** An attribute and an item on the wire. *)
Definition encAttribute (a : Z * list byte) : WireField :=
  WBytes 12 (encStream [WVarint 1 (fst a); WBytes 3 (snd a)]).

Definition encItem (defIndex : Z) (attrs : list (Z * list byte)) : list byte :=
  encStream (WVarint 4 defIndex :: map encAttribute attrs).

Definition attributeFor (a : Z * list byte) : Armory.Attribute :=
  Armory.mkAttribute (Some (Fin (fst a))) (Some (toHex (snd a))).

(** The fields of a stream that [parseCSOEconItem] takes for the item's
    [def_index], and the ones a deep search descends into. *)
Definition isItemIndex (w : WireField) : bool :=
  (wireNumber w =? 4) && (wireTypeOf w =? 0).

Definition isNested (w : WireField) : bool := wireTypeOf w =? 2.

Definition isVarintNumbered (wanted : Z) (w : WireField) : bool :=
  (wireTypeOf w =? 0) && (wireNumber w =? wanted).

(** ** Where an outcome comes from *)

(** A resolution of the purchase carries the item found in a message
    "item created" of the game, and the balance less the price. *)
Definition resolvedBy (currentStars itemPrice : Z) (evs : list Purchase.Event)
    (data : option Purchase.Data) : Prop :=
  exists d payload,
    data = Some d /\
    Purchase.success d = true /\
    Purchase.newStars d = Num_sub (Fin currentStars) (Fin itemPrice) /\
    Purchase.defIndex d = Armory.def_index (Purchase.item d) /\
    Armory.accepted (Purchase.item d) = true /\
    In (Purchase.OnReceivedFromGC Purchase.APP_ID Purchase.MSG_ESO_CREATE payload) evs /\
    Armory.findCSOEconItem payload = Ret (Some (Purchase.item d)).

(** A rejection of the purchase names the event behind it. *)
Definition rejectedBy (evs : list Purchase.Event) (err : option Purchase.Error) : Prop :=
  match err with
  | Some Purchase.PurchaseTimeout => In Purchase.TimerFired evs
  | Some Purchase.Disconnected => In Purchase.OnDisconnected evs
  | Some (Purchase.ClientError e) => In (Purchase.OnError e) evs
  | Some Purchase.CouldNotParse =>
    exists payload,
      In (Purchase.OnReceivedFromGC Purchase.APP_ID Purchase.MSG_ESO_CREATE payload) evs /\
      Armory.findCSOEconItem payload = Ret None
  | None => False
  end.

(** A token handed to the caller of [loginWithCredentials] was received
    in a [refreshToken] event. *)
Definition tokenFrom (evs : list Login.Event) (token : option string) : Prop :=
  exists t, token = Some t /\ In (Login.OnRefreshToken t) evs.

(** The login promise is pending, or it was decided once. *)
Definition loginSettledOnce (st : Login.State) : Prop :=
  (Login.done st = false /\ Login.outcomes st = [])
  \/ (Login.done st = true /\ exists o, Login.outcomes st = [o]).

(** [p] occurs somewhere in [s]. *)
Fixpoint occursIn (p s : JsString) : bool :=
  startsWith p s ||
  match s with
  | [] => false
  | _ :: s' => occursIn p s'
  end.

(** [z] is the value of a JS number: converting it to a double changes
    nothing. *)
Definition isDouble (z : Z) : Prop := toDouble z = Fin z.

(** ** The balance extractor on any fields *)

(** The value that the 32-bit [readVarint] gives for the encoding of
    [n]: [n] itself below [2^31], something else from there on. *)
Definition int32Varint (n : Z) : Z :=
  match decodeFrom32 (Armory.encodeVarint n) 0 0 0 with
  | Some v => Session.value v
  | None => 0
  end.

(** A field that the 32-bit reader can pass over: its content is shorter
    than [2^31] bytes; a varint may hold any value. *)
Definition wfWire32 (w : WireField) : Prop :=
  0 <= wireNumber w < 2 ^ 28 /\
  match w with
  | WVarint _ v => 0 <= v
  | WBytes _ p => len p < 2 ^ 31
  | WFixed32 _ b => length b = 4%nat
  | WFixed64 _ b => length b = 8%nat
  end.

(** What one field does to the balance held by
    [parseType6ObjectDataForStars], to the discriminator and to the
    candidate payload held by [findStarsInCache]. *)
Definition starsStepW (stars : option Z) (w : WireField) : option Z :=
  match w with
  | WVarint fn v => starsStep stars (fn, int32Varint v)
  | _ => stars
  end.

Definition typeStepW (foundTypeId : option Z) (w : WireField) : option Z :=
  match w with
  | WVarint fn v => typeStep foundTypeId (fn, int32Varint v)
  | _ => foundTypeId
  end.

Definition objectStepW (objectData : option (list byte)) (w : WireField)
    : option (list byte) :=
  match w with
  | WBytes fn p => if (fn =? 2) || (fn =? 3) then Some p else objectData
  | _ => objectData
  end.

(** The contents of the length-delimited fields of a stream. *)
Definition payloadsOf (ws : list WireField) : list (list byte) :=
  flat_map (fun w => match w with WBytes _ p => [p] | _ => [] end) ws.

(** A length-delimited field that [findStarsInCache] takes for the
    candidate payload, and a varint field that
    [parseType6ObjectDataForStars] takes for the balance. *)
Definition isCandidate (w : WireField) : bool :=
  match w with
  | WBytes fn _ => (fn =? 2) || (fn =? 3)
  | _ => false
  end.

Definition isBalance (w : WireField) : bool :=
  match w with
  | WVarint fn v => (fn =? 2) && (0 <=? int32Varint v) && (int32Varint v <=? 5000)
  | _ => false
  end.

(** The cache with the discriminator 6 and the payload field 2 = [v]. *)
Definition balanceCache (v : Z) : list byte :=
  encField (1, 6) ++ encBytes (2, encField (2, v)).

(** * Properties *)

Lemma b2z_range (b : byte) : 0 <= b2z b < 256.
Proof.
  unfold b2z. pose proof (Byte.to_N_bounded b). lia.
Qed.

Lemma b2z_z2b (z : Z) : b2z (z2b z) = z mod 256.
Proof.
  unfold z2b, b2z.
  assert (Hm : 0 <= z mod 256 < 256) by (apply Z.mod_pos_bound; lia).
  destruct (Byte.of_N (Z.to_N (z mod 256))) as [b|] eqn:E.
  - apply Byte.to_of_N in E. rewrite E. lia.
  - apply Byte.of_N_None_iff in E. lia.
Qed.

Lemma z2b_b2z (b : byte) : z2b (b2z b) = b.
Proof.
  unfold z2b. pose proof (b2z_range b) as H.
  rewrite Z.mod_small by lia. unfold b2z. rewrite N2Z.id.
  now rewrite Byte.of_to_N.
Qed.

Lemma byteAt_nat (buffer : list byte) (i : nat) :
  byteAt buffer (Z.of_nat i) = option_map b2z (nth_error buffer i).
Proof.
  unfold byteAt. destruct (Z.ltb_spec (Z.of_nat i) 0); [lia|].
  now rewrite Nat2Z.id.
Qed.

Lemma land_127 (y : Z) : Z.land y 127 = y mod 128.
Proof. change 127 with (Z.ones 7). now rewrite Z.land_ones by lia. Qed.

Lemma testbit7_small (y : Z) : 0 <= y < 128 -> Z.testbit y 7 = false.
Proof.
  intros H. apply Z.testbit_false; [lia|].
  change (2 ^ 7) with 128. rewrite Z.div_small by lia. reflexivity.
Qed.

Lemma land_128_eqb (y : Z) : 0 <= y < 256 -> (Z.land y 128 =? 0) = (y <? 128).
Proof.
  intros H. destruct (Z.ltb_spec y 128) as [Hlt|Hge].
  - apply Z.eqb_eq. apply Z.bits_inj'. intros n Hn.
    rewrite Z.land_spec, Z.bits_0. change 128 with (2 ^ 7).
    rewrite Z.pow2_bits_eqb by lia.
    destruct (Z.eqb_spec 7 n) as [<-|]; [|apply andb_false_r].
    rewrite testbit7_small by lia. reflexivity.
  - apply Z.eqb_neq. intros E.
    assert (T : Z.testbit (Z.land y 128) 7 = true).
    { rewrite Z.land_spec. change 128 with (2 ^ 7).
      rewrite Z.pow2_bits_true by lia. rewrite andb_true_r.
      apply Z.testbit_true; [lia|]. change (2 ^ 7) with 128.
      assert (Hq : y / 128 = 1) by (symmetry; apply Z.div_unique with (r := y - 128); lia).
      rewrite Hq. reflexivity. }
    rewrite E, Z.bits_0 in T. discriminate.
Qed.

Lemma lor_128 (m : Z) : 0 <= m < 128 -> Z.lor m 128 = m + 128.
Proof.
  intros H.
  assert (E : Z.land m 128 = 0).
  { apply Z.eqb_eq. rewrite land_128_eqb by lia. apply Z.ltb_lt. lia. }
  rewrite <- Z.lxor_lor by exact E. symmetry. now apply Z.add_nocarry_lxor.
Qed.

(** ** [Armory.readVarint] *)

Lemma readVarint_loop_decodeFrom (fuel : nat) (buffer : list byte) (offset : nat)
    (result shift : Z) (k : nat) :
  (length buffer - (offset + k) < fuel)%nat ->
  Armory.readVarint_loop fuel buffer offset result shift k
  = Ret (decodeFrom (skipn (offset + k) buffer) result shift k).
Proof.
  revert result shift k. induction fuel as [|fuel IH]; intros result shift k Hf.
  - lia.
  - simpl. destruct (Nat.leb_spec (length buffer) (offset + k)) as [Hle|Hlt].
    + rewrite skipn_all2 by lia. reflexivity.
    + rewrite byteAt_nat.
      destruct (nth_error buffer (offset + k)) as [b|] eqn:Eb.
      2:{ apply nth_error_None in Eb. lia. }
      assert (Es : skipn (offset + k) buffer = b :: skipn (offset + S k) buffer).
      { clear - Eb. revert Eb.
        replace (offset + S k)%nat with (S (offset + k)) by lia.
        generalize (offset + k)%nat as n. revert buffer.
        intros buffer n; revert buffer.
        induction n as [|n IHn]; intros [|c buffer] E; simpl in *; try discriminate.
        - now inversion E.
        - now apply IHn. }
      rewrite Es. simpl.
      destruct (Z.land (b2z b) 128 =? 0); [reflexivity|].
      rewrite IH by lia. reflexivity.
Qed.

Lemma readVarint_decodeFrom (buffer : list byte) (offset : nat) :
  Armory.readVarint buffer offset = Ret (decodeFrom (skipn offset buffer) 0 0 0).
Proof.
  unfold Armory.readVarint. rewrite readVarint_loop_decodeFrom by lia.
  now rewrite Nat.add_0_r.
Qed.

(** ** [Armory.encodeVarint] *)

Lemma lt_pow2_log2 (y : Z) : y < 2 ^ (Z.log2 y + 1).
Proof.
  destruct (Z.le_gt_cases y 0) as [H|H].
  - assert (0 < 2 ^ (Z.log2 y + 1)); [|lia].
    apply Z.pow_pos_nonneg; [lia|]. pose proof (Z.log2_nonneg y). lia.
  - apply Z.log2_spec in H. unfold Z.succ in H. lia.
Qed.

Lemma shiftr7_lt (x k : Z) : 0 <= k -> x < 2 ^ (k + 7) -> Z.shiftr x 7 < 2 ^ k.
Proof.
  intros Hk H. rewrite Z.shiftr_div_pow2 by lia.
  apply Z.div_lt_upper_bound; [lia|]. rewrite <- Z.pow_add_r by lia.
  now rewrite Z.add_comm.
Qed.

Lemma encodeVarint_loop_fuel (f1 f2 : nat) (x : Z) :
  x < 2 ^ (7 * Z.of_nat f1 + 7) -> x < 2 ^ (7 * Z.of_nat f2 + 7) ->
  Armory.encodeVarint_loop f1 x = Armory.encodeVarint_loop f2 x.
Proof.
  revert f2 x. induction f1 as [|f1 IH]; intros f2 x H1 H2.
  - destruct f2; simpl; destruct (Z.leb_spec 128 x); try reflexivity.
    simpl in H1. lia.
  - destruct f2 as [|f2]; simpl; destruct (Z.leb_spec 128 x); try reflexivity.
    + simpl in H2. lia.
    + f_equal. apply IH; apply shiftr7_lt; try lia.
      * replace (7 * Z.of_nat f1 + 7 + 7) with (7 * Z.of_nat (S f1) + 7) by lia. exact H1.
      * replace (7 * Z.of_nat f2 + 7 + 7) with (7 * Z.of_nat (S f2) + 7) by lia. exact H2.
Qed.

Lemma lt_pow2_fuel (y : Z) : y < 2 ^ (7 * Z.of_nat (Z.to_nat (Z.log2 y)) + 7).
Proof.
  pose proof (Z.log2_nonneg y) as Hl. rewrite Z2Nat.id by lia.
  eapply Z.lt_le_trans; [apply lt_pow2_log2|].
  apply Z.pow_le_mono_r; lia.
Qed.

(** The loop of [encodeVarint], one iteration at a time. *)
Lemma encodeVarint_eq (x : Z) :
  Armory.encodeVarint x =
  if 128 <=? x
  then z2b (Z.lor (Z.land x 127) 128) :: Armory.encodeVarint (Z.shiftr x 7)
  else [z2b x].
Proof.
  unfold Armory.encodeVarint at 1.
  destruct (Z.leb_spec 128 x) as [Hge|Hlt].
  - assert (Hl : 7 <= Z.log2 x) by (apply Z.log2_le_pow2; simpl; lia).
    destruct (Z.to_nat (Z.log2 x)) as [|f] eqn:Ef; [lia|].
    simpl. destruct (Z.leb_spec 128 x); [|lia]. f_equal.
    unfold Armory.encodeVarint. apply encodeVarint_loop_fuel.
    + apply shiftr7_lt; [lia|].
      eapply Z.lt_le_trans; [apply lt_pow2_log2|].
      apply Z.pow_le_mono_r; lia.
    + apply lt_pow2_fuel.
  - destruct (Z.to_nat (Z.log2 x)); simpl; destruct (Z.leb_spec 128 x); (reflexivity || lia).
Qed.

Lemma encodeVarint_small (x : Z) : x < 128 -> Armory.encodeVarint x = [z2b x].
Proof.
  intros H. rewrite encodeVarint_eq. destruct (Z.leb_spec 128 x); [lia|reflexivity].
Qed.

Lemma encodeVarint_length_pos (x : Z) : (0 < length (Armory.encodeVarint x))%nat.
Proof.
  rewrite encodeVarint_eq. destruct (128 <=? x); simpl; lia.
Qed.

Lemma split7 (x : Z) : 0 <= x ->
  Z.lor (x mod 128) (Z.shiftl (Z.shiftr x 7) 7) = x.
Proof.
  intros Hx. apply Z.bits_inj'. intros n Hn.
  rewrite Z.lor_spec. change 128 with (2 ^ 7).
  destruct (Z.lt_ge_cases n 7) as [Hlt|Hge].
  - rewrite Z.mod_pow2_bits_low by lia.
    rewrite Z.shiftl_spec_low by lia. apply orb_false_r.
  - rewrite Z.mod_pow2_bits_high by lia.
    rewrite Z.shiftl_spec by lia. rewrite Z.shiftr_spec by lia.
    simpl. f_equal. lia.
Qed.

Lemma decodeFrom_encodeVarint (x : Z) :
  0 <= x -> forall (suf : list byte) (r s : Z) (n : nat), 0 <= s ->
  decodeFrom (Armory.encodeVarint x ++ suf) r s n
  = Some (Armory.mkVarint (Z.lor r (Z.shiftl x s))
            (n + length (Armory.encodeVarint x))).
Proof.
  intros Hx. generalize Hx. pattern x.
  apply Z_lt_induction; [clear x Hx|exact Hx].
  intros x IH Hx suf r s n Hs.
  rewrite encodeVarint_eq. destruct (Z.leb_spec 128 x) as [Hge|Hlt].
  - assert (Hm : 0 <= x mod 128 < 128) by (apply Z.mod_pos_bound; lia).
    cbn [app decodeFrom]. rewrite b2z_z2b, land_127, lor_128 by lia.
    rewrite (Z.mod_small (x mod 128 + 128)) by lia.
    rewrite land_127, land_128_eqb by lia.
    destruct (Z.ltb_spec (x mod 128 + 128) 128); [lia|].
    assert (E : (x mod 128 + 128) mod 128 = x mod 128).
    { replace (x mod 128 + 128) with (x mod 128 + 1 * 128) by lia.
      rewrite Z_mod_plus_full. apply Z.mod_small; lia. }
    rewrite E.
    assert (Hs7 : 0 <= Z.shiftr x 7 < x).
    { rewrite Z.shiftr_div_pow2 by lia. change (2 ^ 7) with 128. split.
      - apply Z.div_pos; lia.
      - apply Z.div_lt; lia. }
    rewrite IH by lia. f_equal. f_equal.
    + rewrite <- Z.lor_assoc. f_equal.
      replace (s + 7) with (7 + s) by lia.
      rewrite <- Z.shiftl_shiftl by lia. rewrite <- Z.shiftl_lor.
      now rewrite split7 by lia.
    + simpl. lia.
  - cbn [app decodeFrom]. rewrite b2z_z2b. rewrite (Z.mod_small x 256) by lia.
    rewrite land_127, land_128_eqb by lia.
    destruct (Z.ltb_spec x 128); [|lia].
    rewrite Z.mod_small by lia. f_equal. f_equal. simpl. lia.
Qed.

Lemma skipn_app_exact {A} (pre l : list A) : skipn (length pre) (pre ++ l) = l.
Proof. induction pre; simpl; auto. Qed.

(** Round trip of the BigInt codec, anywhere in a buffer. *)
Lemma armory_readVarint_encodeVarint (n : Z) (pre suf : list byte) :
  0 <= n ->
  Armory.readVarint (pre ++ Armory.encodeVarint n ++ suf) (length pre)
  = Ret (Some (Armory.mkVarint n (length (Armory.encodeVarint n)))).
Proof.
  intros Hn. rewrite readVarint_decodeFrom, skipn_app_exact.
  rewrite decodeFrom_encodeVarint by lia.
  rewrite Z.shiftl_0_r, Z.lor_0_l. reflexivity.
Qed.

Lemma decodeFrom_bytesRead (bs : list byte) : forall (r s : Z) (n : nat) v,
  decodeFrom bs r s n = Some v ->
  (n < Armory.bytesRead v <= n + length bs)%nat.
Proof.
  induction bs as [|b bs IH]; intros r s n v H; simpl in H; [discriminate|].
  destruct (Z.land (b2z b) 128 =? 0).
  - inversion H; subst; simpl. lia.
  - apply IH in H. simpl. lia.
Qed.

Lemma decodeFrom_nonneg (bs : list byte) : forall (r s : Z) (n : nat) v,
  0 <= r -> 0 <= s ->
  decodeFrom bs r s n = Some v -> 0 <= Armory.value v.
Proof.
  induction bs as [|b bs IH]; intros r s n v Hr Hs H; simpl in H; [discriminate|].
  assert (Hacc : 0 <= Z.lor r (Z.shiftl (Z.land (b2z b) 127) s)).
  { apply Z.lor_nonneg. split; [lia|]. apply Z.shiftl_nonneg.
    apply Z.land_nonneg. right. lia. }
  destruct (Z.land (b2z b) 128 =? 0).
  - inversion H; subst; simpl. exact Hacc.
  - eapply IH; [| |exact H]; lia.
Qed.

Lemma decodeFrom_app (bs suf : list byte) : forall (r s : Z) (n : nat) v,
  decodeFrom bs r s n = Some v -> decodeFrom (bs ++ suf) r s n = Some v.
Proof.
  induction bs as [|b bs IH]; intros r s n v H; simpl in *; [discriminate|].
  destruct (Z.land (b2z b) 128 =? 0); auto.
Qed.

Lemma decodeFrom_firstn_some (bs : list byte) : forall (r s : Z) (n m : nat) v,
  decodeFrom bs r s n = Some v -> (Armory.bytesRead v <= n + m)%nat ->
  decodeFrom (firstn m bs) r s n = Some v.
Proof.
  induction bs as [|b bs IH]; intros r s n m v H Hm; [discriminate|].
  pose proof (decodeFrom_bytesRead _ _ _ _ _ H) as Hb. simpl in H.
  destruct m as [|m]; [lia|].
  simpl. destruct (Z.land (b2z b) 128 =? 0); [exact H|].
    apply IH; [exact H|lia].
Qed.

Lemma decodeFrom_firstn_none (bs : list byte) : forall (r s : Z) (n m : nat) v,
  decodeFrom bs r s n = Some v -> (n + m < Armory.bytesRead v)%nat ->
  decodeFrom (firstn m bs) r s n = None.
Proof.
  induction bs as [|b bs IH]; intros r s n m v H Hm; simpl in H; [discriminate|].
  destruct m as [|m]; [reflexivity|].
  simpl. destruct (Z.land (b2z b) 128 =? 0).
  - inversion H; subst; simpl in *. lia.
  - eapply IH; [exact H|lia].
Qed.

Lemma decodeFrom_firstn_of_none (bs : list byte) : forall (r s : Z) (n m : nat),
  decodeFrom bs r s n = None -> decodeFrom (firstn m bs) r s n = None.
Proof.
  induction bs as [|b bs IH]; intros r s n m H; simpl in H.
  - now rewrite firstn_nil.
  - destruct m as [|m]; [reflexivity|]. simpl.
    destruct (Z.land (b2z b) 128 =? 0); [discriminate|]. now apply IH.
Qed.

(** A varint is missing exactly when every byte left has the
    continuation bit. *)
Lemma decodeFrom_none_iff (bs : list byte) : forall (r s : Z) (n : nat),
  decodeFrom bs r s n = None <-> allContinue bs.
Proof.
  unfold allContinue.
  induction bs as [|b bs IH]; intros r s n; simpl.
  - split; auto.
  - destruct (Z.eqb_spec (Z.land (b2z b) 128) 0) as [E|E].
    + split; [discriminate|]. intros H. inversion H; subst. contradiction.
    + rewrite IH. split.
      * intros H. constructor; assumption.
      * intros H. now inversion H.
Qed.

(** ** Rounding to a double *)

Lemma roundDouble_small (z : Z) : z < two53 -> roundDouble z = z.
Proof.
  intros H. unfold roundDouble. destruct (Z.ltb_spec z two53); [reflexivity|lia].
Qed.

Lemma roundDouble_big (z : Z) : two53 <= z -> two53 <= roundDouble z.
Proof.
  intros H. unfold roundDouble. destruct (Z.ltb_spec z two53); [lia|].
  assert (Hz : 0 < z) by (unfold two53 in *; lia).
  assert (Hl : 53 <= Z.log2 z) by (apply Z.log2_le_pow2; [lia|exact H]).
  set (e := Z.log2 z - 52).
  assert (He : 1 <= e) by (unfold e; lia).
  set (q := Z.shiftr z e).
  assert (Hq : 2 ^ 52 <= q).
  { unfold q. rewrite Z.shiftr_div_pow2 by lia.
    apply Z.div_le_lower_bound; [apply Z.pow_pos_nonneg; lia|].
    rewrite <- Z.pow_add_r by lia.
    replace (e + 52) with (Z.log2 z) by (unfold e; lia).
    apply Z.log2_spec. exact Hz. }
  match goal with |- _ <= Z.shiftl ?q' e => assert (Hq' : q <= q') end.
  { destruct (_ || _); lia. }
  rewrite Z.shiftl_mul_pow2 by lia.
  assert (2 ^ 1 <= 2 ^ e) by (apply Z.pow_le_mono_r; lia).
  change two53 with (2 ^ 52 * 2 ^ 1).
  apply Z.mul_le_mono_nonneg; lia.
Qed.

Lemma roundDouble_nonneg (z : Z) : 0 <= z -> 0 <= roundDouble z.
Proof.
  intros H. destruct (Z.lt_ge_cases z two53).
  - now rewrite roundDouble_small.
  - pose proof (roundDouble_big _ H0). unfold two53 in *. lia.
Qed.

(** The conversion of a non-negative integer: exact below [2^53], at
    least [2^53] from there on. *)
Lemma toDouble_nonneg (z : Z) : 0 <= z ->
  toDouble z = PosInf \/
  exists m, toDouble z = Fin m /\ 0 <= m /\
            ((z < two53 /\ m = z) \/ (two53 <= z /\ two53 <= m)).
Proof.
  intros H. unfold toDouble. destruct (Z.ltb_spec z 0); [lia|].
  destruct (two1024 <=? roundDouble z); [now left|right].
  exists (roundDouble z). split; [reflexivity|]. split; [now apply roundDouble_nonneg|].
  destruct (Z.lt_ge_cases z two53).
  - left. split; [assumption|now apply roundDouble_small].
  - right. split; [assumption|now apply roundDouble_big].
Qed.

(** ** [Armory.readField] *)

(** The end of a length-delimited field: [cursor + Number(len)]. *)
Lemma ld_end_cases (c v : Z) : 0 <= c -> 0 <= v ->
  Num_add (Fin c) (Number v) = PosInf \/
  exists e, Num_add (Fin c) (Number v) = Fin e /\
            ((c + v < two53 /\ e = c + v) \/ (two53 <= c + v /\ two53 <= e)).
Proof.
  intros Hc Hv. unfold Number.
  destruct (toDouble_nonneg v Hv) as [E|(m & E & Hm & Hcase)]; rewrite E; simpl.
  - now left.
  - destruct (toDouble_nonneg (c + m) ltac:(lia)) as [E'|(e & E' & He & Hcase')];
      rewrite E'; [now left|right].
    exists e. split; [reflexivity|]. destruct Hcase as [[? ->]|[? ?]].
    + exact Hcase'.
    + right. destruct Hcase' as [[? ?]|[? ?]]; lia.
Qed.

Lemma ld_end_exact (c v : Z) : 0 <= c -> 0 <= v -> c + v < two53 ->
  Num_add (Fin c) (Number v) = Fin (c + v).
Proof.
  intros Hc Hv H. destruct (ld_end_cases c v Hc Hv) as [E|(e & E & [[_ ->]|[? _]])];
    try lia; [|exact E].
  exfalso. unfold Number, Num_add in E.
  destruct (toDouble_nonneg v Hv) as [E1|(m & E1 & Hm & [[? ->]|[? ?]])]; try lia.
  - unfold toDouble in E1. destruct (v <? 0); [destruct (_ <=? _); discriminate|].
    rewrite roundDouble_small in E1 by lia.
    destruct (Z.leb_spec two1024 v); [|discriminate].
    unfold two53, two1024 in *. 
    assert (2 ^ 53 < 2 ^ 1024) by (apply Z.pow_lt_mono_r; lia). lia.
  - rewrite E1 in E. unfold toDouble in E.
    destruct (c + v <? 0); [destruct (_ <=? _); discriminate|].
    rewrite roundDouble_small in E by lia.
    destruct (Z.leb_spec two1024 (c + v)); [|discriminate].
    unfold two53, two1024 in *. 
    assert (2 ^ 53 < 2 ^ 1024) by (apply Z.pow_lt_mono_r; lia). lia.
Qed.

Lemma adjustOffset_inrange (c L : Z) : 0 <= c <= L -> adjustOffset c L = c.
Proof.
  intros H. unfold adjustOffset.
  destruct (Z.eqb_spec c 0); [lia|].
  destruct (Z.ltb_spec c 0); [lia|].
  destruct (Z.ltb_spec c L); lia.
Qed.

Lemma subarray_inrange (buffer : list byte) (c e : Z) :
  0 <= c <= e -> e <= len buffer ->
  subarray buffer c e = firstn (Z.to_nat (e - c)) (skipn (Z.to_nat c) buffer).
Proof.
  intros H1 H2. unfold subarray.
  rewrite !adjustOffset_inrange by lia.
  destruct (Z.ltb_spec c e); [reflexivity|].
  replace (e - c) with 0 by lia. reflexivity.
Qed.

Lemma subarray_length (buffer : list byte) (c e : Z) :
  0 <= c <= e -> e <= len buffer ->
  len (subarray buffer c e) = e - c.
Proof.
  intros H1 H2. rewrite subarray_inrange by assumption. unfold len in *.
  rewrite length_firstn, length_skipn. lia.
Qed.

Lemma readField_shape (buffer : list byte) (offset : nat) (f : Armory.Field) :
  Armory.readField buffer offset = Ret (Some f) ->
  FieldShape buffer offset f /\
  (exists tag, decodeFrom (skipn offset buffer) 0 0 0 = Some tag /\
     Armory.fieldNumber f = Z.shiftr (ToInt32 (Number (Armory.value tag))) 3 /\
     Armory.wireType f = Z.land (ToInt32 (Number (Armory.value tag))) 7).
Proof.
  unfold Armory.readField. rewrite readVarint_decodeFrom. cbn beta iota zeta delta [bind].
  destruct (decodeFrom (skipn offset buffer) 0 0 0) as [tag|] eqn:Etag; [|discriminate].
  set (wt := Z.land (ToInt32 (Number (Armory.value tag))) 7).
  destruct (Z.eqb_spec wt 0) as [W0|W0].
  { rewrite readVarint_decodeFrom. cbn beta iota zeta delta [bind].
    destruct (decodeFrom (skipn (offset + Armory.bytesRead tag) buffer) 0 0 0) as [v|] eqn:Ev;
      [|discriminate].
    intros H. inversion H; subst f; clear H. split.
    - eapply shape_varint; eauto.
    - exists tag. auto. }
  destruct (Z.eqb_spec wt 2) as [W2|W2].
  { rewrite readVarint_decodeFrom. cbn beta iota zeta delta [bind].
    destruct (decodeFrom (skipn (offset + Armory.bytesRead tag) buffer) 0 0 0) as [l|] eqn:El;
      [|discriminate].
    destruct (Num_add _ _) as [e| | |] eqn:Ee; cbn [Num_gtb].
    - destruct (Z.ltb_spec (len buffer) e) as [Hlt|Hlt]; [discriminate|].
      intros H. inversion H; subst f; clear H. split.
      + eapply shape_bytes; eauto.
      + exists tag. auto.
    - discriminate.
    - discriminate.
    - discriminate. }
  destruct (Z.eqb_spec wt 5) as [W5|W5].
  { destruct (Nat.ltb_spec (length buffer) (offset + Armory.bytesRead tag + 4)) as [Hlt|Hlt]; [discriminate|].
    intros H. inversion H; subst f; clear H. split.
    - eapply shape_fixed with (w := 4%nat); eauto.
    - exists tag. auto. }
  destruct (Z.eqb_spec wt 1) as [W1|W1]; [|discriminate].
  destruct (Nat.ltb_spec (length buffer) (offset + Armory.bytesRead tag + 8)) as [Hlt|Hlt]; [discriminate|].
  intros H. inversion H; subst f; clear H. split.
  - eapply shape_fixed with (w := 8%nat); eauto.
  - exists tag. auto.
Qed.

(** [readField] returns: it neither raises nor runs out of fuel. *)
Lemma readField_returns (buffer : list byte) (offset : nat) :
  exists r, Armory.readField buffer offset = Ret r.
Proof.
  unfold Armory.readField. rewrite readVarint_decodeFrom. cbn beta iota zeta delta [bind].
  destruct (decodeFrom (skipn offset buffer) 0 0 0) as [tag|] eqn:Etag; [|eauto].
  destruct (_ =? 0).
  { rewrite readVarint_decodeFrom. cbn beta iota zeta delta [bind].
    destruct (decodeFrom (skipn (offset + _) buffer) 0 0 0); eauto. }
  destruct (_ =? 2).
  { rewrite readVarint_decodeFrom. cbn beta iota zeta delta [bind].
    destruct (decodeFrom (skipn (offset + Armory.bytesRead tag) buffer) 0 0 0) as [l|] eqn:El;
      [|eauto].
    apply decodeFrom_nonneg in El; [|lia|lia].
    destruct (ld_end_cases (Z.of_nat (offset + Armory.bytesRead tag + Armory.bytesRead l))
                (Armory.value l) ltac:(lia) El) as [E|(e & E & _)]; rewrite E; cbn [Num_gtb].
    - eauto.
    - destruct (_ <? _); eauto. }
  destruct (_ =? 5); [destruct (_ <? _)%nat; eauto|].
  destruct (_ =? 1); [destruct (_ <? _)%nat; eauto|eauto].
Qed.

Lemma readField_wireType (buffer : list byte) (offset : nat) (f : Armory.Field) :
  Armory.readField buffer offset = Ret (Some f) ->
  Armory.wireType f = 0 \/ Armory.wireType f = 1 \/
  Armory.wireType f = 2 \/ Armory.wireType f = 5.
Proof.
  intros H. apply readField_shape in H as [S _].
  destruct S as [? ? _ _ W|? ? ? _ _ W|? ? _ [[W _]|[W _]]]; auto.
Qed.

Lemma readField_nextOffset_le (buffer : list byte) (offset : nat) (f : Armory.Field) :
  Armory.readField buffer offset = Ret (Some f) ->
  (Armory.nextOffset f <= length buffer)%nat.
Proof.
  intros H. apply readField_shape in H as [S _].
  destruct S as [tag v Et Ev _ _ N|tag l e Et El _ _ He _ N|tag w Et _ Hw _ N]; rewrite N.
  - apply decodeFrom_bytesRead in Ev. rewrite length_skipn in Ev.
    apply decodeFrom_bytesRead in Et. rewrite length_skipn in Et. lia.
  - unfold len in He. lia.
  - exact Hw.
Qed.

Lemma readField_progress (buffer : list byte) (offset : nat) (f : Armory.Field) :
  fits buffer ->
  Armory.readField buffer offset = Ret (Some f) ->
  (offset < Armory.nextOffset f)%nat.
Proof.
  intros Hfit H. apply readField_shape in H as [S _].
  destruct S as [tag v Et Ev _ _ N|tag l e Et El _ Ee He _ N|tag w Et _ Hw _ N]; rewrite N.
  - apply decodeFrom_bytesRead in Et. lia.
  - apply decodeFrom_bytesRead in Et.
    apply decodeFrom_nonneg in El; [|lia|lia].
    destruct (ld_end_cases (Z.of_nat (offset + Armory.bytesRead tag + Armory.bytesRead l))
                (Armory.value l) ltac:(lia) El) as [E|(e' & E & Hc)]; rewrite E in Ee;
      [discriminate|].
    inversion Ee; subst e'. unfold fits in Hfit.
    destruct Hc as [[_ ->]|[_ ?]]; lia.
  - apply decodeFrom_bytesRead in Et. lia.
Qed.

(** The slice of a length-delimited field lies after its tag and length
    bytes, inside the parent. *)
Lemma readField_child (buffer : list byte) (offset : nat) (f : Armory.Field) :
  fits buffer ->
  Armory.readField buffer offset = Ret (Some f) ->
  Armory.wireType f = 2 ->
  exists c : nat,
    (offset + 2 <= c <= Armory.nextOffset f)%nat /\
    Armory.fieldValue f =
      Armory.VBuffer (firstn (Armory.nextOffset f - c) (skipn c buffer)).
Proof.
  intros Hfit H W. apply readField_shape in H as [S _].
  destruct S as [tag v Et Ev W' _ N|tag l e Et El _ Ee He V N|tag w Et [[W' _]|[W' _]] Hw _ N];
    try lia.
  pose proof (decodeFrom_bytesRead _ _ _ _ _ Et) as Bt.
  pose proof (decodeFrom_bytesRead _ _ _ _ _ El) as Bl.
  apply decodeFrom_nonneg in El; [|lia|lia].
  destruct (ld_end_cases (Z.of_nat (offset + Armory.bytesRead tag + Armory.bytesRead l))
                (Armory.value l) ltac:(lia) El) as [E|(e' & E & Hc)]; rewrite E in Ee;
    [discriminate|].
  inversion Ee; subst e'. unfold fits in Hfit.
  destruct Hc as [[_ Hc]|[_ ?]]; [|lia].
  exists (offset + Armory.bytesRead tag + Armory.bytesRead l)%nat.
  split; [lia|]. rewrite V, N. f_equal.
  rewrite subarray_inrange by lia. rewrite Nat2Z.id. f_equal. lia.
Qed.

(** ** The scanning loops of [ArmoryManager] *)

(** One iteration of a scanning loop: split on the loop test and on the
    outcome of [readField]. *)
Ltac scan_step buffer offset f E :=
  destruct (Nat.ltb_spec offset (length buffer)) as [?Hin|?Hout];
  [ destruct (readField_returns buffer offset) as [[f|] E]; rewrite E;
    cbn beta iota zeta delta [bind]
  | ].

Lemma fieldsFrom_fuel (f1 f2 : nat) (buffer : list byte) : fits buffer ->
  forall offset,
  (length buffer - offset < f1)%nat -> (length buffer - offset < f2)%nat ->
  fieldsFrom f1 buffer offset = fieldsFrom f2 buffer offset.
Proof.
  intros Hfit. revert f2. induction f1 as [|f1 IH]; intros f2 offset H1 H2; [lia|].
  destruct f2 as [|f2]; [lia|]. simpl.
  scan_step buffer offset f E; try reflexivity.
  f_equal. pose proof (readField_progress _ _ _ Hfit E).
  apply IH; lia.
Qed.

Lemma fieldsFrom_read (fuel : nat) (buffer : list byte) : forall offset f,
  In f (fieldsFrom fuel buffer offset) ->
  exists o, Armory.readField buffer o = Ret (Some f).
Proof.
  induction fuel as [|fuel IH]; intros offset f H; simpl in H; [contradiction|].
  destruct (offset <? length buffer)%nat; [|contradiction].
  destruct (Armory.readField buffer offset) as [[g|]| |] eqn:E; try contradiction.
  destruct H as [<-|H]; eauto.
Qed.

Lemma firstn_skipn_length_le {A} (l : list A) (n c : nat) :
  (length (firstn n (skipn c l)) <= length l - c)%nat.
Proof. rewrite length_firstn, length_skipn. lia. Qed.

Lemma fits_le (b c : list byte) : fits b -> (length c <= length b)%nat -> fits c.
Proof. unfold fits, len. lia. Qed.

(** Each descent works on a strictly smaller slice. *)
Lemma child_smaller (buffer : list byte) (offset : nat) (f : Armory.Field) :
  fits buffer ->
  Armory.readField buffer offset = Ret (Some f) ->
  Armory.wireType f = 2 ->
  (length (Armory.bufferOf (Armory.fieldValue f)) < length buffer)%nat.
Proof.
  intros Hfit E W.
  destruct (readField_child _ _ _ Hfit E W) as (c & Hc & V).
  pose proof (readField_nextOffset_le _ _ _ E) as Hn.
  rewrite V. simpl. pose proof (firstn_skipn_length_le buffer (Armory.nextOffset f - c) c).
  lia.
Qed.

Lemma children_smaller (buffer c : list byte) :
  fits buffer -> In c (children buffer) -> (length c < length buffer)%nat.
Proof.
  intros Hfit H. unfold children, childrenOf in H.
  apply in_map_iff in H as (f & <- & Hf).
  apply filter_In in Hf as [Hf Hc].
  apply fieldsFrom_read in Hf as [o E].
  unfold isChild in Hc. apply andb_prop in Hc as [Hc _]. apply andb_prop in Hc as [W _].
  apply Z.eqb_eq in W. eapply child_smaller; eauto.
Qed.

Lemma firstMatch_ext {A} (ok : option A -> bool) (g g' : list byte -> res (option A))
    (cs : list (list byte)) :
  (forall c, In c cs -> g c = g' c) ->
  firstMatch ok g cs = firstMatch ok g' cs.
Proof.
  induction cs as [|c cs IH]; intros H; simpl; [reflexivity|].
  rewrite (H c) by (now left). destruct (g' c); simpl; try reflexivity.
  destruct (ok a); [reflexivity|]. apply IH. intros; apply H; now right.
Qed.

(** A branch that yields nothing acceptable is as good as absent. *)
Lemma firstMatch_skip {A} (ok : option A -> bool) (g : list byte -> res (option A))
    (cs1 cs2 : list (list byte)) (bad : list byte) (r : option A) :
  g bad = Ret r -> ok r = false ->
  firstMatch ok g (cs1 ++ bad :: cs2) = firstMatch ok g (cs1 ++ cs2).
Proof.
  intros Hb Hr. induction cs1 as [|c cs1 IH]; simpl.
  - rewrite Hb. simpl. now rewrite Hr.
  - destruct (g c); simpl; try reflexivity. destruct (ok a); [reflexivity|exact IH].
Qed.

(** *** [findVarint] *)

Lemma findVarint_loop_fields (fuel : nat) (buffer : list byte) (w : Z) :
  fits buffer -> forall offset, (length buffer - offset < fuel)%nat ->
  Armory.findVarint_loop fuel buffer w offset
  = Ret (firstVarint w (fieldsFrom fuel buffer offset)).
Proof.
  intros Hfit. induction fuel as [|fuel IH]; intros offset Hf; [lia|].
  simpl. scan_step buffer offset f E; try reflexivity.
  unfold firstVarint. simpl. unfold isVarintField at 1.
  destruct (_ && _); [reflexivity|].
  pose proof (readField_progress _ _ _ Hfit E).
  rewrite IH by lia. reflexivity.
Qed.

Lemma findVarint_fields (buffer : list byte) (w : Z) : fits buffer ->
  Armory.findVarint buffer w = Ret (firstVarint w (topFields buffer)).
Proof.
  intros Hfit. unfold Armory.findVarint, topFields.
  now rewrite findVarint_loop_fields by (assumption || lia).
Qed.

(** *** [parseAttribute] and [parseCSOEconItem] return *)

Lemma parseAttribute_loop_returns (fuel : nat) (buffer : list byte) :
  fits buffer -> forall offset attr, (length buffer - offset < fuel)%nat ->
  exists r, Armory.parseAttribute_loop fuel buffer offset attr = Ret r.
Proof.
  intros Hfit. induction fuel as [|fuel IH]; intros offset attr Hf; [lia|].
  simpl. scan_step buffer offset f E; eauto.
  pose proof (readField_progress _ _ _ Hfit E).
  apply IH. lia.
Qed.

Lemma parseAttribute_returns (buffer : list byte) : fits buffer ->
  exists r, Armory.parseAttribute buffer = Ret r.
Proof.
  intros Hfit. unfold Armory.parseAttribute.
  destruct (parseAttribute_loop_returns (S (length buffer)) buffer Hfit 0
              (Armory.mkAttribute None None) ltac:(lia)) as [r ->].
  simpl. eauto.
Qed.

Lemma parseCSOEconItem_loop_returns (fuel : nat) (buffer : list byte) :
  fits buffer -> forall offset item, (length buffer - offset < fuel)%nat ->
  exists r, Armory.parseCSOEconItem_loop fuel buffer offset item = Ret r.
Proof.
  intros Hfit. induction fuel as [|fuel IH]; intros offset item Hf; [lia|].
  simpl. scan_step buffer offset f E; eauto.
  pose proof (readField_progress _ _ _ Hfit E).
  destruct (_ && _ && _) eqn:C.
  - apply andb_prop in C as [C _]. apply andb_prop in C as [_ W]. apply Z.eqb_eq in W.
    pose proof (child_smaller _ _ _ Hfit E W) as Hs.
    destruct (parseAttribute_returns (Armory.bufferOf (Armory.fieldValue f))) as [a ->].
    { eapply fits_le; [exact Hfit|lia]. }
    cbn beta iota zeta delta [bind]. apply IH. lia.
  - apply IH. lia.
Qed.

Lemma parseCSOEconItem_returns (buffer : list byte) : fits buffer ->
  exists r, Armory.parseCSOEconItem buffer = Ret r.
Proof.
  intros Hfit. unfold Armory.parseCSOEconItem.
  destruct (parseCSOEconItem_loop_returns (S (length buffer)) buffer Hfit 0
              (Armory.mkItem None []) ltac:(lia)) as [r ->].
  simpl. eauto.
Qed.

(** *** The two deep searches *)

Lemma childrenOf_cons (f : Armory.Field) (fs : list Armory.Field) :
  childrenOf (f :: fs) =
  if isChild f then Armory.bufferOf (Armory.fieldValue f) :: childrenOf fs
  else childrenOf fs.
Proof. unfold childrenOf. simpl. now destruct (isChild f). Qed.

Lemma findCSOEconItem_loop_children (self : list byte -> res (option Armory.Item))
    (fuel : nat) (buffer : list byte) :
  fits buffer -> forall offset, (length buffer - offset < fuel)%nat ->
  Armory.findCSOEconItem_loop self fuel buffer offset
  = firstMatch Armory.acceptedItem self (childrenOf (fieldsFrom fuel buffer offset)).
Proof.
  intros Hfit. induction fuel as [|fuel IH]; intros offset Hf; [lia|].
  simpl. scan_step buffer offset f E; try reflexivity.
  pose proof (readField_progress _ _ _ Hfit E).
  rewrite childrenOf_cons. unfold isChild.
  destruct (_ && _ && _); simpl.
  - destruct (self _); simpl; try reflexivity.
    destruct (Armory.acceptedItem a); [reflexivity|]. apply IH. lia.
  - apply IH. lia.
Qed.

Lemma findDefIndexDeep_loop_children (self : list byte -> res (option Num))
    (fuel : nat) (buffer : list byte) :
  fits buffer -> forall offset, (length buffer - offset < fuel)%nat ->
  Armory.findDefIndexDeep_loop self fuel buffer offset
  = firstMatch Armory.positive self (childrenOf (fieldsFrom fuel buffer offset)).
Proof.
  intros Hfit. induction fuel as [|fuel IH]; intros offset Hf; [lia|].
  simpl. scan_step buffer offset f E; try reflexivity.
  pose proof (readField_progress _ _ _ Hfit E).
  rewrite childrenOf_cons. unfold isChild.
  destruct (_ && _ && _); simpl.
  - destruct (self _); simpl; try reflexivity.
    destruct (Armory.positive a); [reflexivity|]. apply IH. lia.
  - apply IH. lia.
Qed.

Lemma findCSOEconItem_fuel_step (fuel : nat) (buffer : list byte) : fits buffer ->
  Armory.findCSOEconItem_fuel (S fuel) buffer =
  (direct <- Armory.parseCSOEconItem buffer ;;
   if Armory.acceptedItem direct then Ret direct
   else firstMatch Armory.acceptedItem (Armory.findCSOEconItem_fuel fuel)
          (children buffer)).
Proof.
  intros Hfit. cbn [Armory.findCSOEconItem_fuel].
  destruct (Armory.parseCSOEconItem buffer); cbn [bind]; try reflexivity.
  destruct (Armory.acceptedItem a); [reflexivity|].
  now rewrite findCSOEconItem_loop_children by (assumption || lia).
Qed.

Lemma findDefIndexDeep_fuel_step (fuel : nat) (buffer : list byte) : fits buffer ->
  Armory.findDefIndexDeep_fuel (S fuel) buffer =
  (direct <- Armory.findVarint buffer 4 ;;
   if Armory.positive direct then Ret direct
   else firstMatch Armory.positive (Armory.findDefIndexDeep_fuel fuel)
          (children buffer)).
Proof.
  intros Hfit. cbn [Armory.findDefIndexDeep_fuel].
  destruct (Armory.findVarint buffer 4); cbn [bind]; try reflexivity.
  destruct (Armory.positive a); [reflexivity|].
  now rewrite findDefIndexDeep_loop_children by (assumption || lia).
Qed.

(** Fuel beyond the length of the buffer changes nothing. *)
Lemma findCSOEconItem_fuel_enough (f1 : nat) : forall (f2 : nat) (buffer : list byte),
  fits buffer -> (length buffer < f1)%nat -> (length buffer < f2)%nat ->
  Armory.findCSOEconItem_fuel f1 buffer = Armory.findCSOEconItem_fuel f2 buffer.
Proof.
  induction f1 as [|f1 IH]; intros f2 buffer Hfit H1 H2; [lia|].
  destruct f2 as [|f2]; [lia|].
  rewrite !findCSOEconItem_fuel_step by assumption.
  destruct (Armory.parseCSOEconItem buffer); simpl; try reflexivity.
  destruct (Armory.acceptedItem a); [reflexivity|].
  apply firstMatch_ext. intros c Hc.
  pose proof (children_smaller _ _ Hfit Hc).
  apply IH; [eapply fits_le; [exact Hfit|lia]|lia|lia].
Qed.

Lemma findDefIndexDeep_fuel_enough (f1 : nat) : forall (f2 : nat) (buffer : list byte),
  fits buffer -> (length buffer < f1)%nat -> (length buffer < f2)%nat ->
  Armory.findDefIndexDeep_fuel f1 buffer = Armory.findDefIndexDeep_fuel f2 buffer.
Proof.
  induction f1 as [|f1 IH]; intros f2 buffer Hfit H1 H2; [lia|].
  destruct f2 as [|f2]; [lia|].
  rewrite !findDefIndexDeep_fuel_step by assumption.
  destruct (Armory.findVarint buffer 4); simpl; try reflexivity.
  destruct (Armory.positive a); [reflexivity|].
  apply firstMatch_ext. intros c Hc.
  pose proof (children_smaller _ _ Hfit Hc).
  apply IH; [eapply fits_le; [exact Hfit|lia]|lia|lia].
Qed.

(** The searches as the specification describes them: the direct
    attempt, then the length-delimited fields in order. *)
Lemma findCSOEconItem_unfold (buffer : list byte) : fits buffer ->
  Armory.findCSOEconItem buffer =
  (direct <- Armory.parseCSOEconItem buffer ;;
   if Armory.acceptedItem direct then Ret direct
   else firstMatch Armory.acceptedItem Armory.findCSOEconItem (children buffer)).
Proof.
  intros Hfit. unfold Armory.findCSOEconItem at 1.
  rewrite findCSOEconItem_fuel_step by assumption.
  destruct (Armory.parseCSOEconItem buffer); simpl; try reflexivity.
  destruct (Armory.acceptedItem a); [reflexivity|].
  apply firstMatch_ext. intros c Hc.
  pose proof (children_smaller _ _ Hfit Hc).
  unfold Armory.findCSOEconItem.
  apply findCSOEconItem_fuel_enough; [eapply fits_le; [exact Hfit|lia]|lia|lia].
Qed.

Lemma findDefIndexDeep_unfold (buffer : list byte) : fits buffer ->
  Armory.findDefIndexDeep buffer =
  (let direct := firstVarint 4 (topFields buffer) in
   if Armory.positive direct then Ret direct
   else firstMatch Armory.positive Armory.findDefIndexDeep (children buffer)).
Proof.
  intros Hfit. unfold Armory.findDefIndexDeep at 1.
  rewrite findDefIndexDeep_fuel_step by assumption.
  rewrite findVarint_fields by assumption. cbn beta iota zeta delta [bind].
  destruct (Armory.positive _); [reflexivity|].
  apply firstMatch_ext. intros c Hc.
  pose proof (children_smaller _ _ Hfit Hc).
  unfold Armory.findDefIndexDeep.
  apply findDefIndexDeep_fuel_enough; [eapply fits_le; [exact Hfit|lia]|lia|lia].
Qed.

Lemma firstMatch_returns {A} (ok : option A -> bool) (g : list byte -> res (option A))
    (cs : list (list byte)) :
  (forall c, In c cs -> exists r, g c = Ret r) ->
  exists r, firstMatch ok g cs = Ret r.
Proof.
  induction cs as [|c cs IH]; intros H; simpl; [eauto|].
  destruct (H c) as [r ->]; [now left|]. simpl.
  destruct (ok r); [eauto|]. apply IH. intros; apply H; now right.
Qed.

(** Both searches return on every buffer. *)
Lemma findCSOEconItem_returns (buffer : list byte) : fits buffer ->
  exists r, Armory.findCSOEconItem buffer = Ret r.
Proof.
  remember (length buffer) as n eqn:En. revert buffer En.
  induction n as [n IH] using lt_wf_ind. intros buffer En Hfit.
  rewrite findCSOEconItem_unfold by assumption.
  destruct (parseCSOEconItem_returns buffer Hfit) as [d ->]. simpl.
  destruct (Armory.acceptedItem d); [eauto|].
  apply firstMatch_returns. intros c Hc.
  pose proof (children_smaller _ _ Hfit Hc).
  apply (IH (length c)); [lia|reflexivity|eapply fits_le; [exact Hfit|lia]].
Qed.

Lemma findDefIndexDeep_returns (buffer : list byte) : fits buffer ->
  exists r, Armory.findDefIndexDeep buffer = Ret r.
Proof.
  remember (length buffer) as n eqn:En. revert buffer En.
  induction n as [n IH] using lt_wf_ind. intros buffer En Hfit.
  rewrite findDefIndexDeep_unfold by assumption. cbn zeta.
  destruct (Armory.positive _); [eauto|].
  apply firstMatch_returns. intros c Hc.
  pose proof (children_smaller _ _ Hfit Hc).
  apply (IH (length c)); [lia|reflexivity|eapply fits_le; [exact Hfit|lia]].
Qed.

(** What a search returns was accepted by its own test. *)
Lemma firstMatch_ok {A} (ok : option A -> bool) (g : list byte -> res (option A))
    (cs : list (list byte)) (x : A) :
  firstMatch ok g cs = Ret (Some x) ->
  exists c, In c cs /\ g c = Ret (Some x) /\ ok (Some x) = true.
Proof.
  induction cs as [|c cs IH]; simpl; intros H; [discriminate|].
  destruct (g c) as [r| |] eqn:E; simpl in H; try discriminate.
  destruct (ok r) eqn:O.
  - inversion H; subst. exists c. auto.
  - destruct (IH H) as (c' & ? & ? & ?). exists c'. auto.
Qed.

Lemma findCSOEconItem_loop_accepted (self : list byte -> res (option Armory.Item))
    (fuel : nat) (buffer : list byte) : forall offset it,
  Armory.findCSOEconItem_loop self fuel buffer offset = Ret (Some it) ->
  Armory.accepted it = true.
Proof.
  induction fuel as [|fuel IH]; intros offset it H; simpl in H; [discriminate|].
  destruct (offset <? length buffer)%nat; [|discriminate].
  destruct (Armory.readField buffer offset) as [[f|]| |]; simpl in H; try discriminate.
  destruct (_ && _ && _); [|eauto].
  destruct (self _) as [r| |]; simpl in H; try discriminate.
  destruct (Armory.acceptedItem r) eqn:O; [|eauto].
  inversion H; subst. exact O.
Qed.

Lemma findCSOEconItem_fuel_accepted (fuel : nat) (buffer : list byte) (it : Armory.Item) :
  Armory.findCSOEconItem_fuel fuel buffer = Ret (Some it) ->
  Armory.accepted it = true.
Proof.
  destruct fuel as [|fuel]; cbn [Armory.findCSOEconItem_fuel]; [discriminate|].
  destruct (Armory.parseCSOEconItem buffer) as [d| |]; cbn [bind]; try discriminate.
  destruct (Armory.acceptedItem d) eqn:O.
  - intros H; inversion H; subst. exact O.
  - apply findCSOEconItem_loop_accepted.
Qed.

Lemma findDefIndexDeep_sound (buffer : list byte) : fits buffer ->
  forall v, Armory.findDefIndexDeep buffer = Ret (Some v) ->
  Num_gtb v (Fin 0) = true /\ hasField4 buffer v.
Proof.
  remember (length buffer) as n eqn:En. revert buffer En.
  induction n as [n IH] using lt_wf_ind. intros buffer En Hfit v.
  rewrite findDefIndexDeep_unfold by assumption. cbn zeta.
  destruct (Armory.positive (firstVarint 4 (topFields buffer))) eqn:P.
  - intros H. inversion H as [Hv]. rewrite Hv in P. simpl in P. split; [exact P|].
    unfold firstVarint in Hv.
    destruct (find (isVarintField 4) (topFields buffer)) as [f|] eqn:Ef; [|discriminate].
    simpl in Hv. inversion Hv; subst v. apply find_some in Ef as [Hin Hf].
    now apply field4_here.
  - intros H. apply firstMatch_ok in H as (c & Hc & Hr & Hp).
    pose proof (children_smaller _ _ Hfit Hc).
    destruct (IH (length c) ltac:(lia) c eq_refl) with (v := v) as [Hpos Hhas].
    + eapply fits_le; [exact Hfit|lia].
    + exact Hr.
    + split; [exact Hpos|]. eapply field4_nested; eauto.
Qed.

Lemma findDefIndexDeep_absent (buffer : list byte) : fits buffer ->
  (forall v, ~ hasField4 buffer v) -> Armory.findDefIndexDeep buffer = Ret None.
Proof.
  intros Hfit Hno. destruct (findDefIndexDeep_returns buffer Hfit) as [[v|] E]; [|exact E].
  exfalso. apply (Hno v). now apply findDefIndexDeep_sound.
Qed.

(** A branch that cannot be read from its first byte yields nothing. *)
Lemma unreadable_branch (bad : list byte) :
  Armory.readField bad 0 = Ret None ->
  Armory.findCSOEconItem bad = Ret None /\ Armory.findDefIndexDeep bad = Ret None.
Proof.
  intros E. unfold Armory.findCSOEconItem, Armory.findDefIndexDeep.
  cbn [Armory.findCSOEconItem_fuel Armory.findDefIndexDeep_fuel].
  unfold Armory.parseCSOEconItem, Armory.findVarint.
  cbn [Armory.parseCSOEconItem_loop Armory.findVarint_loop
       Armory.findCSOEconItem_loop Armory.findDefIndexDeep_loop].
  destruct (0 <? length bad)%nat; [rewrite E|]; cbn; auto.
Qed.

(** ** Truncated fields *)

Lemma skipn_firstn_sub {A} (l : list A) (o m : nat) :
  skipn o (firstn m l) = firstn (m - o) (skipn o l).
Proof.
  revert o m. induction l as [|a l IH]; intros o m.
  - now rewrite firstn_nil, !skipn_nil, firstn_nil.
  - destruct o as [|o]; destruct m as [|m]; simpl; try reflexivity.
    apply IH.
Qed.

(** [decodeFrom] on a truncated buffer: unchanged when the varint still
    fits, missing otherwise. *)
Lemma decodeFrom_truncated (buffer : list byte) (o m : nat) (v : Armory.Varint) :
  decodeFrom (skipn o buffer) 0 0 0 = Some v ->
  decodeFrom (skipn o (firstn m buffer)) 0 0 0
  = if (o + Armory.bytesRead v <=? m)%nat then Some v else None.
Proof.
  intros H. rewrite skipn_firstn_sub.
  pose proof (decodeFrom_bytesRead _ _ _ _ _ H) as Hb.
  destruct (Nat.leb_spec (o + Armory.bytesRead v) m).
  - apply decodeFrom_firstn_some; [exact H|lia].
  - eapply decodeFrom_firstn_none; [exact H|lia].
Qed.

Lemma readField_truncated (buffer : list byte) (offset : nat) (f : Armory.Field) :
  Armory.readField buffer offset = Ret (Some f) ->
  forall m, (m < Armory.nextOffset f)%nat ->
  Armory.readField (firstn m buffer) offset = Ret None.
Proof.
  intros H m Hm.
  pose proof (readField_nextOffset_le _ _ _ H) as Hle.
  assert (Hlen : length (firstn m buffer) = m) by (rewrite length_firstn; lia).
  destruct (readField_shape _ _ _ H) as [S (tag' & Et' & _ & W)].
  unfold Armory.readField. rewrite readVarint_decodeFrom.
  destruct S as [tag v Et Ev W0 _ N|tag l e Et El W2 Ee He _ N|tag w Et Wf Hw _ N];
    rewrite Et in Et'; inversion Et'; subst tag'; clear Et';
    rewrite (decodeFrom_truncated _ _ m _ Et);
    (destruct (Nat.leb_spec (offset + Armory.bytesRead tag) m) as [Ht|Ht];
     [|reflexivity]); cbn beta iota zeta delta [bind]; rewrite <- W.
  - rewrite W0. cbn [Z.eqb]. rewrite readVarint_decodeFrom.
    rewrite (decodeFrom_truncated _ _ m _ Ev).
    destruct (Nat.leb_spec (offset + Armory.bytesRead tag + Armory.bytesRead v) m);
      [lia|reflexivity].
  - rewrite W2. cbn [Z.eqb Pos.eqb]. rewrite readVarint_decodeFrom.
    rewrite (decodeFrom_truncated _ _ m _ El).
    destruct (Nat.leb_spec (offset + Armory.bytesRead tag + Armory.bytesRead l) m);
      [|reflexivity].
    cbn beta iota zeta delta [bind]. rewrite Ee. cbn [Num_gtb].
    unfold len. rewrite Hlen.
    destruct (Z.ltb_spec (Z.of_nat m) e); [reflexivity|lia].
  - destruct Wf as [[W5 ->]|[W1 ->]].
    + rewrite W5. cbn [Z.eqb Pos.eqb]. rewrite Hlen.
      destruct (Nat.ltb_spec m (offset + Armory.bytesRead tag + 4)); [reflexivity|lia].
    + rewrite W1. cbn [Z.eqb Pos.eqb]. rewrite Hlen.
      destruct (Nat.ltb_spec m (offset + Armory.bytesRead tag + 8)); [reflexivity|lia].
Qed.

(** ** Reading back an encoded varint field *)

Lemma wrap32_small (z : Z) : - 2 ^ 31 <= z < 2 ^ 31 -> wrap32 z = z.
Proof.
  intros H. unfold wrap32.
  destruct (Z.le_gt_cases 0 z).
  - rewrite Z.mod_small by lia. destruct (Z.leb_spec (2 ^ 31) z); lia.
  - replace (z mod 2 ^ 32) with (z + 2 ^ 32).
    + destruct (Z.leb_spec (2 ^ 31) (z + 2 ^ 32)); lia.
    + apply Z.mod_unique with (q := -1); lia.
Qed.

Lemma Number_small (z : Z) : 0 <= z < two53 -> Number z = Fin z.
Proof.
  intros H. unfold Number, toDouble. destruct (Z.ltb_spec z 0); [lia|].
  rewrite roundDouble_small by lia.
  destruct (Z.leb_spec two1024 z); [|reflexivity].
  unfold two53, two1024 in *.
  assert (2 ^ 53 < 2 ^ 1024) by (apply Z.pow_lt_mono_r; lia). lia.
Qed.

Lemma tag_fieldNumber (fn wt : Z) : 0 <= fn < 2 ^ 28 -> 0 <= wt < 8 ->
  let tag := Z.lor (Z.shiftl fn 3) wt in
  0 <= tag < 2 ^ 31 /\ Z.shiftr tag 3 = fn /\ Z.land tag 7 = wt.
Proof.
  intros Hfn Hwt tag.
  assert (E : tag = fn * 8 + wt).
  { unfold tag. rewrite <- Z.lxor_lor.
    - rewrite <- Z.add_nocarry_lxor; [now rewrite Z.shiftl_mul_pow2 by lia|].
      apply Z.bits_inj'. intros n Hn. rewrite Z.land_spec, Z.bits_0.
      destruct (Z.lt_ge_cases n 3).
      + rewrite Z.shiftl_spec_low by lia. reflexivity.
      + rewrite (Z.bits_above_log2 wt n); [apply andb_false_r|lia|].
        destruct (Z.eq_dec wt 0) as [->|]; [simpl; lia|].
        apply Z.lt_le_trans with 3; [|lia]. apply Z.log2_lt_pow2; simpl; lia.
    - apply Z.bits_inj'. intros n Hn. rewrite Z.land_spec, Z.bits_0.
      destruct (Z.lt_ge_cases n 3).
      + rewrite Z.shiftl_spec_low by lia. reflexivity.
      + rewrite (Z.bits_above_log2 wt n); [apply andb_false_r|lia|].
        destruct (Z.eq_dec wt 0) as [->|]; [simpl; lia|].
        apply Z.lt_le_trans with 3; [|lia]. apply Z.log2_lt_pow2; simpl; lia. }
  rewrite E. repeat split; try lia.
  - rewrite Z.shiftr_div_pow2 by lia. change (2 ^ 3) with 8.
    symmetry. apply Z.div_unique with (r := wt); lia.
  - change 7 with (Z.ones 3). rewrite Z.land_ones by lia. change (2 ^ 3) with 8.
    symmetry. apply Z.mod_unique with (q := fn); lia.
Qed.

Lemma readField_encoded_varint (pre suf : list byte) (fn v : Z) :
  0 <= fn < 2 ^ 28 -> 0 <= v ->
  Armory.readField
    (pre ++ Armory.encodeVarint (mkTag fn 0) ++ Armory.encodeVarint v ++ suf)
    (length pre)
  = Ret (Some (Armory.mkField fn 0 (Armory.VBigInt v)
                 (length pre + length (Armory.encodeVarint (mkTag fn 0))
                  + length (Armory.encodeVarint v)))).
Proof.
  intros Hfn Hv. unfold mkTag. set (tag := Z.lor (Z.shiftl fn 3) 0).
  destruct (tag_fieldNumber fn 0 Hfn ltac:(lia)) as (Ht & Hs & Hl). fold tag in Ht, Hs, Hl.
  unfold Armory.readField.
  rewrite armory_readVarint_encodeVarint by lia. cbn beta iota zeta delta [bind Armory.value Armory.bytesRead].
  rewrite Number_small by (unfold two53; lia). cbn [ToInt32].
  rewrite wrap32_small by lia. rewrite Hl, Hs. cbn [Z.eqb].
  replace (pre ++ Armory.encodeVarint tag ++ Armory.encodeVarint v ++ suf)
    with ((pre ++ Armory.encodeVarint tag) ++ Armory.encodeVarint v ++ suf)
    by (now rewrite <- app_assoc).
  replace (length pre + length (Armory.encodeVarint tag))%nat
    with (length (pre ++ Armory.encodeVarint tag)) by (now rewrite length_app).
  rewrite armory_readVarint_encodeVarint by lia. reflexivity.
Qed.

(** * The balance extractor *)

(** ** More fuel does not change a result *)

Lemma parseType6_loop_mono (fuel : nat) (objectData : list byte) :
  forall offset stars r,
  Session.parseType6_loop fuel objectData offset stars = Ret r ->
  Session.parseType6_loop (S fuel) objectData offset stars = Ret r.
Proof.
  induction fuel as [|fuel IH]; intros offset stars r H; [discriminate|].
  cbn [Session.parseType6_loop] in H.
  remember (S fuel) as n eqn:En. cbn [Session.parseType6_loop]. subst n.
  destruct (offset <? len objectData); [|exact H].
  destruct (Session.readVarint objectData offset) as [[tag|]| |];
    cbn [bind] in H |- *; try exact H.
  destruct (_ =? 0).
  - destruct (Session.readVarint objectData _) as [[v|]| |];
      cbn [bind] in H |- *; try exact H.
    apply IH. exact H.
  - destruct (Session.skipByWireType _ _ _) as [[next|]| |];
      cbn [bind] in H |- *; try exact H.
    apply IH. exact H.
Qed.

Lemma parseType6_mono (fuel : nat) (objectData : list byte) (r : option Z) :
  Session.parseType6ObjectDataForStars fuel objectData = Ret r ->
  Session.parseType6ObjectDataForStars (S fuel) objectData = Ret r.
Proof.
  unfold Session.parseType6ObjectDataForStars.
  destruct (len objectData =? 0); [auto|]. apply parseType6_loop_mono.
Qed.

Lemma findStarsInCache_end_mono (fuel : nat) found obj (r : option Z) :
  Session.findStarsInCache_end fuel found obj = Ret r ->
  Session.findStarsInCache_end (S fuel) found obj = Ret r.
Proof.
  unfold Session.findStarsInCache_end.
  destruct found as [t|]; [|auto]. destruct obj as [d|]; [|auto].
  destruct (t =? 6); [|auto]. apply parseType6_mono.
Qed.

Lemma findStarsInCache_loop_mono (fuel : nat) :
  forall buffer offset found obj r,
  Session.findStarsInCache_loop fuel buffer offset found obj = Ret r ->
  Session.findStarsInCache_loop (S fuel) buffer offset found obj = Ret r.
Proof.
  induction fuel as [|fuel IH]; intros buffer offset found obj r H; [discriminate|].
  cbn [Session.findStarsInCache_loop] in H.
  remember (S fuel) as n eqn:En. cbn [Session.findStarsInCache_loop]. subst n.
  destruct (offset <? len buffer); [|now apply findStarsInCache_end_mono].
  destruct (Session.readVarint buffer offset) as [[tag|]| |];
    cbn [bind] in H |- *; try discriminate; [|now apply findStarsInCache_end_mono].
  destruct (_ =? 0).
  { destruct (Session.readVarint buffer _) as [[v|]| |];
      cbn [bind] in H |- *; try discriminate; [|now apply findStarsInCache_end_mono].
    apply IH. exact H. }
  destruct (_ =? 2).
  { destruct (Session.readVarint buffer _) as [[l|]| |];
      cbn [bind] in H |- *; try discriminate; [|now apply findStarsInCache_end_mono].
    destruct (Session.findStarsInCache_loop fuel _ 0 None None) as [[inner|]| |] eqn:E;
      cbn [bind] in H |- *; try discriminate.
    - rewrite (IH _ _ _ _ _ E). exact H.
    - rewrite (IH _ _ _ _ _ E). cbn [bind]. apply IH. exact H. }
  destruct (Session.skipByWireType _ _ _) as [[next|]| |];
    cbn [bind] in H |- *; try discriminate; [|now apply findStarsInCache_end_mono].
  apply IH. exact H.
Qed.

Lemma findStarsInCache_mono (fuel extra : nat) (buffer : list byte) (r : option Z) :
  Session.findStarsInCache fuel buffer = Ret r ->
  Session.findStarsInCache (extra + fuel) buffer = Ret r.
Proof.
  unfold Session.findStarsInCache. intros H.
  induction extra as [|extra IH]; [exact H|].
  simpl plus. now apply findStarsInCache_loop_mono.
Qed.

(** ** Any balance returned lies in 0..5000 *)

Lemma parseType6_loop_range (fuel : nat) (objectData : list byte) :
  forall offset stars r, inRange stars ->
  Session.parseType6_loop fuel objectData offset stars = Ret r -> inRange r.
Proof.
  induction fuel as [|fuel IH]; intros offset stars r Hs H; [discriminate|].
  cbn [Session.parseType6_loop] in H.
  destruct (offset <? len objectData); [|now inversion H; subst].
  destruct (Session.readVarint objectData offset) as [[tag|]| |];
    cbn [bind] in H; try discriminate; [|now inversion H; subst].
  destruct (_ =? 0).
  - destruct (Session.readVarint objectData _) as [[v|]| |];
      cbn [bind] in H; try discriminate; [|now inversion H; subst].
    eapply IH; [|exact H].
    destruct (_ =? 2); [|exact Hs].
    destruct (Z.leb_spec 0 (Session.value v)); [|exact Hs].
    destruct (Z.leb_spec (Session.value v) 5000); [|exact Hs].
    simpl. lia.
  - destruct (Session.skipByWireType _ _ _) as [[next|]| |];
      cbn [bind] in H; try discriminate; [|now inversion H; subst].
    eapply IH; [exact Hs|exact H].
Qed.

Lemma findStarsInCache_end_range (fuel : nat) found obj (r : option Z) :
  Session.findStarsInCache_end fuel found obj = Ret r -> inRange r.
Proof.
  unfold Session.findStarsInCache_end, Session.parseType6ObjectDataForStars.
  destruct found as [t|]; [|now intros H; inversion H].
  destruct obj as [d|]; [|now intros H; inversion H].
  destruct (t =? 6); [|now intros H; inversion H].
  destruct (len d =? 0); [now intros H; inversion H|].
  apply parseType6_loop_range. exact I.
Qed.

Lemma findStarsInCache_loop_range (fuel : nat) :
  forall buffer offset found obj r,
  Session.findStarsInCache_loop fuel buffer offset found obj = Ret r -> inRange r.
Proof.
  induction fuel as [|fuel IH]; intros buffer offset found obj r H; [discriminate|].
  cbn [Session.findStarsInCache_loop] in H.
  destruct (offset <? len buffer); [|now apply findStarsInCache_end_range in H].
  destruct (Session.readVarint buffer offset) as [[tag|]| |];
    cbn [bind] in H; try discriminate; [|now apply findStarsInCache_end_range in H].
  destruct (_ =? 0).
  { destruct (Session.readVarint buffer _) as [[v|]| |];
      cbn [bind] in H; try discriminate; [|now apply findStarsInCache_end_range in H].
    eapply IH; exact H. }
  destruct (_ =? 2).
  { destruct (Session.readVarint buffer _) as [[l|]| |];
      cbn [bind] in H; try discriminate; [|now apply findStarsInCache_end_range in H].
    destruct (Session.findStarsInCache_loop fuel _ 0 None None) as [[inner|]| |] eqn:E;
      cbn [bind] in H; try discriminate.
    - inversion H; subst. eapply IH; exact E.
    - eapply IH; exact H. }
  destruct (Session.skipByWireType _ _ _) as [[next|]| |];
    cbn [bind] in H; try discriminate; [|now apply findStarsInCache_end_range in H].
  eapply IH; exact H.
Qed.

(** ** A loop that never ends *)

Lemma loopingCache_diverges (fuel : nat) :
  Session.findStarsInCache_loop fuel loopingCache 0 None None = OutOfFuel.
Proof.
  induction fuel as [|fuel IH]; [reflexivity|].
  cbn [Session.findStarsInCache_loop].
  change (0 <? len loopingCache) with true. cbv iota.
  change (Session.readVarint loopingCache 0)
    with (Ret (Some (Session.mkVarint 10 1))).
  cbn [bind Session.value Session.bytesRead].
  change (js_and 10 7 =? 0) with false. change (js_and 10 7 =? 2) with true. cbv iota.
  change (Session.readVarint loopingCache (0 + 1))
    with (Ret (Some (Session.mkVarint (-6) 5))).
  cbn [bind Session.value Session.bytesRead].
  change (0 + 1 + 5 + -6) with 0.
  change (subarray loopingCache (0 + 1 + 5) 0) with (@nil byte).
  destruct fuel as [|fuel']; [reflexivity|].
  change (Session.findStarsInCache_loop (S fuel') [] 0 None None)
    with (@Ret (option Z) None).
  cbn [bind]. change (js_sar 10 3 =? 2) with false. change (js_sar 10 3 =? 3) with false.
  cbv iota. cbn [orb]. exact IH.
Qed.

(** ** [Session.readVarint] *)

Lemma nth_error_skipn_cons {A} (l : list A) : forall (n : nat) (a : A),
  nth_error l n = Some a -> skipn n l = a :: skipn (S n) l.
Proof.
  induction l as [|c l IH]; intros [|n] a E; simpl in *; try discriminate.
  - now inversion E.
  - now apply IH.
Qed.

Lemma session_readVarint_loop_decode (fuel : nat) (buffer : list byte) (offset : Z) :
  forall (r s k : Z), 0 <= offset + k ->
  (length buffer - Z.to_nat (offset + k) < fuel)%nat ->
  Session.readVarint_loop fuel buffer offset r s k
  = Ret (decodeFrom32 (skipn (Z.to_nat (offset + k)) buffer) r s k).
Proof.
  induction fuel as [|fuel IH]; intros r s k Hk Hf; [lia|].
  cbn [Session.readVarint_loop]. unfold len.
  destruct (Z.leb_spec (Z.of_nat (length buffer)) (offset + k)) as [Hle|Hlt].
  - rewrite skipn_all2 by lia. reflexivity.
  - unfold byteAt. destruct (Z.ltb_spec (offset + k) 0); [lia|].
    destruct (nth_error buffer (Z.to_nat (offset + k))) as [b|] eqn:Eb.
    2:{ apply nth_error_None in Eb. lia. }
    rewrite (nth_error_skipn_cons _ _ _ Eb). cbn [option_map orUndefined decodeFrom32].
    destruct (js_and (b2z b) 128 =? 0); [reflexivity|].
    rewrite IH by lia.
    replace (Z.to_nat (offset + (k + 1))) with (S (Z.to_nat (offset + k))) by lia.
    reflexivity.
Qed.

Lemma session_readVarint_decode (buffer : list byte) (offset : nat) :
  Session.readVarint buffer (Z.of_nat offset)
  = Ret (decodeFrom32 (skipn offset buffer) 0 0 0).
Proof.
  unfold Session.readVarint. rewrite session_readVarint_loop_decode by lia.
  rewrite Z.add_0_r, Nat2Z.id. reflexivity.
Qed.

Lemma lor_lt_pow2 (a b k : Z) : 0 < k -> 0 <= a < 2 ^ k -> 0 <= b < 2 ^ k ->
  0 <= Z.lor a b < 2 ^ k.
Proof.
  intros Hk Ha Hb. assert (H0 : 0 <= Z.lor a b) by (apply Z.lor_nonneg; lia).
  split; [exact H0|].
  destruct (Z.eq_dec (Z.lor a b) 0) as [->|Hn]; [lia|].
  apply Z.log2_lt_pow2; [lia|]. rewrite Z.log2_lor by lia.
  assert (La : Z.log2 a < k).
  { destruct (Z.eq_dec a 0) as [->|]; [simpl; lia|]. apply Z.log2_lt_pow2; lia. }
  assert (Lb : Z.log2 b < k).
  { destruct (Z.eq_dec b 0) as [->|]; [simpl; lia|]. apply Z.log2_lt_pow2; lia. }
  lia.
Qed.

Lemma js_and_byte (b m : Z) : 0 <= b < 256 -> 0 <= m < 256 -> js_and b m = Z.land b m.
Proof.
  intros Hb Hm. unfold js_and. now rewrite !wrap32_small by lia.
Qed.

Lemma js_or_small (a b : Z) : 0 <= a < 2 ^ 31 -> 0 <= b < 2 ^ 31 -> js_or a b = Z.lor a b.
Proof.
  intros Ha Hb. unfold js_or. now rewrite !wrap32_small by lia.
Qed.

Lemma js_shl_small (y s : Z) : 0 <= y -> 0 <= s < 32 -> y * 2 ^ s < 2 ^ 31 ->
  js_shl y s = Z.shiftl y s.
Proof.
  intros Hy Hs H. unfold js_shl.
  assert (1 <= 2 ^ s) by (apply Z.pow_le_mono_r with (b := 0); lia).
  rewrite (wrap32_small y) by nia.
  rewrite Z.mod_small by lia. rewrite Z.shiftl_mul_pow2 by lia.
  apply wrap32_small. nia.
Qed.

Lemma decodeFrom32_encodeVarint (x : Z) :
  0 <= x -> forall (suf : list byte) (r s k : Z),
  0 <= s < 32 -> x * 2 ^ s < 2 ^ 31 -> 0 <= r < 2 ^ 31 ->
  decodeFrom32 (Armory.encodeVarint x ++ suf) r s k
  = Some (Session.mkVarint (Z.lor r (Z.shiftl x s))
            (k + len (Armory.encodeVarint x))).
Proof.
  intros Hx. generalize Hx. pattern x.
  apply Z_lt_induction; [clear x Hx|exact Hx].
  intros x IH Hx suf r s k Hs Hxs Hr.
  assert (Hp : 1 <= 2 ^ s) by (apply Z.pow_le_mono_r with (b := 0); lia).
  assert (Hm : 0 <= x mod 128 < 128) by (apply Z.mod_pos_bound; lia).
  assert (Hle : x mod 128 <= x) by (apply Z.mod_le; lia).
  rewrite encodeVarint_eq. destruct (Z.leb_spec 128 x) as [Hge|Hlt].
  - cbn [app decodeFrom32]. rewrite b2z_z2b, land_127, lor_128 by lia.
    rewrite (Z.mod_small (x mod 128 + 128)) by lia.
    rewrite !js_and_byte by lia.
    rewrite land_127, land_128_eqb by lia.
    destruct (Z.ltb_spec (x mod 128 + 128) 128); [lia|].
    assert (E : (x mod 128 + 128) mod 128 = x mod 128).
    { replace (x mod 128 + 128) with (x mod 128 + 1 * 128) by lia.
      rewrite Z_mod_plus_full. apply Z.mod_small; lia. }
    rewrite E.
    assert (Hs7 : 0 <= Z.shiftr x 7 < x).
    { rewrite Z.shiftr_div_pow2 by lia. change (2 ^ 7) with 128. split.
      - apply Z.div_pos; lia.
      - apply Z.div_lt; lia. }
    assert (Hdiv : 128 * Z.shiftr x 7 <= x).
    { rewrite Z.shiftr_div_pow2 by lia. change (2 ^ 7) with 128.
      apply Z.mul_div_le. lia. }
    assert (Hs31 : s + 7 < 31).
    { apply (Z.pow_lt_mono_r_iff 2); [lia|lia|].
      rewrite Z.pow_add_r by lia. change (2 ^ 7) with 128. nia. }
    rewrite js_shl_small by (try lia; nia).
    assert (Hy : 0 <= Z.shiftl (x mod 128) s < 2 ^ 31).
    { rewrite Z.shiftl_mul_pow2 by lia. nia. }
    rewrite js_or_small by lia.
    rewrite IH; try lia.
    + f_equal. f_equal.
      * rewrite <- Z.lor_assoc. f_equal.
        replace (s + 7) with (7 + s) by lia.
        rewrite <- Z.shiftl_shiftl by lia. rewrite <- Z.shiftl_lor.
        now rewrite split7 by lia.
      * unfold len. cbn [length]. lia.
    + rewrite Z.pow_add_r by lia. change (2 ^ 7) with 128. nia.
    + apply lor_lt_pow2; lia.
  - cbn [app decodeFrom32]. rewrite b2z_z2b. rewrite (Z.mod_small x 256) by lia.
    rewrite !js_and_byte by lia.
    rewrite land_127, land_128_eqb by lia.
    destruct (Z.ltb_spec x 128); [|lia].
    rewrite Z.mod_small by lia.
    rewrite js_shl_small by lia.
    assert (Hy : 0 <= Z.shiftl x s < 2 ^ 31).
    { rewrite Z.shiftl_mul_pow2 by lia. nia. }
    rewrite js_or_small by lia. reflexivity.
Qed.

(** Round trip of the 32-bit decoder, for the values it can hold. *)
Lemma session_readVarint_encodeVarint (n : Z) (pre suf : list byte) :
  0 <= n < 2 ^ 31 ->
  Session.readVarint (pre ++ Armory.encodeVarint n ++ suf) (len pre)
  = Ret (Some (Session.mkVarint n (len (Armory.encodeVarint n)))).
Proof.
  intros Hn. unfold len at 1. rewrite session_readVarint_decode, skipn_app_exact.
  rewrite decodeFrom32_encodeVarint by (simpl; lia).
  rewrite Z.shiftl_0_r, Z.lor_0_l. reflexivity.
Qed.

(** The 32-bit [readVarint] returns at every offset, negative ones
    included. *)
Lemma session_readVarint_returns (buffer : list byte) (offset : Z) :
  exists r, Session.readVarint buffer offset = Ret r.
Proof.
  destruct (Z.lt_ge_cases offset 0) as [Hneg|Hpos].
  - unfold Session.readVarint. cbn [Session.readVarint_loop].
    unfold len. destruct (Z.leb_spec (Z.of_nat (length buffer)) (offset + 0)); [lia|].
    unfold byteAt. destruct (Z.ltb_spec (offset + 0) 0); [|lia].
    cbn [orUndefined]. change (js_and 0 128 =? 0) with true. cbv iota. eauto.
  - replace offset with (Z.of_nat (Z.to_nat offset)) by lia.
    rewrite session_readVarint_decode. eauto.
Qed.

(** ** Later occurrences overwrite earlier ones *)

Lemma len_app (a b : list byte) : len (a ++ b) = len a + len b.
Proof. unfold len. rewrite length_app. lia. Qed.

Lemma len_nonneg (a : list byte) : 0 <= len a.
Proof. unfold len. lia. Qed.

Lemma len_encodeVarint_pos (x : Z) : 0 < len (Armory.encodeVarint x).
Proof. unfold len. pose proof (encodeVarint_length_pos x). lia. Qed.

Lemma js_tag (fn wt : Z) : 0 <= fn < 2 ^ 28 -> 0 <= wt < 8 ->
  0 <= mkTag fn wt < 2 ^ 31 /\
  js_sar (mkTag fn wt) 3 = fn /\ js_and (mkTag fn wt) 7 = wt.
Proof.
  intros Hfn Hwt. destruct (tag_fieldNumber fn wt Hfn Hwt) as (Ht & Hs & Hl).
  fold (mkTag fn wt) in Ht, Hs, Hl.
  unfold js_sar, js_and. rewrite !wrap32_small by lia.
  change (3 mod 32) with 3. auto.
Qed.

Lemma parseType6_loop_fields (fs : list (Z * Z)) : Forall wfField fs ->
  forall (pre : list byte) (stars : option Z) (fuel : nat),
  (length fs < fuel)%nat ->
  Session.parseType6_loop fuel (pre ++ encFields fs) (len pre) stars
  = Ret (fold_left starsStep fs stars).
Proof.
  induction 1 as [|[fn v] fs [Hfn Hv] _ IH]; intros pre stars fuel Hf;
    (destruct fuel as [|fuel]; [simpl in Hf; lia|]).
  - cbn [Session.parseType6_loop encFields flat_map].
    rewrite app_nil_r. rewrite Z.ltb_irrefl. reflexivity.
  - cbn [fst snd] in Hfn, Hv.
    destruct (js_tag fn 0 Hfn ltac:(lia)) as (Ht & Hs & Hl).
    pose proof (len_encodeVarint_pos (mkTag fn 0)) as Hp.
    pose proof (len_encodeVarint_pos v) as Hp'.
    pose proof (len_nonneg (encFields fs)) as Hr.
    replace (pre ++ encFields ((fn, v) :: fs))
      with (pre ++ Armory.encodeVarint (mkTag fn 0) ++ Armory.encodeVarint v ++ encFields fs)
      by (cbn [encFields flat_map]; unfold encField; cbn [fst snd];
          now rewrite <- !app_assoc).
    cbn [Session.parseType6_loop].
    destruct (Z.ltb_spec (len pre)
      (len (pre ++ Armory.encodeVarint (mkTag fn 0) ++ Armory.encodeVarint v ++ encFields fs)))
      as [_|Hbad]; [|rewrite !len_app in Hbad; lia].
    rewrite session_readVarint_encodeVarint by lia.
    cbn [bind Session.value Session.bytesRead]. rewrite Hs, Hl. cbn [Z.eqb].
    replace (pre ++ Armory.encodeVarint (mkTag fn 0) ++ Armory.encodeVarint v ++ encFields fs)
      with ((pre ++ Armory.encodeVarint (mkTag fn 0)) ++ Armory.encodeVarint v ++ encFields fs)
      by (now rewrite <- app_assoc).
    rewrite <- len_app.
    rewrite session_readVarint_encodeVarint by lia.
    cbn [bind Session.value Session.bytesRead]. rewrite <- len_app.
    replace ((pre ++ Armory.encodeVarint (mkTag fn 0)) ++ Armory.encodeVarint v ++ encFields fs)
      with (((pre ++ Armory.encodeVarint (mkTag fn 0)) ++ Armory.encodeVarint v) ++ encFields fs)
      by (now rewrite <- !app_assoc).
    rewrite IH by (simpl in Hf; lia).
    cbn [fold_left]. do 2 f_equal. unfold starsStep. cbn [fst snd].
    destruct (fn =? 2); cbn [andb]; [|reflexivity].
    destruct (0 <=? v); cbn [andb]; reflexivity.
Qed.

Lemma len_encField_pos (f : Z * Z) : 0 < len (encField f).
Proof.
  unfold encField. rewrite len_app.
  pose proof (len_encodeVarint_pos (mkTag (fst f) 0)).
  pose proof (len_encodeVarint_pos (snd f)). lia.
Qed.

Lemma encFields_nil_iff (fs : list (Z * Z)) : len (encFields fs) = 0 -> fs = [].
Proof.
  destruct fs as [|f fs]; [reflexivity|]. cbn [encFields flat_map].
  rewrite len_app. pose proof (len_encField_pos f).
  pose proof (len_nonneg (flat_map encField fs)).
  intros E. exfalso. lia.
Qed.

Lemma parseType6_fields (fs : list (Z * Z)) (fuel : nat) : Forall wfField fs ->
  (length fs < fuel)%nat ->
  Session.parseType6ObjectDataForStars fuel (encFields fs)
  = Ret (fold_left starsStep fs None).
Proof.
  intros Hwf Hf. unfold Session.parseType6ObjectDataForStars.
  destruct (Z.eqb_spec (len (encFields fs)) 0) as [E|E].
  - apply encFields_nil_iff in E. subst. reflexivity.
  - apply (parseType6_loop_fields fs Hwf [] None fuel Hf).
Qed.

Lemma starsStep_keeps (fs : list (Z * Z)) (stars : option Z) :
  Forall (fun f => (fst f =? 2) && (0 <=? snd f) && (snd f <=? 5000) = false) fs ->
  fold_left starsStep fs stars = stars.
Proof.
  revert stars. induction fs as [|f fs IH]; intros stars H; [reflexivity|].
  inversion H as [|? ? Hf Hfs]; subst. cbn [fold_left]. unfold starsStep at 2.
  rewrite Hf. now apply IH.
Qed.

Lemma firstn_app_exact {A} (p r : list A) : firstn (length p) (p ++ r) = p.
Proof. induction p; simpl; [reflexivity|now f_equal]. Qed.

Lemma subarray_middle (a p r : list byte) :
  subarray (a ++ p ++ r) (len a) (len a + len p) = p.
Proof.
  pose proof (len_nonneg a). pose proof (len_nonneg p). pose proof (len_nonneg r).
  rewrite subarray_inrange by (rewrite ?len_app; lia).
  replace (len a + len p - len a) with (len p) by lia.
  unfold len. rewrite !Nat2Z.id, skipn_app_exact. apply firstn_app_exact.
Qed.

Lemma findStarsInCache_loop_more (extra fuel : nat) buffer offset found obj r :
  Session.findStarsInCache_loop fuel buffer offset found obj = Ret r ->
  Session.findStarsInCache_loop (extra + fuel) buffer offset found obj = Ret r.
Proof.
  intros H. induction extra as [|extra IH]; [exact H|].
  simpl plus. now apply findStarsInCache_loop_mono.
Qed.

Lemma findStarsInCache_loop_payloads (ps : list (Z * list byte)) (fuel : nat) :
  Forall wfPayload ps ->
  (forall p, In p ps -> Session.findStarsInCache fuel (snd p) = Ret None) ->
  forall (pre : list byte) (found : option Z) (obj : option (list byte)),
  Session.findStarsInCache_loop (length ps + S fuel)
    (pre ++ encBytesFields ps) (len pre) found obj
  = Session.findStarsInCache_end fuel found (lastPayload ps obj).
Proof.
  induction 1 as [|[fn p] ps [Hfn Hp] _ IH]; intros Hin pre found obj.
  - cbn [length plus Session.findStarsInCache_loop encBytesFields flat_map].
    rewrite app_nil_r, Z.ltb_irrefl. reflexivity.
  - cbn [fst snd] in Hfn, Hp.
    assert (Hfn' : 0 <= fn < 2 ^ 28) by (destruct Hfn; subst; simpl; lia).
    destruct (js_tag fn 2 Hfn' ltac:(lia)) as (Ht & Hs & Hl).
    pose proof (len_nonneg p) as Hp3.
    pose proof (len_nonneg (encBytesFields ps)) as Hr.
    set (tagB := Armory.encodeVarint (mkTag fn 2)).
    set (lenB := Armory.encodeVarint (len p)).
    assert (Hp1 : 0 < len tagB) by apply len_encodeVarint_pos.
    assert (Hp2 : 0 < len lenB) by apply len_encodeVarint_pos.
    replace (pre ++ encBytesFields ((fn, p) :: ps))
      with (pre ++ tagB ++ lenB ++ p ++ encBytesFields ps)
      by (cbn [encBytesFields flat_map]; unfold encBytes; cbn [fst snd];
          now rewrite <- !app_assoc).
    cbn [length plus]. cbn [Session.findStarsInCache_loop].
    destruct (Z.ltb_spec (len pre) (len (pre ++ tagB ++ lenB ++ p ++ encBytesFields ps)))
      as [_|Hbad]; [|rewrite !len_app in Hbad; lia].
    unfold tagB at 1. rewrite session_readVarint_encodeVarint by lia.
    cbn [bind Session.value Session.bytesRead]. rewrite Hs, Hl. cbn [Z.eqb Pos.eqb].
    fold tagB.
    replace (pre ++ tagB ++ lenB ++ p ++ encBytesFields ps)
      with ((pre ++ tagB) ++ lenB ++ p ++ encBytesFields ps)
      by (now rewrite <- app_assoc).
    rewrite <- len_app.
    unfold lenB at 1. rewrite session_readVarint_encodeVarint by lia.
    cbn [bind Session.value Session.bytesRead]. fold lenB. rewrite <- len_app.
    replace ((pre ++ tagB) ++ lenB ++ p ++ encBytesFields ps)
      with (((pre ++ tagB) ++ lenB) ++ p ++ encBytesFields ps)
      by (now rewrite <- !app_assoc).
    rewrite subarray_middle.
    assert (Hinner : Session.findStarsInCache_loop (length ps + S fuel) p 0 None None
                     = Ret None).
    { replace (length ps + S fuel)%nat with ((length ps + 1) + fuel)%nat by lia.
      apply findStarsInCache_loop_more. apply (Hin (fn, p)). now left. }
    rewrite Hinner. cbn [bind].
    rewrite <- len_app.
    replace (((pre ++ tagB) ++ lenB) ++ p ++ encBytesFields ps)
      with ((((pre ++ tagB) ++ lenB) ++ p) ++ encBytesFields ps)
      by (now rewrite <- !app_assoc).
    rewrite IH by (intros q Hq; apply Hin; now right).
    cbn [lastPayload fold_left snd].
    destruct Hfn as [-> | ->]; reflexivity.
Qed.

Lemma findStarsInCache_payloads (ps : list (Z * list byte)) (fuel : nat) :
  Forall wfPayload ps ->
  (forall p, In p ps -> Session.findStarsInCache fuel (snd p) = Ret None) ->
  Session.findStarsInCache (S (length ps + S fuel))
    (encField (1, 6) ++ encBytesFields ps)
  = Session.findStarsInCache_end fuel (Some 6) (lastPayload ps None).
Proof.
  intros Hwf Hin. unfold Session.findStarsInCache.
  destruct (js_tag 1 0 ltac:(lia) ltac:(lia)) as (Ht & Hs & Hl).
  pose proof (len_nonneg (encBytesFields ps)) as Hr.
  set (tagB := Armory.encodeVarint (mkTag 1 0)).
  set (valB := Armory.encodeVarint 6).
  assert (Hp1 : 0 < len tagB) by apply len_encodeVarint_pos.
  assert (Hp2 : 0 < len valB) by apply len_encodeVarint_pos.
  replace (encField (1, 6) ++ encBytesFields ps)
    with ([] ++ tagB ++ valB ++ encBytesFields ps)
    by (unfold encField; cbn [fst snd app]; now rewrite <- app_assoc).
  change 0 with (len []) at 1.
  cbn [Session.findStarsInCache_loop].
  destruct (Z.ltb_spec (len []) (len ([] ++ tagB ++ valB ++ encBytesFields ps)))
    as [_|Hbad]; [|rewrite !len_app in Hbad; change (len []) with 0 in Hbad; lia].
  unfold tagB at 1. rewrite session_readVarint_encodeVarint by lia.
  cbn [bind Session.value Session.bytesRead]. rewrite Hs, Hl. cbn [Z.eqb Pos.eqb].
  fold tagB.
  replace ([] ++ tagB ++ valB ++ encBytesFields ps)
    with (([] ++ tagB) ++ valB ++ encBytesFields ps)
    by (now rewrite <- app_assoc).
  rewrite <- len_app.
  unfold valB at 1. rewrite session_readVarint_encodeVarint by lia.
  cbn [bind Session.value Session.bytesRead]. fold valB. rewrite <- len_app.
  replace (([] ++ tagB) ++ valB ++ encBytesFields ps)
    with ((([] ++ tagB) ++ valB) ++ encBytesFields ps)
    by (now rewrite <- !app_assoc).
  now apply findStarsInCache_loop_payloads.
Qed.

(** [findStarsInCache] over varint fields: only field 1 is looked at. *)
Lemma findStarsInCache_loop_fields (fs : list (Z * Z)) : Forall wfField fs ->
  forall (pre : list byte) (found : option Z) (obj : option (list byte)) (fuel : nat),
  Session.findStarsInCache_loop (length fs + S fuel) (pre ++ encFields fs) (len pre)
    found obj
  = Session.findStarsInCache_end fuel (fold_left typeStep fs found) obj.
Proof.
  induction 1 as [|[fn v] fs [Hfn Hv] _ IH]; intros pre found obj fuel.
  - cbn [length plus Session.findStarsInCache_loop encFields flat_map].
    rewrite app_nil_r, Z.ltb_irrefl. reflexivity.
  - cbn [fst snd] in Hfn, Hv.
    destruct (js_tag fn 0 Hfn ltac:(lia)) as (Ht & Hs & Hl).
    pose proof (len_nonneg (encFields fs)) as Hr.
    set (tagB := Armory.encodeVarint (mkTag fn 0)).
    set (valB := Armory.encodeVarint v).
    assert (Hp1 : 0 < len tagB) by apply len_encodeVarint_pos.
    assert (Hp2 : 0 < len valB) by apply len_encodeVarint_pos.
    replace (pre ++ encFields ((fn, v) :: fs))
      with (pre ++ tagB ++ valB ++ encFields fs)
      by (cbn [encFields flat_map]; unfold encField; cbn [fst snd];
          now rewrite <- !app_assoc).
    cbn [length plus]. cbn [Session.findStarsInCache_loop].
    destruct (Z.ltb_spec (len pre) (len (pre ++ tagB ++ valB ++ encFields fs)))
      as [_|Hbad]; [|rewrite !len_app in Hbad; lia].
    unfold tagB at 1. rewrite session_readVarint_encodeVarint by lia.
    cbn [bind Session.value Session.bytesRead]. rewrite Hs, Hl. cbn [Z.eqb].
    fold tagB.
    replace (pre ++ tagB ++ valB ++ encFields fs)
      with ((pre ++ tagB) ++ valB ++ encFields fs) by (now rewrite <- app_assoc).
    rewrite <- len_app.
    unfold valB at 1. rewrite session_readVarint_encodeVarint by lia.
    cbn [bind Session.value Session.bytesRead]. fold valB. rewrite <- len_app.
    replace ((pre ++ tagB) ++ valB ++ encFields fs)
      with (((pre ++ tagB) ++ valB) ++ encFields fs) by (now rewrite <- !app_assoc).
    rewrite IH. reflexivity.
Qed.

(** A payload made of varint fields has no balance deeper down. *)
Lemma findStarsInCache_varint_payload (fs : list (Z * Z)) (fuel : nat) :
  Forall wfField fs -> Forall (fun f => fst f <> 1) fs ->
  Session.findStarsInCache (length fs + S fuel) (encFields fs) = Ret None.
Proof.
  intros Hwf Hno. unfold Session.findStarsInCache.
  change (Session.findStarsInCache_loop (length fs + S fuel) (encFields fs) 0 None None)
    with (Session.findStarsInCache_loop (length fs + S fuel) ([] ++ encFields fs)
            (len []) None None).
  rewrite (findStarsInCache_loop_fields fs Hwf [] None None fuel).
  assert (E : fold_left typeStep fs None = None).
  { clear Hwf. induction Hno as [|f fs Hf _ IH]; [reflexivity|].
    cbn [fold_left]. unfold typeStep at 2.
    destruct (Z.eqb_spec (fst f) 1); [contradiction|exact IH]. }
  rewrite E. reflexivity.
Qed.

(** Discriminator 6 and a payload field 2 = [v]. *)
Lemma findStarsInCache_single (v : Z) (extra : nat) : 0 <= v < 2 ^ 31 ->
  Session.findStarsInCache (extra + 5)
    (encField (1, 6) ++ encBytes (2, encField (2, v)))
  = Ret (if v <=? 5000 then Some v else None).
Proof.
  intros Hv.
  assert (Hwf : Forall wfField [(2, v)]).
  { constructor; [|constructor]. split; cbn [fst snd]; lia. }
  assert (Hlen : len (encFields [(2, v)]) < 2 ^ 31).
  { cbn [encFields flat_map]. rewrite app_nil_r. unfold encField. cbn [fst snd].
    rewrite len_app. change (len (Armory.encodeVarint (mkTag 2 0))) with 1.
    assert (len (Armory.encodeVarint v) <= 5); [|lia].
    unfold len.
    assert (forall k x, 0 <= x < 2 ^ (7 * Z.of_nat (S k)) ->
              (length (Armory.encodeVarint x) <= S k)%nat) as B.
    { induction k as [|k IHk]; intros x Hx; rewrite encodeVarint_eq.
      - destruct (Z.leb_spec 128 x); [simpl in Hx; lia|simpl; lia].
      - destruct (Z.leb_spec 128 x); [|simpl; lia].
        cbn [length]. apply le_n_S. apply IHk. split.
        + apply Z.shiftr_nonneg. lia.
        + apply shiftr7_lt; [lia|].
          replace (7 * Z.of_nat (S k) + 7) with (7 * Z.of_nat (S (S k))) by lia. lia. }
    specialize (B 4%nat v). 
    assert (2 ^ 31 < 2 ^ (7 * Z.of_nat 5)) by (simpl; lia).
    assert (length (Armory.encodeVarint v) <= 5)%nat by (apply B; lia). lia. }
  apply findStarsInCache_mono.
  replace (encBytes (2, encField (2, v))) with (encBytesFields [(2, encFields [(2, v)])])
    by (cbn [encBytesFields encFields flat_map]; now rewrite !app_nil_r).
  transitivity (Session.findStarsInCache_end 2 (Some 6)
                  (lastPayload [(2, encFields [(2, v)])] None)).
  - apply (findStarsInCache_payloads [(2, encFields [(2, v)])] 2).
    + constructor; [|constructor]. split; cbn [fst snd]; [now left|exact Hlen].
    + intros p [<-|[]]. cbn [snd].
      apply (findStarsInCache_varint_payload [(2, v)] 0 Hwf).
      constructor; [cbn; lia|constructor].
  - cbn [lastPayload fold_left snd Session.findStarsInCache_end]. cbn [Z.eqb Pos.eqb].
    rewrite parseType6_fields by (assumption || (simpl; lia)).
    cbn [fold_left]. unfold starsStep. cbn [fst snd Z.eqb Pos.eqb andb].
    destruct (Z.leb_spec 0 v); [|lia]. reflexivity.
Qed.

(** ** The 32-bit reader on any encoded value *)

Lemma continuation_set (x : Z) : 0 <= x ->
  (js_and (b2z (z2b (Z.lor (Z.land x 127) 128))) 128 =? 0) = false.
Proof.
  intros Hx.
  assert (Hm : 0 <= x mod 128 < 128) by (apply Z.mod_pos_bound; lia).
  rewrite b2z_z2b, land_127, lor_128 by lia.
  rewrite (Z.mod_small (x mod 128 + 128)) by lia.
  rewrite js_and_byte by lia. rewrite land_128_eqb by lia.
  apply Z.ltb_ge. lia.
Qed.

Lemma continuation_clear (x : Z) : 0 <= x < 128 ->
  (js_and (b2z (z2b x)) 128 =? 0) = true.
Proof.
  intros Hx. rewrite b2z_z2b, (Z.mod_small x 256) by lia.
  rewrite js_and_byte by lia. rewrite land_128_eqb by lia.
  apply Z.ltb_lt. lia.
Qed.

(** The encoding of [x] is read to its end and no further, whatever the
    accumulators and whatever follows. *)
Lemma decodeFrom32_encodeVarint_any (x : Z) :
  0 <= x -> forall (suf : list byte) (r s k : Z),
  exists w,
    decodeFrom32 (Armory.encodeVarint x ++ suf) r s k
    = Some (Session.mkVarint w (k + len (Armory.encodeVarint x))) /\
    decodeFrom32 (Armory.encodeVarint x) r s k
    = Some (Session.mkVarint w (k + len (Armory.encodeVarint x))).
Proof.
  intros Hx. generalize Hx. pattern x.
  apply Z_lt_induction; [clear x Hx|exact Hx].
  intros x IH Hx suf r s k.
  rewrite encodeVarint_eq. destruct (Z.leb_spec 128 x) as [Hge|Hlt].
  - assert (Hs7 : 0 <= Z.shiftr x 7 < x).
    { rewrite Z.shiftr_div_pow2 by lia. change (2 ^ 7) with 128. split.
      - apply Z.div_pos; lia.
      - apply Z.div_lt; lia. }
    cbn [app decodeFrom32]. rewrite continuation_set by lia.
    destruct (IH (Z.shiftr x 7) Hs7 ltac:(lia) suf
                (js_or r (js_shl (js_and (b2z (z2b (Z.lor (Z.land x 127) 128))) 127) s))
                (s + 7) (k + 1)) as (w & E1 & E2).
    exists w. rewrite E1, E2. unfold len. cbn [length].
    split; do 2 f_equal; lia.
  - cbn [app decodeFrom32]. rewrite continuation_clear by lia.
    eexists. split; reflexivity.
Qed.

Lemma session_readVarint_encodeVarint_any (n : Z) (pre suf : list byte) :
  0 <= n ->
  Session.readVarint (pre ++ Armory.encodeVarint n ++ suf) (len pre)
  = Ret (Some (Session.mkVarint (int32Varint n) (len (Armory.encodeVarint n)))).
Proof.
  intros Hn. unfold len at 1. rewrite session_readVarint_decode, skipn_app_exact.
  destruct (decodeFrom32_encodeVarint_any n Hn suf 0 0 0) as (w & E1 & E2).
  rewrite E1. unfold int32Varint. rewrite E2. reflexivity.
Qed.

Lemma int32Varint_small (n : Z) : 0 <= n < 2 ^ 31 -> int32Varint n = n.
Proof.
  intros Hn. unfold int32Varint.
  pose proof (decodeFrom32_encodeVarint n ltac:(lia) [] 0 0 0
                ltac:(lia) ltac:(simpl; lia) ltac:(lia)) as E.
  rewrite app_nil_r in E. rewrite E. cbn [Session.value].
  now rewrite Z.shiftl_0_r, Z.lor_0_l.
Qed.

(** ** The balance extractor on any fields *)

Lemma len_encWire_pos (w : WireField) : 0 < len (encWire w).
Proof.
  unfold encWire. rewrite len_app.
  pose proof (len_encodeVarint_pos (mkTag (wireNumber w) (wireTypeOf w))).
  pose proof (len_nonneg (wireBody w)). lia.
Qed.

Lemma encStream_nil_iff (ws : list WireField) : len (encStream ws) = 0 -> ws = [].
Proof.
  destruct ws as [|w ws]; [reflexivity|]. cbn [encStream flat_map].
  rewrite len_app. pose proof (len_encWire_pos w).
  pose proof (len_nonneg (flat_map encWire ws)). intros E. exfalso. lia.
Qed.

(** One step of a loop of SessionManager.js: the tag of a field. *)
Lemma session_tag (pre rest : list byte) (fn wt : Z) :
  0 <= fn < 2 ^ 28 -> 0 <= wt < 8 ->
  Session.readVarint (pre ++ Armory.encodeVarint (mkTag fn wt) ++ rest) (len pre)
  = Ret (Some (Session.mkVarint (mkTag fn wt) (len (Armory.encodeVarint (mkTag fn wt)))))
  /\ js_sar (mkTag fn wt) 3 = fn /\ js_and (mkTag fn wt) 7 = wt.
Proof.
  intros Hfn Hwt. destruct (js_tag fn wt Hfn Hwt) as (Ht & Hs & Hl).
  split; [apply session_readVarint_encodeVarint; lia|auto].
Qed.

Lemma wfWire32_wireType (w : WireField) : 0 <= wireTypeOf w < 8.
Proof. destruct w; simpl; lia. Qed.

Lemma parseType6_loop_stream (ws : list WireField) : Forall wfWire32 ws ->
  forall (pre : list byte) (stars : option Z) (fuel : nat),
  (length ws < fuel)%nat ->
  Session.parseType6_loop fuel (pre ++ encStream ws) (len pre) stars
  = Ret (fold_left starsStepW ws stars).
Proof.
  induction 1 as [|w ws [Hfn Hw] _ IH]; intros pre stars fuel Hf;
    (destruct fuel as [|fuel]; [simpl in Hf; lia|]).
  - cbn [Session.parseType6_loop encStream flat_map].
    rewrite app_nil_r. rewrite Z.ltb_irrefl. reflexivity.
  - pose proof (wfWire32_wireType w) as Hwt.
    set (tagB := Armory.encodeVarint (mkTag (wireNumber w) (wireTypeOf w))).
    assert (Hp : 0 < len tagB) by apply len_encodeVarint_pos.
    pose proof (len_nonneg (wireBody w)) as Hb.
    pose proof (len_nonneg (encStream ws)) as Hr.
    assert (E : pre ++ encStream (w :: ws) = pre ++ tagB ++ wireBody w ++ encStream ws).
    { cbn [encStream flat_map]. unfold encWire. fold tagB.
      now rewrite <- !app_assoc. }
    rewrite E. cbn [Session.parseType6_loop].
    destruct (Z.ltb_spec (len pre) (len (pre ++ tagB ++ wireBody w ++ encStream ws)))
      as [_|Hbad]; [|rewrite !len_app in Hbad; lia].
    destruct (session_tag pre (wireBody w ++ encStream ws) _ _ Hfn Hwt) as (Hr1 & Hs & Hl).
    fold tagB in Hr1. rewrite Hr1.
    cbn [bind Session.value Session.bytesRead]. rewrite Hs, Hl.
    assert (Enext : forall body,
              ((pre ++ tagB) ++ body) ++ encStream ws
              = pre ++ tagB ++ body ++ encStream ws)
      by (intros; now rewrite <- !app_assoc).
    cbn [length] in Hf.
    destruct w as [fn v|fn p|fn b|fn b];
      cbn [wireTypeOf wireBody wireNumber] in *; cbn [Z.eqb Pos.eqb fold_left starsStepW].
    + replace (pre ++ tagB ++ Armory.encodeVarint v ++ encStream ws)
        with ((pre ++ tagB) ++ Armory.encodeVarint v ++ encStream ws)
        by (now rewrite <- app_assoc).
      rewrite <- len_app. rewrite session_readVarint_encodeVarint_any by lia.
      cbn [bind Session.value Session.bytesRead]. rewrite <- len_app.
      replace ((pre ++ tagB) ++ Armory.encodeVarint v ++ encStream ws)
        with (((pre ++ tagB) ++ Armory.encodeVarint v) ++ encStream ws)
        by (now rewrite <- !app_assoc).
      rewrite IH by lia.
      do 2 f_equal. unfold starsStep. cbn [fst snd].
      destruct (fn =? 2); cbn [andb]; [|reflexivity].
      destruct (0 <=? int32Varint v); cbn [andb]; reflexivity.
    + unfold Session.skipByWireType. cbn [Z.eqb Pos.eqb].
      pose proof (len_nonneg p) as Hp0.
      replace (pre ++ tagB ++ (Armory.encodeVarint (len p) ++ p) ++ encStream ws)
        with ((pre ++ tagB) ++ Armory.encodeVarint (len p) ++ (p ++ encStream ws))
        by (now rewrite <- !app_assoc).
      rewrite <- len_app. rewrite session_readVarint_encodeVarint by lia.
      cbn [bind Session.value Session.bytesRead].
      rewrite <- !len_app.
      replace ((pre ++ tagB) ++ Armory.encodeVarint (len p) ++ p ++ encStream ws)
        with ((((pre ++ tagB) ++ Armory.encodeVarint (len p)) ++ p) ++ encStream ws)
        by (now rewrite <- !app_assoc).
      rewrite IH by lia. reflexivity.
    + unfold Session.skipByWireType. cbn [Z.eqb Pos.eqb bind].
      replace (len pre + len tagB + 4) with (len ((pre ++ tagB) ++ b))
        by (rewrite !len_app; unfold len at 3; rewrite Hw; reflexivity).
      rewrite <- (Enext b). rewrite IH by lia. reflexivity.
    + unfold Session.skipByWireType. cbn [Z.eqb Pos.eqb bind].
      replace (len pre + len tagB + 8) with (len ((pre ++ tagB) ++ b))
        by (rewrite !len_app; unfold len at 3; rewrite Hw; reflexivity).
      rewrite <- (Enext b). rewrite IH by lia. reflexivity.
Qed.

Lemma parseType6_stream (ws : list WireField) (fuel : nat) : Forall wfWire32 ws ->
  (length ws < fuel)%nat ->
  Session.parseType6ObjectDataForStars fuel (encStream ws)
  = Ret (fold_left starsStepW ws None).
Proof.
  intros Hwf Hf. unfold Session.parseType6ObjectDataForStars.
  destruct (Z.eqb_spec (len (encStream ws)) 0) as [E|E].
  - apply encStream_nil_iff in E. subst. reflexivity.
  - apply (parseType6_loop_stream ws Hwf [] None fuel Hf).
Qed.

Lemma findStarsInCache_loop_stream (ws : list WireField) (fuel : nat) :
  Forall wfWire32 ws ->
  (forall p, In p (payloadsOf ws) -> Session.findStarsInCache fuel p = Ret None) ->
  forall (pre : list byte) (found : option Z) (obj : option (list byte)),
  Session.findStarsInCache_loop (length ws + S fuel)
    (pre ++ encStream ws) (len pre) found obj
  = Session.findStarsInCache_end fuel
      (fold_left typeStepW ws found) (fold_left objectStepW ws obj).
Proof.
  induction 1 as [|w ws [Hfn Hw] _ IH]; intros Hin pre found obj.
  - cbn [length plus Session.findStarsInCache_loop encStream flat_map].
    rewrite app_nil_r, Z.ltb_irrefl. reflexivity.
  - pose proof (wfWire32_wireType w) as Hwt.
    set (tagB := Armory.encodeVarint (mkTag (wireNumber w) (wireTypeOf w))).
    assert (Hp : 0 < len tagB) by apply len_encodeVarint_pos.
    pose proof (len_nonneg (wireBody w)) as Hb.
    pose proof (len_nonneg (encStream ws)) as Hr.
    assert (E : pre ++ encStream (w :: ws) = pre ++ tagB ++ wireBody w ++ encStream ws).
    { cbn [encStream flat_map]. unfold encWire. fold tagB.
      now rewrite <- !app_assoc. }
    rewrite E. cbn [length plus]. cbn [Session.findStarsInCache_loop].
    destruct (Z.ltb_spec (len pre) (len (pre ++ tagB ++ wireBody w ++ encStream ws)))
      as [_|Hbad]; [|rewrite !len_app in Hbad; lia].
    destruct (session_tag pre (wireBody w ++ encStream ws) _ _ Hfn Hwt) as (Hr1 & Hs & Hl).
    fold tagB in Hr1. rewrite Hr1.
    cbn [bind Session.value Session.bytesRead]. rewrite Hs, Hl.
    assert (Enext : forall body,
              ((pre ++ tagB) ++ body) ++ encStream ws
              = pre ++ tagB ++ body ++ encStream ws)
      by (intros; now rewrite <- !app_assoc).
    assert (Hrest : forall p, In p (payloadsOf ws) ->
              Session.findStarsInCache fuel p = Ret None).
    { intros p Hp'. apply Hin. cbn [payloadsOf flat_map]. apply in_or_app. now right. }
    destruct w as [fn v|fn p|fn b|fn b];
      cbn [wireTypeOf wireBody wireNumber] in *;
      cbn [Z.eqb Pos.eqb fold_left typeStepW objectStepW].
    + replace (pre ++ tagB ++ Armory.encodeVarint v ++ encStream ws)
        with ((pre ++ tagB) ++ Armory.encodeVarint v ++ encStream ws)
        by (now rewrite <- app_assoc).
      rewrite <- len_app. rewrite session_readVarint_encodeVarint_any by lia.
      cbn [bind Session.value Session.bytesRead]. rewrite <- len_app.
      replace ((pre ++ tagB) ++ Armory.encodeVarint v ++ encStream ws)
        with (((pre ++ tagB) ++ Armory.encodeVarint v) ++ encStream ws)
        by (now rewrite <- !app_assoc).
      rewrite IH by assumption.
      reflexivity.
    + pose proof (len_nonneg p) as Hp0.
      replace (pre ++ tagB ++ (Armory.encodeVarint (len p) ++ p) ++ encStream ws)
        with ((pre ++ tagB) ++ Armory.encodeVarint (len p) ++ (p ++ encStream ws))
        by (now rewrite <- !app_assoc).
      rewrite <- len_app. rewrite session_readVarint_encodeVarint by lia.
      cbn [bind Session.value Session.bytesRead]. rewrite <- len_app.
      replace ((pre ++ tagB) ++ Armory.encodeVarint (len p) ++ p ++ encStream ws)
        with (((pre ++ tagB) ++ Armory.encodeVarint (len p)) ++ p ++ encStream ws)
        by (now rewrite <- !app_assoc).
      rewrite subarray_middle.
      assert (Hinner : Session.findStarsInCache_loop (length ws + S fuel) p 0 None None
                       = Ret None).
      { replace (length ws + S fuel)%nat with ((length ws + 1) + fuel)%nat by lia.
        apply findStarsInCache_loop_more. apply (Hin p).
        cbn [payloadsOf flat_map]. now left. }
      rewrite Hinner. cbn [bind]. rewrite <- len_app.
      replace (((pre ++ tagB) ++ Armory.encodeVarint (len p)) ++ p ++ encStream ws)
        with ((((pre ++ tagB) ++ Armory.encodeVarint (len p)) ++ p) ++ encStream ws)
        by (now rewrite <- !app_assoc).
      rewrite IH by assumption. reflexivity.
    + unfold Session.skipByWireType. cbn [Z.eqb Pos.eqb bind].
      replace (len pre + len tagB + 4) with (len ((pre ++ tagB) ++ b))
        by (rewrite !len_app; unfold len at 3; rewrite Hw; reflexivity).
      rewrite <- (Enext b). rewrite IH by assumption. reflexivity.
    + unfold Session.skipByWireType. cbn [Z.eqb Pos.eqb bind].
      replace (len pre + len tagB + 8) with (len ((pre ++ tagB) ++ b))
        by (rewrite !len_app; unfold len at 3; rewrite Hw; reflexivity).
      rewrite <- (Enext b). rewrite IH by assumption. reflexivity.
Qed.

Lemma findStarsInCache_stream (ws : list WireField) (fuel : nat) :
  Forall wfWire32 ws ->
  (forall p, In p (payloadsOf ws) -> Session.findStarsInCache fuel p = Ret None) ->
  Session.findStarsInCache (length ws + S fuel) (encStream ws)
  = Session.findStarsInCache_end fuel
      (fold_left typeStepW ws None) (fold_left objectStepW ws None).
Proof.
  intros Hwf Hin. unfold Session.findStarsInCache.
  apply (findStarsInCache_loop_stream ws fuel Hwf Hin [] None None).
Qed.

(** Later fields that are no candidates change nothing. *)
Lemma objectStepW_keeps (ws : list WireField) (obj : option (list byte)) :
  forallb (fun w => negb (isCandidate w)) ws = true ->
  fold_left objectStepW ws obj = obj.
Proof.
  revert obj. induction ws as [|w ws IH]; intros obj H; [reflexivity|].
  cbn [forallb] in H. apply andb_prop in H as [Hw H]. apply negb_true_iff in Hw.
  cbn [fold_left]. rewrite IH by assumption.
  destruct w; cbn [objectStepW isCandidate] in *; try reflexivity. now rewrite Hw.
Qed.

Lemma starsStepW_keeps (ws : list WireField) (stars : option Z) :
  forallb (fun w => negb (isBalance w)) ws = true ->
  fold_left starsStepW ws stars = stars.
Proof.
  revert stars. induction ws as [|w ws IH]; intros stars H; [reflexivity|].
  cbn [forallb] in H. apply andb_prop in H as [Hw H]. apply negb_true_iff in Hw.
  cbn [fold_left]. rewrite IH by assumption.
  destruct w; cbn [starsStepW isBalance] in *; try reflexivity.
  unfold starsStep. cbn [fst snd]. now rewrite Hw.
Qed.

Lemma findStarsInCache_last_candidate (ws1 ws2 : list WireField) (fn : Z)
    (p : list byte) (fuel : nat) :
  let ws := ws1 ++ WBytes fn p :: ws2 in
  Forall wfWire32 ws ->
  (forall q, In q (payloadsOf ws) -> Session.findStarsInCache fuel q = Ret None) ->
  fn = 2 \/ fn = 3 ->
  forallb (fun w => negb (isCandidate w)) ws2 = true ->
  Session.findStarsInCache (length ws + S fuel) (encStream ws)
  = Session.findStarsInCache_end fuel (fold_left typeStepW ws None) (Some p).
Proof.
  intros ws Hwf Hin Hfn H2. rewrite findStarsInCache_stream by assumption.
  f_equal. unfold ws. rewrite fold_left_app. cbn [fold_left objectStepW].
  rewrite objectStepW_keeps by assumption.
  destruct Hfn as [-> | ->]; reflexivity.
Qed.

Lemma parseType6_last_balance (ws1 ws2 : list WireField) (v : Z) (fuel : nat) :
  let ws := ws1 ++ WVarint 2 v :: ws2 in
  Forall wfWire32 ws ->
  0 <= int32Varint v <= 5000 ->
  forallb (fun w => negb (isBalance w)) ws2 = true ->
  (length ws < fuel)%nat ->
  Session.parseType6ObjectDataForStars fuel (encStream ws)
  = Ret (Some (int32Varint v)).
Proof.
  intros ws Hwf Hv H2 Hf. rewrite parseType6_stream by assumption.
  f_equal. unfold ws. rewrite fold_left_app. cbn [fold_left starsStepW].
  rewrite starsStepW_keeps by assumption.
  unfold starsStep. cbn [fst snd Z.eqb Pos.eqb andb].
  destruct (Z.leb_spec 0 (int32Varint v)); [|lia].
  destruct (Z.leb_spec (int32Varint v) 5000); [|lia]. reflexivity.
Qed.

(** The cache with one balance, for any value on the wire. *)
Lemma balanceCache_stream (v : Z) :
  balanceCache v = encStream [WVarint 1 6; WBytes 2 (encStream [WVarint 2 v])].
Proof.
  unfold balanceCache, encStream, encBytes, encField, encWire.
  cbn [flat_map fst snd wireNumber wireTypeOf wireBody].
  now rewrite !app_nil_r.
Qed.

Lemma findStarsInCache_balanceCache (v : Z) (extra : nat) :
  0 <= v -> len (encField (2, v)) < 2 ^ 31 ->
  Session.findStarsInCache (extra + 5) (balanceCache v)
  = Ret (if (0 <=? int32Varint v) && (int32Varint v <=? 5000)
         then Some (int32Varint v) else None).
Proof.
  intros Hv Hlen. apply findStarsInCache_mono. rewrite balanceCache_stream.
  assert (Ep : encStream [WVarint 2 v] = encField (2, v)).
  { unfold encStream, encField, encWire.
    cbn [flat_map fst snd wireNumber wireTypeOf wireBody]. now rewrite app_nil_r. }
  assert (W1 : Forall wfWire32 [WVarint 2 v]).
  { repeat constructor; cbn; lia. }
  assert (W : Forall wfWire32 [WVarint 1 6; WBytes 2 (encStream [WVarint 2 v])]).
  { constructor; [split; cbn; lia|]. constructor; [|constructor].
    split; [cbn; lia|]. rewrite Ep. exact Hlen. }
  change 5%nat
    with (length [WVarint 1 6; WBytes 2 (encStream [WVarint 2 v])] + 3)%nat.
  rewrite findStarsInCache_stream; [|exact W|].
  - cbn [fold_left typeStepW objectStepW typeStep fst snd Z.eqb Pos.eqb orb].
    rewrite int32Varint_small by lia.
    cbn [Session.findStarsInCache_end Z.eqb Pos.eqb].
    rewrite parseType6_stream by (assumption || (simpl; lia)).
    cbn [fold_left starsStepW]. unfold starsStep. cbn [fst snd Z.eqb Pos.eqb andb].
    reflexivity.
  - intros p [<-|[]].
    change 2%nat with (length [WVarint 2 v] + 1)%nat.
    rewrite findStarsInCache_stream; [reflexivity|exact W1|intros q []].
Qed.

(** * The settle guard *)

Section SettleOnce.

Variables armoryId currentStars itemPrice : Z.

Local Abbreviation handle := (Purchase.handle armoryId currentStars itemPrice).
Local Abbreviation run := (Purchase.run armoryId currentStars itemPrice).

Lemma settle_discarded (err : option Purchase.Error) (ok : bool)
    (data : option Purchase.Data) (st : Purchase.State) :
  Purchase.settled st = true -> Purchase.settle err ok data st = st.
Proof. intros H. unfold Purchase.settle. now rewrite H. Qed.

Lemma settle_first (err : option Purchase.Error) (ok : bool)
    (data : option Purchase.Data) (st : Purchase.State) :
  Purchase.settled st = false ->
  let st' := Purchase.settle err ok data st in
  Purchase.settled st' = true /\
  Purchase.outcomes st' =
    Purchase.outcomes st ++ [if ok then Purchase.Resolve data else Purchase.Reject err] /\
  Purchase.cleanups st' = Purchase.cleanups st ++ Purchase.cleanupOnce.
Proof.
  intros H. unfold Purchase.settle. rewrite H. cbn zeta.
  unfold Purchase.outcomes, Purchase.cleanups. cbn [Purchase.settled Purchase.log].
  rewrite !filter_app. repeat split; destruct ok; reflexivity.
Qed.

(** Once settled, no handler changes the outcome or repeats the cleanup. *)
Lemma handle_settled (st : Purchase.State) (ev : Purchase.Event) :
  Purchase.settled st = true ->
  Purchase.settled (handle st ev) = true /\
  Purchase.outcomes (handle st ev) = Purchase.outcomes st /\
  Purchase.cleanups (handle st ev) = Purchase.cleanups st.
Proof.
  intros H.
  destruct ev as [|e| | | |appid msgType payload]; cbn [Purchase.handle];
    rewrite ?settle_discarded by exact H; auto.
  - unfold Purchase.outcomes, Purchase.cleanups. cbn [Purchase.settled Purchase.log].
    rewrite !filter_app. cbn. rewrite !app_nil_r. auto.
  - unfold Purchase.outcomes, Purchase.cleanups. cbn [Purchase.settled Purchase.log].
    rewrite !filter_app. cbn. rewrite !app_nil_r. auto.
  - destruct (negb _); [auto|]. destruct (negb _); [auto|].
    destruct (Armory.findCSOEconItem payload) as [[it|]| |]; auto.
    destruct (Armory.accepted it); rewrite ?settle_discarded by exact H; auto.
Qed.

(** A handler that returns before [settle] leaves the promise alone. *)
Lemma handle_passive (st : Purchase.State) (ev : Purchase.Event) :
  Purchase.passive ev = true ->
  Purchase.settled (handle st ev) = Purchase.settled st /\
  Purchase.outcomes (handle st ev) = Purchase.outcomes st /\
  Purchase.cleanups (handle st ev) = Purchase.cleanups st.
Proof.
  intros H.
  destruct ev as [|e| | | |appid msgType payload]; cbn [Purchase.handle];
    try discriminate.
  - unfold Purchase.outcomes, Purchase.cleanups. cbn [Purchase.settled Purchase.log].
    rewrite !filter_app. cbn. rewrite !app_nil_r. auto.
  - unfold Purchase.outcomes, Purchase.cleanups. cbn [Purchase.settled Purchase.log].
    rewrite !filter_app. cbn. rewrite !app_nil_r. auto.
  - cbn [Purchase.passive] in H.
    destruct (negb (appid =? Purchase.APP_ID)); [auto|].
    cbn [orb] in H. rewrite H. auto.
Qed.



Lemma run_settled (evs : list Purchase.Event) (st : Purchase.State) :
  Purchase.settled st = true ->
  Purchase.settled (run evs st) = true /\
  Purchase.outcomes (run evs st) = Purchase.outcomes st /\
  Purchase.cleanups (run evs st) = Purchase.cleanups st.
Proof.
  revert st. induction evs as [|ev evs IH]; intros st H; [auto|].
  cbn [Purchase.run fold_left].
  destruct (handle_settled st ev H) as (S' & O' & C').
  destruct (IH _ S') as (S'' & O'' & C''). unfold Purchase.run in *.
  rewrite S'', O'', C''. auto.
Qed.

Lemma run_passive (evs : list Purchase.Event) (st : Purchase.State) :
  forallb Purchase.passive evs = true ->
  Purchase.settled (run evs st) = Purchase.settled st /\
  Purchase.outcomes (run evs st) = Purchase.outcomes st /\
  Purchase.cleanups (run evs st) = Purchase.cleanups st.
Proof.
  revert st. induction evs as [|ev evs IH]; intros st H; [auto|].
  cbn [forallb] in H. apply andb_prop in H as [Hev Hevs].
  cbn [Purchase.run fold_left].
  destruct (handle_passive st ev Hev) as (S' & O' & C').
  destruct (IH (handle st ev) Hevs) as (S'' & O'' & C'').
  unfold Purchase.run in *.
  rewrite S'', O'', C''. auto.
Qed.

Lemma run_app (evs1 evs2 : list Purchase.Event) (st : Purchase.State) :
  run (evs1 ++ evs2) st = run evs2 (run evs1 st).
Proof. unfold Purchase.run. apply fold_left_app. Qed.

End SettleOnce.

(** * The claims *)

(** C1 (the code departs from it).  Decoding the encoding of [n] gives
    back [n] with the BigInt decoder of [ArmoryManager]
    ([armory_readVarint_encodeVarint], every [n >= 0]) but not with the
    32-bit decoder of SessionManager.js: for [n = 2^31], encoded on five
    bytes, it returns [-2^31], and for [n = 2^35], encoded on six bytes,
    it returns 8. *)
Theorem C1_session_readVarint_wraps :
  Armory.readVarint (Armory.encodeVarint (2 ^ 31)) 0
    = Ret (Some (Armory.mkVarint (2 ^ 31) 5)) /\
  Session.readVarint (Armory.encodeVarint (2 ^ 31)) 0
    = Ret (Some (Session.mkVarint (- 2 ^ 31) 5)) /\
  Session.readVarint (Armory.encodeVarint (2 ^ 35)) 0
    = Ret (Some (Session.mkVarint 8 6)).
Proof. repeat split; vm_compute; reflexivity. Qed.

(** C2.  At every offset of every buffer [readVarint] and [readField]
    return without reading outside the buffer (an access outside would
    raise); a varint whose bytes all carry the continuation bit up to the
    end of the buffer gives [null]; a tag with a wire type other than 0,
    1, 2, 5 gives [null]; a field that is read has one of these four wire
    types and ends inside the buffer, and the same field cut anywhere
    before its end gives [null]. *)
Theorem C2_decode_stays_in_bounds (buffer : list byte) (offset : nat) :
  (exists r, Armory.readVarint buffer offset = Ret r) /\
  (exists r, Armory.readField buffer offset = Ret r) /\
  (allContinue (skipn offset buffer) -> Armory.readVarint buffer offset = Ret None) /\
  (forall tag, Armory.readVarint buffer offset = Ret (Some tag) ->
     let wt := Z.land (ToInt32 (Number (Armory.value tag))) 7 in
     wt <> 0 -> wt <> 1 -> wt <> 2 -> wt <> 5 ->
     Armory.readField buffer offset = Ret None) /\
  (forall f, Armory.readField buffer offset = Ret (Some f) ->
     (Armory.nextOffset f <= length buffer)%nat /\
     (Armory.wireType f = 0 \/ Armory.wireType f = 1 \/
      Armory.wireType f = 2 \/ Armory.wireType f = 5) /\
     forall m, (m < Armory.nextOffset f)%nat ->
       Armory.readField (firstn m buffer) offset = Ret None).
Proof.
  split; [rewrite readVarint_decodeFrom; eauto|].
  split; [apply readField_returns|].
  split; [|split].
  - intros H. rewrite readVarint_decodeFrom. f_equal. now apply decodeFrom_none_iff.
  - intros tag H wt W0 W1 W2 W5. unfold Armory.readField. rewrite H.
    cbn beta iota zeta delta [bind]. fold wt.
    destruct (Z.eqb_spec wt 0); [contradiction|].
    destruct (Z.eqb_spec wt 2); [contradiction|].
    destruct (Z.eqb_spec wt 5); [contradiction|].
    destruct (Z.eqb_spec wt 1); [contradiction|reflexivity].
  - intros f H. split; [eapply readField_nextOffset_le; eauto|].
    split; [eapply readField_wireType; eauto|].
    intros m Hm. eapply readField_truncated; eauto.
Qed.

Lemma C2_decode_stays_in_bounds_witness :
  allContinue (skipn 10 itemBuffer) /\
  Armory.readVarint itemBuffer 10 = Ret None /\
  Armory.readField itemBuffer 3
    = Ret (Some (Armory.mkField 12 2
                   (Armory.VBuffer (bytes [0x08; 0x06; 0x1A; 0x04; 0xDE; 0xAD; 0xBE; 0xEF]))
                   13)) /\
  Armory.readField (firstn 12 itemBuffer) 3 = Ret None /\
  Armory.readVarint (bytes [0x0B; 0x00]) 0 = Ret (Some (Armory.mkVarint 11 1)) /\
  Armory.readField (bytes [0x0B; 0x00]) 0 = Ret None.
Proof.
  destruct (C2_decode_stays_in_bounds itemBuffer 10) as (_ & _ & Hc & _).
  destruct (C2_decode_stays_in_bounds itemBuffer 3) as (_ & _ & _ & _ & Hf).
  destruct (C2_decode_stays_in_bounds (bytes [0x0B; 0x00]) 0) as (_ & _ & _ & Hw & _).
  assert (T : Armory.readVarint (bytes [0x0B; 0x00]) 0 = Ret (Some (Armory.mkVarint 11 1)))
    by (vm_compute; reflexivity).
  assert (A : allContinue (skipn 10 itemBuffer)).
  { repeat constructor; vm_compute; discriminate. }
  assert (R : Armory.readField itemBuffer 3
    = Ret (Some (Armory.mkField 12 2
                   (Armory.VBuffer (bytes [0x08; 0x06; 0x1A; 0x04; 0xDE; 0xAD; 0xBE; 0xEF]))
                   13))) by (vm_compute; reflexivity).
  split; [exact A|]. split; [exact (Hc A)|]. split; [exact R|].
  split; [destruct (Hf _ R) as (_ & _ & Ht); apply Ht; simpl; lia|].
  split; [exact T|]. apply (Hw _ T); vm_compute; discriminate.
Defined.

(** C3 (the code departs from it).  [findStarsInCache] does not stop on
    the six bytes 0A FA FF FF FF 0F: the length is read as -6 by the
    32-bit accumulator, [offset += l] takes the offset back to 0, and the
    loop starts again; no amount of fuel gives a result.  The searches of
    [ArmoryManager], which check the end of a field against the buffer,
    return on the same bytes. *)
Theorem C3_findStarsInCache_loops_forever :
  (forall fuel, Session.findStarsInCache fuel loopingCache = OutOfFuel) /\
  Armory.findCSOEconItem loopingCache = Ret None /\
  Armory.findDefIndexDeep loopingCache = Ret None.
Proof.
  split; [intros fuel; apply loopingCache_diverges|].
  split; vm_compute; reflexivity.
Qed.

(** C4.  On the buffer field 4 = 501, field 12 = { field 1 = 6, field 3 =
    DE AD BE EF } [findCSOEconItem] returns the item 501 with the one
    attribute (6, "deadbeef").  In general an item is returned, by the
    direct parse or by the search, only with a [def_index] that is
    present and not zero; and the search is the direct parse of the
    buffer followed, when that is not accepted, by the search of each
    non-empty length-delimited field in order, the first accepted result
    being returned (an empty field has nothing to return). *)
Theorem C4_findCSOEconItem :
  Armory.findCSOEconItem itemBuffer
    = Ret (Some (Armory.mkItem (Some (Fin 501))
                   [Armory.mkAttribute (Some (Fin 6)) (Some "deadbeef"%string)])) /\
  (forall buffer it,
     Armory.parseCSOEconItem buffer = Ret (Some it) \/
     Armory.findCSOEconItem buffer = Ret (Some it) ->
     exists n, Armory.def_index it = Some n /\ n <> Fin 0) /\
  (forall buffer, fits buffer ->
     Armory.findCSOEconItem buffer =
     (direct <- Armory.parseCSOEconItem buffer ;;
      if Armory.acceptedItem direct then Ret direct
      else firstMatch Armory.acceptedItem Armory.findCSOEconItem (children buffer))).
Proof.
  split; [vm_compute; reflexivity|]. split.
  - intros buffer it H.
    assert (A : Armory.accepted it = true).
    { destruct H as [H|H].
      - unfold Armory.parseCSOEconItem in H.
        destruct (Armory.parseCSOEconItem_loop _ _ _ _) as [x| |]; simpl in H;
          try discriminate.
        destruct (Armory.accepted x) eqn:E; inversion H; subst. exact E.
      - eapply findCSOEconItem_fuel_accepted. exact H. }
    unfold Armory.accepted in A. destruct (Armory.def_index it) as [n|]; [|discriminate].
    exists n. split; [reflexivity|]. intros ->. discriminate.
  - apply findCSOEconItem_unfold.
Qed.

Lemma C4_findCSOEconItem_witness :
  fits brokenThenFive /\
  Armory.findCSOEconItem brokenThenFive = Ret (Some (Armory.mkItem (Some (Fin 5)) [])) /\
  (exists n, Armory.def_index (Armory.mkItem (Some (Fin 5)) []) = Some n /\ n <> Fin 0) /\
  Armory.findCSOEconItem brokenThenFive =
    (direct <- Armory.parseCSOEconItem brokenThenFive ;;
     if Armory.acceptedItem direct then Ret direct
     else firstMatch Armory.acceptedItem Armory.findCSOEconItem (children brokenThenFive)).
Proof.
  destruct C4_findCSOEconItem as (_ & Hacc & Hun).
  assert (F : fits brokenThenFive) by (vm_compute; reflexivity).
  assert (R : Armory.findCSOEconItem brokenThenFive
              = Ret (Some (Armory.mkItem (Some (Fin 5)) []))) by (vm_compute; reflexivity).
  split; [exact F|]. split; [exact R|].
  split; [exact (Hacc _ _ (or_intror R))|exact (Hun _ F)].
Defined.

(** C5 (the code departs from it).  Whatever [findStarsInCache]
    returns lies in 0..5000, and with the discriminator 6 and a payload
    holding field 2 = [v] it returns [v] when [v] is at most 5000 and
    [null] otherwise as long as [v < 2^31]: 1200 for the payload with
    1200, [null] for the payload with 7000.  But a value outside the
    range is not always treated as absent.  For every [v] the value that
    is tested and returned is the one the 32-bit [readVarint] reads,
    [int32Varint v]: for [v = 2^32 + 1200], which the BigInt reader of
    [ArmoryManager] reads as it is, the result is 1200, and for
    [v = 3 * 2^35 + 2^32] it is 24. *)
Theorem C5_wrapped_balance_accepted :
  (forall fuel buffer v,
     Session.findStarsInCache fuel buffer = Ret (Some v) -> 0 <= v <= 5000) /\
  (forall v extra, 0 <= v -> len (encField (2, v)) < 2 ^ 31 ->
     Session.findStarsInCache (extra + 5) (balanceCache v)
     = Ret (if (0 <=? int32Varint v) && (int32Varint v <=? 5000)
            then Some (int32Varint v) else None)) /\
  (forall v, 0 <= v < 2 ^ 31 -> int32Varint v = v) /\
  (forall v extra, 0 <= v < 2 ^ 31 ->
     Session.findStarsInCache (extra + 5)
       (encField (1, 6) ++ encBytes (2, encField (2, v)))
     = Ret (if v <=? 5000 then Some v else None)) /\
  balance1200 = encField (1, 6) ++ encBytes (2, encField (2, 1200)) /\
  balance7000 = encField (1, 6) ++ encBytes (2, encField (2, 7000)) /\
  (forall extra, Session.findStarsInCache (extra + 5) balance1200 = Ret (Some 1200)) /\
  (forall extra, Session.findStarsInCache (extra + 5) balance7000 = Ret None) /\
  Armory.readVarint (Armory.encodeVarint (2 ^ 32 + 1200)) 0
    = Ret (Some (Armory.mkVarint (2 ^ 32 + 1200) 5)) /\
  Session.readVarint (Armory.encodeVarint (2 ^ 32 + 1200)) 0
    = Ret (Some (Session.mkVarint 1200 5)) /\
  (forall extra,
     Session.findStarsInCache (extra + 5) (balanceCache (2 ^ 32 + 1200))
     = Ret (Some 1200)) /\
  (forall extra,
     Session.findStarsInCache (extra + 5) (balanceCache (3 * 2 ^ 35 + 2 ^ 32))
     = Ret (Some 24)).
Proof.
  split; [|split; [|split; [|split; [|split; [|split; [|split; [|split;
    [|split; [|split; [|split]]]]]]]]]].
  - intros fuel buffer v H. unfold Session.findStarsInCache in H.
    apply findStarsInCache_loop_range in H. exact H.
  - intros v extra Hv Hlen. now apply findStarsInCache_balanceCache.
  - apply int32Varint_small.
  - intros v extra Hv. now apply findStarsInCache_single.
  - reflexivity.
  - reflexivity.
  - intros extra. apply findStarsInCache_mono. vm_compute. reflexivity.
  - intros extra. apply findStarsInCache_mono. vm_compute. reflexivity.
  - vm_compute. reflexivity.
  - vm_compute. reflexivity.
  - intros extra. apply findStarsInCache_mono. vm_compute. reflexivity.
  - intros extra. apply findStarsInCache_mono. vm_compute. reflexivity.
Qed.

Lemma C5_wrapped_balance_accepted_witness :
  0 <= 2 ^ 32 + 1200 /\ len (encField (2, 2 ^ 32 + 1200)) < 2 ^ 31 /\
  5000 < 2 ^ 32 + 1200 /\
  Session.findStarsInCache 5 (balanceCache (2 ^ 32 + 1200)) = Ret (Some 1200) /\
  Session.findStarsInCache 5 balance1200 = Ret (Some 1200) /\ 0 <= 1200 <= 5000 /\
  0 <= 5001 < 2 ^ 31 /\
  Session.findStarsInCache 5 (encField (1, 6) ++ encBytes (2, encField (2, 5001)))
    = Ret None.
Proof.
  destruct C5_wrapped_balance_accepted as (Hr & Hw & _ & Hv & _ & _ & H1 & _).
  assert (L : len (encField (2, 2 ^ 32 + 1200)) < 2 ^ 31) by (vm_compute; reflexivity).
  split; [lia|]. split; [exact L|]. split; [lia|].
  split; [exact (Hw (2 ^ 32 + 1200) 0%nat ltac:(lia) L)|].
  split; [exact (H1 0%nat)|]. split; [exact (Hr _ _ _ (H1 0%nat))|].
  split; [lia|]. exact (Hv 5001 0%nat ltac:(lia)).
Defined.

(** C6.  For non-negative [armoryId], [stars] and [price] the body is
    the four pairs tag, varint with the tags 1<<3 .. 4<<3 and the values
    11, [armoryId], [stars], [price], and nothing else: [readField], run
    from offset 0 and then from each next offset, reads the varint fields
    (1, 11), (2, armoryId), (3, stars), (4, price) and ends at the end of
    the body.  For (42, 100, 25) the fields are (1,11), (2,42), (3,100),
    (4,25). *)
Theorem C6_encodeRedeemBody (armoryId stars price : Z) :
  0 <= armoryId -> 0 <= stars -> 0 <= price ->
  let body := Armory.encodeRedeemBody armoryId stars price in
  let o1 := (1 + length (Armory.encodeVarint 11))%nat in
  let o2 := (o1 + 1 + length (Armory.encodeVarint armoryId))%nat in
  let o3 := (o2 + 1 + length (Armory.encodeVarint stars))%nat in
  body = [z2b (Z.shiftl 1 3)] ++ Armory.encodeVarint 11
      ++ [z2b (Z.shiftl 2 3)] ++ Armory.encodeVarint armoryId
      ++ [z2b (Z.shiftl 3 3)] ++ Armory.encodeVarint stars
      ++ [z2b (Z.shiftl 4 3)] ++ Armory.encodeVarint price /\
  Armory.readField body 0
    = Ret (Some (Armory.mkField 1 0 (Armory.VBigInt 11) o1)) /\
  Armory.readField body o1
    = Ret (Some (Armory.mkField 2 0 (Armory.VBigInt armoryId) o2)) /\
  Armory.readField body o2
    = Ret (Some (Armory.mkField 3 0 (Armory.VBigInt stars) o3)) /\
  Armory.readField body o3
    = Ret (Some (Armory.mkField 4 0 (Armory.VBigInt price) (length body))) /\
  topFields (Armory.encodeRedeemBody 42 100 25)
    = [Armory.mkField 1 0 (Armory.VBigInt 11) 2;
       Armory.mkField 2 0 (Armory.VBigInt 42) 4;
       Armory.mkField 3 0 (Armory.VBigInt 100) 6;
       Armory.mkField 4 0 (Armory.VBigInt 25) 8].
Proof.
  intros Ha Hs Hp body o1 o2 o3.
  set (t1 := Armory.encodeVarint (mkTag 1 0)).
  set (t2 := Armory.encodeVarint (mkTag 2 0)).
  set (t3 := Armory.encodeVarint (mkTag 3 0)).
  set (t4 := Armory.encodeVarint (mkTag 4 0)).
  set (e11 := Armory.encodeVarint 11) in *.
  set (ea := Armory.encodeVarint armoryId) in *.
  set (es := Armory.encodeVarint stars) in *.
  set (ep := Armory.encodeVarint price) in *.
  assert (Hbody : body = t1 ++ e11 ++ t2 ++ ea ++ t3 ++ es ++ t4 ++ ep).
  { unfold body, Armory.encodeRedeemBody. cbn [Armory.encodeRedeemBody_loop].
    rewrite app_nil_r. reflexivity. }
  assert (L1 : length t1 = 1%nat) by reflexivity.
  assert (L2 : length t2 = 1%nat) by reflexivity.
  assert (L3 : length t3 = 1%nat) by reflexivity.
  assert (L4 : length t4 = 1%nat) by reflexivity.
  split. { rewrite Hbody. reflexivity. }
  split.
  { rewrite Hbody.
    exact (readField_encoded_varint [] (t2 ++ ea ++ t3 ++ es ++ t4 ++ ep) 1 11
             ltac:(lia) ltac:(lia)). }
  split.
  { rewrite Hbody.
    replace (t1 ++ e11 ++ t2 ++ ea ++ t3 ++ es ++ t4 ++ ep)
      with ((t1 ++ e11) ++ t2 ++ ea ++ (t3 ++ es ++ t4 ++ ep))
      by (now rewrite <- !app_assoc).
    replace o1 with (length (t1 ++ e11)) by reflexivity.
    unfold t2, ea.
    rewrite (readField_encoded_varint (t1 ++ e11) (t3 ++ es ++ t4 ++ ep) 2 armoryId) by lia.
    reflexivity. }
  split.
  { rewrite Hbody.
    replace (t1 ++ e11 ++ t2 ++ ea ++ t3 ++ es ++ t4 ++ ep)
      with ((t1 ++ e11 ++ t2 ++ ea) ++ t3 ++ es ++ (t4 ++ ep))
      by (now rewrite <- !app_assoc).
    replace o2 with (length (t1 ++ e11 ++ t2 ++ ea)) by reflexivity.
    unfold t3, es.
    rewrite (readField_encoded_varint (t1 ++ e11 ++ t2 ++ ea) (t4 ++ ep) 3 stars) by lia.
    do 3 f_equal; fold t3 es; unfold o3; rewrite ?L3; lia. }
  split.
  { rewrite Hbody.
    replace (t1 ++ e11 ++ t2 ++ ea ++ t3 ++ es ++ t4 ++ ep)
      with ((t1 ++ e11 ++ t2 ++ ea ++ t3 ++ es) ++ t4 ++ ep ++ [])
      by (rewrite app_nil_r; now rewrite <- !app_assoc).
    replace o3 with (length (t1 ++ e11 ++ t2 ++ ea ++ t3 ++ es))
      by (unfold o3, o2, o1; rewrite !length_app, L1, L2, L3; lia).
    unfold t4, ep.
    rewrite (readField_encoded_varint (t1 ++ e11 ++ t2 ++ ea ++ t3 ++ es) [] 4 price) by lia.
    do 3 f_equal; fold t4 ep; rewrite ?app_nil_r;
      rewrite <- ?app_assoc; rewrite !length_app; lia. }
  vm_compute. reflexivity.
Qed.

Lemma C6_encodeRedeemBody_witness :
  0 <= 42 /\ 0 <= 100 /\ 0 <= 25 /\
  Armory.encodeRedeemBody 42 100 25 = bytes [8; 11; 16; 42; 24; 100; 32; 25] /\
  Armory.readField (Armory.encodeRedeemBody 42 100 25) 4
    = Ret (Some (Armory.mkField 3 0 (Armory.VBigInt 100) 6)).
Proof.
  destruct (C6_encodeRedeemBody 42 100 25 ltac:(lia) ltac:(lia) ltac:(lia))
    as (Hb & _ & _ & H3 & _).
  split; [lia|]. split; [lia|]. split; [lia|].
  split; [rewrite Hb; reflexivity|exact H3].
Defined.



(** C8 (amended).  [findDefIndexDeep] returns only strictly positive
    values, each the value of a varint field 4 found somewhere in the
    nesting, and reports "not found" when there is none.  On each level
    only the first varint field 4 of the readable fields is looked at:
    when it is strictly positive it is returned; otherwise (zero, absent)
    the later varint fields 4 of that level are not examined and the
    search goes into the non-empty length-delimited fields of the level,
    in order, returning the first strictly positive result. *)
Theorem C8_findDefIndexDeep_first_field4 (buffer : list byte) :
  fits buffer ->
  (forall v, Armory.findDefIndexDeep buffer = Ret (Some v) ->
     Num_gtb v (Fin 0) = true /\ hasField4 buffer v) /\
  ((forall v, ~ hasField4 buffer v) -> Armory.findDefIndexDeep buffer = Ret None) /\
  Armory.findDefIndexDeep buffer =
    (let direct := firstVarint 4 (topFields buffer) in
     if Armory.positive direct then Ret direct
     else firstMatch Armory.positive Armory.findDefIndexDeep (children buffer)).
Proof.
  intros Hfit. split; [|split].
  - now apply findDefIndexDeep_sound.
  - now apply findDefIndexDeep_absent.
  - now apply findDefIndexDeep_unfold.
Qed.

Lemma C8_findDefIndexDeep_first_field4_witness :
  fits brokenThenFive /\
  Armory.findDefIndexDeep brokenThenFive = Ret (Some (Fin 5)) /\
  Num_gtb (Fin 5) (Fin 0) = true /\ hasField4 brokenThenFive (Fin 5).
Proof.
  assert (F : fits brokenThenFive) by (vm_compute; reflexivity).
  assert (R : Armory.findDefIndexDeep brokenThenFive = Ret (Some (Fin 5)))
    by (vm_compute; reflexivity).
  destruct (C8_findDefIndexDeep_first_field4 brokenThenFive F) as (Hs & _ & _).
  split; [exact F|]. split; [exact R|]. exact (Hs _ R).
Defined.

(** C8, as first stated, fails: in the buffer field 4 = 0, field 4 = 5 a
    strictly positive varint field 4 exists on the top level, and the
    search reports "not found". *)
Lemma C8_counterexample :
  hasField4 zeroThenFive (Fin 5) /\
  Armory.findDefIndexDeep zeroThenFive = Ret None /\
  ~ (Armory.findDefIndexDeep zeroThenFive = Ret None <->
     ~ exists v, hasField4 zeroThenFive v).
Proof.
  assert (H : hasField4 zeroThenFive (Fin 5)).
  { apply (field4_here zeroThenFive (Armory.mkField 4 0 (Armory.VBigInt 5) 4)).
    - vm_compute. right. left. reflexivity.
    - reflexivity.
    - reflexivity. }
  assert (R : Armory.findDefIndexDeep zeroThenFive = Ret None) by (vm_compute; reflexivity).
  split; [exact H|]. split; [exact R|].
  intros [Hn _]. apply (Hn R). now exists (Fin 5).
Qed.

(** C9.  A length-delimited field whose contents yield nothing, because
    they cannot be parsed, does not stop either deep search: the search
    of the parent gives what it would give without that field, so the
    siblings after it are still searched and a match there is still
    returned.  Contents that cannot be read from their first byte yield
    nothing, and both searches return on every buffer. *)
Theorem C9_nested_failure_not_fatal (buffer bad : list byte) (cs1 cs2 : list (list byte)) :
  fits buffer -> children buffer = cs1 ++ bad :: cs2 ->
  (Armory.findCSOEconItem bad = Ret None ->
   Armory.findCSOEconItem buffer =
     (direct <- Armory.parseCSOEconItem buffer ;;
      if Armory.acceptedItem direct then Ret direct
      else firstMatch Armory.acceptedItem Armory.findCSOEconItem (cs1 ++ cs2))) /\
  (Armory.findDefIndexDeep bad = Ret None ->
   Armory.findDefIndexDeep buffer =
     (let direct := firstVarint 4 (topFields buffer) in
      if Armory.positive direct then Ret direct
      else firstMatch Armory.positive Armory.findDefIndexDeep (cs1 ++ cs2))) /\
  (Armory.readField bad 0 = Ret None ->
   Armory.findCSOEconItem bad = Ret None /\ Armory.findDefIndexDeep bad = Ret None) /\
  (exists r, Armory.findCSOEconItem buffer = Ret r) /\
  (exists r, Armory.findDefIndexDeep buffer = Ret r).
Proof.
  intros Hfit Hc. split; [|split; [|split; [|split]]].
  - intros Hb. rewrite findCSOEconItem_unfold by assumption. rewrite Hc.
    destruct (Armory.parseCSOEconItem buffer); cbn [bind]; try reflexivity.
    destruct (Armory.acceptedItem a); [reflexivity|].
    now apply firstMatch_skip with (r := None).
  - intros Hb. rewrite findDefIndexDeep_unfold by assumption. rewrite Hc. cbn zeta.
    destruct (Armory.positive _); [reflexivity|].
    now apply firstMatch_skip with (r := None).
  - apply unreadable_branch.
  - now apply findCSOEconItem_returns.
  - now apply findDefIndexDeep_returns.
Qed.

Lemma C9_nested_failure_not_fatal_witness :
  fits brokenThenFive /\
  children brokenThenFive = [] ++ bytes [0xFF] :: [bytes [0x20; 0x05]] /\
  Armory.readField (bytes [0xFF]) 0 = Ret None /\
  Armory.findCSOEconItem (bytes [0xFF]) = Ret None /\
  Armory.findDefIndexDeep (bytes [0xFF]) = Ret None /\
  Armory.findCSOEconItem brokenThenFive =
    (direct <- Armory.parseCSOEconItem brokenThenFive ;;
     if Armory.acceptedItem direct then Ret direct
     else firstMatch Armory.acceptedItem Armory.findCSOEconItem
            ([] ++ [bytes [0x20; 0x05]])) /\
  Armory.findDefIndexDeep brokenThenFive =
    (let direct := firstVarint 4 (topFields brokenThenFive) in
     if Armory.positive direct then Ret direct
     else firstMatch Armory.positive Armory.findDefIndexDeep
            ([] ++ [bytes [0x20; 0x05]])).
Proof.
  assert (F : fits brokenThenFive) by (vm_compute; reflexivity).
  assert (C : children brokenThenFive = [] ++ bytes [0xFF] :: [bytes [0x20; 0x05]])
    by (vm_compute; reflexivity).
  assert (R : Armory.readField (bytes [0xFF]) 0 = Ret None) by (vm_compute; reflexivity).
  destruct (C9_nested_failure_not_fatal brokenThenFive (bytes [0xFF]) []
              [bytes [0x20; 0x05]] F C) as (H1 & H2 & H3 & _ & _).
  destruct (H3 R) as (B1 & B2).
  split; [exact F|]. split; [exact C|]. split; [exact R|]. split; [exact B1|].
  split; [exact B2|]. split; [exact (H1 B1)|exact (H2 B2)].
Defined.

(** C10 (the code departs from it).  Later occurrences overwrite
    earlier ones.  On a level made of any fields, none of whose
    length-delimited contents holds a balance deeper down, the candidate
    payload is the content of the last length-delimited field numbered 2
    or 3; and in a payload made of any fields the balance returned is
    the one of the last varint field 2 whose value, as the 32-bit
    [readVarint] reads it, lies in 0..5000.  As long as the values are
    below [2^31] this is the last field 2 with a value in 0..5000.  It is
    not in general: in the payload field 2 = 5, field 2 = 1200, field 2 =
    2^32 + 7 the last value in 0..5000 is 1200, but the last field is
    read as 7, and 7 is returned. *)
Theorem C10_wrapped_balance_wins :
  (forall (ws1 ws2 : list WireField) (fn : Z) (p : list byte) (fuel : nat),
     let ws := ws1 ++ WBytes fn p :: ws2 in
     Forall wfWire32 ws ->
     (forall q, In q (payloadsOf ws) -> Session.findStarsInCache fuel q = Ret None) ->
     fn = 2 \/ fn = 3 ->
     forallb (fun w => negb (isCandidate w)) ws2 = true ->
     Session.findStarsInCache (length ws + S fuel) (encStream ws)
     = Session.findStarsInCache_end fuel (fold_left typeStepW ws None) (Some p)) /\
  (forall (ws1 ws2 : list WireField) (v : Z) (fuel : nat),
     let ws := ws1 ++ WVarint 2 v :: ws2 in
     Forall wfWire32 ws ->
     0 <= int32Varint v <= 5000 ->
     forallb (fun w => negb (isBalance w)) ws2 = true ->
     (length ws < fuel)%nat ->
     Session.parseType6ObjectDataForStars fuel (encStream ws)
     = Ret (Some (int32Varint v))) /\
  (forall v, 0 <= v < 2 ^ 31 -> int32Varint v = v) /\
  (forall (ps : list (Z * list byte)) (q : Z * list byte) (fuel : nat),
     Forall wfPayload (ps ++ [q]) ->
     (forall p, In p (ps ++ [q]) -> Session.findStarsInCache fuel (snd p) = Ret None) ->
     Session.findStarsInCache (S (length (ps ++ [q]) + S fuel))
       (encField (1, 6) ++ encBytesFields (ps ++ [q]))
     = Session.parseType6ObjectDataForStars fuel (snd q)) /\
  (forall (fs1 fs2 : list (Z * Z)) (v : Z) (fuel : nat),
     Forall wfField (fs1 ++ (2, v) :: fs2) ->
     0 <= v <= 5000 ->
     Forall (fun f => (fst f =? 2) && (0 <=? snd f) && (snd f <=? 5000) = false) fs2 ->
     (length (fs1 ++ (2%Z, v) :: fs2) < fuel)%nat ->
     Session.parseType6ObjectDataForStars fuel (encFields (fs1 ++ (2, v) :: fs2))
     = Ret (Some v)) /\
  Session.readVarint (Armory.encodeVarint (2 ^ 32 + 7)) 0
    = Ret (Some (Session.mkVarint 7 5)) /\
  (forall extra,
     Session.parseType6ObjectDataForStars (extra + 4)
       (encFields [(2, 5); (2, 1200); (2, 2 ^ 32 + 7)])
     = Ret (Some 7)).
Proof.
  split; [|split; [|split; [|split; [|split; [|split]]]]].
  - intros ws1 ws2 fn p fuel. apply findStarsInCache_last_candidate.
  - intros ws1 ws2 v fuel. apply parseType6_last_balance.
  - apply int32Varint_small.
  - intros ps q fuel Hwf Hin.
    rewrite findStarsInCache_payloads by assumption.
    unfold lastPayload. rewrite fold_left_app. reflexivity.
  - intros fs1 fs2 v fuel Hwf Hv Hrest Hf.
    rewrite parseType6_fields by assumption.
    rewrite fold_left_app. cbn [fold_left]. rewrite starsStep_keeps by assumption.
    unfold starsStep. cbn [fst snd].
    destruct (Z.leb_spec 0 v); [|lia]. destruct (Z.leb_spec v 5000); [|lia].
    reflexivity.
  - vm_compute. reflexivity.
  - intros extra. induction extra as [|extra IH]; [vm_compute; reflexivity|].
    cbn [plus]. apply parseType6_mono. exact IH.
Qed.

Lemma C10_wrapped_balance_wins_witness :
  let ps := [(2, bytes [0x10; 0x05])] in
  let q := (3, bytes [0x10; 0xB0; 0x09]) in
  let ws := [WVarint 2 5; WVarint 2 1200] ++ WVarint 2 (2 ^ 32 + 7) :: [] in
  Forall wfWire32 ws /\
  0 <= int32Varint (2 ^ 32 + 7) <= 5000 /\
  (length ws < 4)%nat /\
  Session.parseType6ObjectDataForStars 4 (encStream ws) = Ret (Some 7) /\
  Forall wfPayload (ps ++ [q]) /\
  (forall p, In p (ps ++ [q]) -> Session.findStarsInCache 5 (snd p) = Ret None) /\
  Session.findStarsInCache 9 (encField (1, 6) ++ encBytesFields (ps ++ [q]))
    = Session.parseType6ObjectDataForStars 5 (snd q) /\
  Session.parseType6ObjectDataForStars 5 (snd q) = Ret (Some 1200) /\
  Forall wfField ([(2, 7)] ++ (2, 1200) :: [(2, 7000)]) /\
  0 <= 1200 <= 5000 /\
  Forall (fun f => (fst f =? 2) && (0 <=? snd f) && (snd f <=? 5000) = false) [(2, 7000)] /\
  (length ([(2, 7)] ++ (2, 1200) :: [(2, 7000)])%Z < 4)%nat /\
  Session.parseType6ObjectDataForStars 4 (encFields ([(2, 7)] ++ (2, 1200) :: [(2, 7000)]))
    = Ret (Some 1200).
Proof.
  intros ps q ws. destruct C10_wrapped_balance_wins as (_ & HB & _ & H1 & H2 & _).
  assert (I7 : int32Varint (2 ^ 32 + 7) = 7) by (vm_compute; reflexivity).
  assert (Ws : Forall wfWire32 ws) by (repeat constructor; cbn; lia).
  assert (R7 : 0 <= int32Varint (2 ^ 32 + 7) <= 5000) by (rewrite I7; lia).
  assert (Ls : (length ws < 4)%nat) by (simpl; lia).
  assert (W : Forall wfPayload (ps ++ [q])).
  { repeat constructor; (now left) || (now right) || (vm_compute; reflexivity). }
  assert (I : forall p, In p (ps ++ [q]) -> Session.findStarsInCache 5 (snd p) = Ret None).
  { intros p [<-|[<-|[]]]; vm_compute; reflexivity. }
  assert (W2 : Forall wfField ([(2, 7)] ++ (2, 1200) :: [(2, 7000)])).
  { repeat constructor; cbn; lia. }
  assert (V : 0 <= 1200 <= 5000) by lia.
  assert (N : Forall (fun f => (fst f =? 2) && (0 <=? snd f) && (snd f <=? 5000) = false)
                [(2, 7000)]) by (repeat constructor).
  assert (L : (length ([(2, 7)] ++ (2, 1200) :: [(2, 7000)])%Z < 4)%nat) by (simpl; lia).
  split; [exact Ws|]. split; [exact R7|]. split; [exact Ls|].
  split; [exact (HB [WVarint 2 5; WVarint 2 1200] [] (2 ^ 32 + 7) 4%nat Ws R7 eq_refl Ls)|].
  split; [exact W|]. split; [exact I|]. split; [exact (H1 ps q 5%nat W I)|].
  split; [vm_compute; reflexivity|].
  split; [exact W2|]. split; [exact V|]. split; [exact N|]. split; [exact L|].
  exact (H2 [(2, 7)] [(2, 7000)] 1200 4%nat W2 V N L).
Defined.

(** * Further properties *)

(** ** The varint codec *)

Lemma encodeVarint_length (n : Z) : 0 <= n ->
  length (Armory.encodeVarint n) = S (Z.to_nat (Z.log2 n / 7)).
Proof.
  intros Hn. generalize Hn. pattern n.
  apply Z_lt_induction; [clear n Hn|exact Hn].
  intros n IH Hn. rewrite encodeVarint_eq.
  destruct (Z.leb_spec 128 n) as [Hge|Hlt].
  - cbn [length]. f_equal.
    assert (Hs7 : 0 <= Z.shiftr n 7 < n).
    { rewrite Z.shiftr_div_pow2 by lia. change (2 ^ 7) with 128. split.
      - apply Z.div_pos; lia.
      - apply Z.div_lt; lia. }
    rewrite IH by lia.
    assert (Hl : 7 <= Z.log2 n) by (apply Z.log2_le_pow2; simpl; lia).
    rewrite Z.log2_shiftr by lia. rewrite Z.max_r by lia.
    replace (Z.log2 n) with ((Z.log2 n - 7) + 1 * 7) at 2 by lia.
    rewrite Z.div_add by lia.
    assert (0 <= (Z.log2 n - 7) / 7) by (apply Z.div_pos; lia). lia.
  - cbn [length]. f_equal.
    destruct (Z.eq_dec n 0) as [->|Hnz]; [reflexivity|].
    assert (Z.log2 n < 7) by (apply Z.log2_lt_pow2; simpl; lia).
    pose proof (Z.log2_nonneg n). rewrite Z.div_small by lia. reflexivity.
Qed.

(** Every byte of an encoding but the last has the continuation bit. *)
Lemma encodeVarint_shape (n : Z) : 0 <= n ->
  exists body final,
    Armory.encodeVarint n = body ++ [final] /\
    allContinue body /\ Z.land (b2z final) 128 = 0.
Proof.
  intros Hn. generalize Hn. pattern n.
  apply Z_lt_induction; [clear n Hn|exact Hn].
  intros n IH Hn. rewrite encodeVarint_eq.
  destruct (Z.leb_spec 128 n) as [Hge|Hlt].
  - assert (Hs7 : 0 <= Z.shiftr n 7 < n).
    { rewrite Z.shiftr_div_pow2 by lia. change (2 ^ 7) with 128. split.
      - apply Z.div_pos; lia.
      - apply Z.div_lt; lia. }
    destruct (IH _ Hs7 ltac:(lia)) as (body & final & E & Hb & Hf).
    exists (z2b (Z.lor (Z.land n 127) 128) :: body), final.
    rewrite E. split; [reflexivity|]. split; [|exact Hf].
    constructor; [|exact Hb].
    assert (Hm : 0 <= n mod 128 < 128) by (apply Z.mod_pos_bound; lia).
    rewrite b2z_z2b, land_127, lor_128 by lia.
    rewrite (Z.mod_small (n mod 128 + 128)) by lia.
    intros E0. apply Z.eqb_eq in E0. rewrite land_128_eqb in E0 by lia.
    apply Z.ltb_lt in E0. lia.
  - exists [], (z2b n). split; [reflexivity|]. split; [constructor|].
    rewrite b2z_z2b, (Z.mod_small n 256) by lia.
    apply Z.eqb_eq. rewrite land_128_eqb by lia. apply Z.ltb_lt. lia.
Qed.

(** No encoding is the start of another. *)
Lemma encodeVarint_prefix_free (a b : Z) (s t : list byte) :
  0 <= a -> 0 <= b ->
  Armory.encodeVarint a ++ s = Armory.encodeVarint b ++ t ->
  a = b /\ s = t.
Proof.
  intros Ha Hb E.
  pose proof (decodeFrom_encodeVarint a Ha s 0 0 0 ltac:(lia)) as Da.
  pose proof (decodeFrom_encodeVarint b Hb t 0 0 0 ltac:(lia)) as Db.
  rewrite E, Db in Da. inversion Da as [[Hv Hl]].
  rewrite ?Z.shiftl_0_r, ?Z.lor_0_l in Hv. subst b. split; [reflexivity|].
  now apply app_inv_head in E.
Qed.

Lemma encodeVarint_negative (n : Z) : n < 0 -> Armory.encodeVarint n = [z2b n].
Proof. intros H. apply encodeVarint_small. lia. Qed.

(** What [readVarint] returns is below [2^(7 * bytesRead)]. *)
Lemma decodeFrom_value_bound (bs : list byte) : forall (r s : Z) (n : nat) v,
  0 <= s -> 0 <= r < 2 ^ s ->
  decodeFrom bs r s n = Some v ->
  0 <= Armory.value v < 2 ^ (s + 7 * (Z.of_nat (Armory.bytesRead v) - Z.of_nat n)).
Proof.
  induction bs as [|b bs IH]; intros r s n v Hs Hr H; simpl in H; [discriminate|].
  pose proof (b2z_range b) as Hb.
  assert (Hm : 0 <= b2z b mod 128 < 128) by (apply Z.mod_pos_bound; lia).
  assert (Hp : 0 < 2 ^ s) by (apply Z.pow_pos_nonneg; lia).
  assert (Hacc : 0 <= Z.lor r (Z.shiftl (Z.land (b2z b) 127) s) < 2 ^ (s + 7)).
  { apply lor_lt_pow2; [lia| |].
    - rewrite Z.pow_add_r by lia. change (2 ^ 7) with 128. nia.
    - rewrite land_127, Z.shiftl_mul_pow2 by lia.
      rewrite Z.pow_add_r by lia. change (2 ^ 7) with 128. nia. }
  destruct (Z.land (b2z b) 128 =? 0).
  - inversion H; subst v; cbn [Armory.value Armory.bytesRead].
    replace (s + 7 * (Z.of_nat (S n) - Z.of_nat n)) with (s + 7) by lia. exact Hacc.
  - pose proof (decodeFrom_bytesRead _ _ _ _ _ H) as Hk.
    apply IH in H; [|lia|exact Hacc].
    replace (s + 7 + 7 * (Z.of_nat (Armory.bytesRead v) - Z.of_nat (S n)))
      with (s + 7 * (Z.of_nat (Armory.bytesRead v) - Z.of_nat n)) in H by lia.
    exact H.
Qed.

Lemma readVarint_value_bound (buffer : list byte) (offset : nat) (v : Armory.Varint) :
  Armory.readVarint buffer offset = Ret (Some v) ->
  0 <= Armory.value v < 2 ^ (7 * Z.of_nat (Armory.bytesRead v)).
Proof.
  rewrite readVarint_decodeFrom. intros H. inversion H as [H'].
  apply decodeFrom_value_bound in H'; [|lia|simpl; lia].
  replace (0 + 7 * (Z.of_nat (Armory.bytesRead v) - Z.of_nat 0))
    with (7 * Z.of_nat (Armory.bytesRead v)) in H' by lia.
  exact H'.
Qed.

Lemma encodeVarint_length_le (x : Z) (k : nat) :
  0 <= x < 2 ^ (7 * Z.of_nat k) -> (0 < k)%nat ->
  (length (Armory.encodeVarint x) <= k)%nat.
Proof.
  intros Hx Hk. rewrite encodeVarint_length by lia.
  destruct (Z.eq_dec x 0) as [->|Hnz]; [simpl; lia|].
  assert (Z.log2 x < 7 * Z.of_nat k) by (apply Z.log2_lt_pow2; lia).
  assert (Z.log2 x / 7 < Z.of_nat k) by (apply Z.div_lt_upper_bound; lia).
  pose proof (Z.log2_nonneg x).
  assert (0 <= Z.log2 x / 7) by (apply Z.div_pos; lia). lia.
Qed.

(** ** [Session.readVarint] outside the buffer *)

Lemma session_readVarint_before_start (buffer : list byte) (offset : Z) :
  offset < 0 ->
  Session.readVarint buffer offset = Ret (Some (Session.mkVarint 0 1)).
Proof.
  intros Hneg. unfold Session.readVarint. cbn [Session.readVarint_loop].
  unfold len. destruct (Z.leb_spec (Z.of_nat (length buffer)) (offset + 0)); [lia|].
  unfold byteAt. destruct (Z.ltb_spec (offset + 0) 0); [|lia].
  reflexivity.
Qed.

Lemma session_readVarint_past_end (buffer : list byte) (offset : Z) :
  len buffer <= offset -> Session.readVarint buffer offset = Ret None.
Proof.
  intros H. unfold Session.readVarint. cbn [Session.readVarint_loop].
  destruct (Z.leb_spec (len buffer) (offset + 0)); [reflexivity|lia].
Qed.

(** ** Reading back a stream of fields *)

Lemma readField_tag (pre rest : list byte) (fn wt : Z) :
  0 <= fn < 2 ^ 28 -> 0 <= wt < 8 ->
  Armory.readVarint (pre ++ Armory.encodeVarint (mkTag fn wt) ++ rest) (length pre)
    = Ret (Some (Armory.mkVarint (mkTag fn wt)
                   (length (Armory.encodeVarint (mkTag fn wt))))) /\
  Z.shiftr (ToInt32 (Number (mkTag fn wt))) 3 = fn /\
  Z.land (ToInt32 (Number (mkTag fn wt))) 7 = wt.
Proof.
  intros Hfn Hwt. destruct (tag_fieldNumber fn wt Hfn Hwt) as (Ht & Hs & Hl).
  fold (mkTag fn wt) in Ht, Hs, Hl.
  split; [apply armory_readVarint_encodeVarint; lia|].
  rewrite Number_small by (unfold two53; lia). cbn [ToInt32].
  rewrite wrap32_small by lia. auto.
Qed.

Lemma readField_encWire (pre suf : list byte) (w : WireField) :
  wfWire w -> Z.of_nat (length pre + length (encWire w)) < two53 ->
  Armory.readField (pre ++ encWire w ++ suf) (length pre)
  = Ret (Some (fieldOf (length pre) w)).
Proof.
  intros [Hfn Hw] Hfit.
  assert (Hwt : 0 <= wireTypeOf w < 8) by (destruct w; simpl; lia).
  unfold encWire in *. rewrite <- app_assoc.
  destruct (readField_tag pre (wireBody w ++ suf) _ _ Hfn Hwt) as (Hr & Hs & Hl).
  unfold Armory.readField. rewrite Hr.
  cbn beta iota zeta delta [bind Armory.value Armory.bytesRead].
  rewrite Hs, Hl. unfold fieldOf, encWire.
  set (tagB := Armory.encodeVarint (mkTag (wireNumber w) (wireTypeOf w))) in *.
  rewrite length_app in *.
  destruct w as [fn v|fn p|fn b|fn b]; cbn [wireTypeOf wireBody wireNumber wireValue] in *.
  - cbn [Z.eqb].
    replace (pre ++ tagB ++ Armory.encodeVarint v ++ suf)
      with ((pre ++ tagB) ++ Armory.encodeVarint v ++ suf) by (now rewrite <- app_assoc).
    rewrite <- length_app. rewrite armory_readVarint_encodeVarint by lia.
    cbn beta iota zeta delta [bind Armory.value Armory.bytesRead].
    rewrite !length_app. do 3 f_equal. lia.
  - cbn [Z.eqb Pos.eqb].
    pose proof (len_nonneg p) as Hp.
    replace (pre ++ tagB ++ (Armory.encodeVarint (len p) ++ p) ++ suf)
      with ((pre ++ tagB) ++ Armory.encodeVarint (len p) ++ (p ++ suf))
      by (now rewrite <- !app_assoc).
    rewrite <- length_app. rewrite armory_readVarint_encodeVarint by lia.
    cbn beta iota zeta delta [bind Armory.value Armory.bytesRead].
    rewrite <- length_app.
    set (prefix := (pre ++ tagB) ++ Armory.encodeVarint (len p)).
    assert (Hlen : Z.of_nat (length prefix) + len p < two53).
    { unfold prefix, len in *. rewrite !length_app in *. lia. }
    rewrite ld_end_exact by (try lia; apply Nat2Z.is_nonneg).
    cbn [Num_gtb].
    replace ((pre ++ tagB) ++ Armory.encodeVarint (len p) ++ p ++ suf)
      with (prefix ++ p ++ suf) by (unfold prefix; now rewrite <- !app_assoc).
    destruct (Z.ltb_spec (len (prefix ++ p ++ suf)) (Z.of_nat (length prefix) + len p))
      as [Hbad|_].
    { rewrite !len_app in Hbad. unfold len in Hbad. lia. }
    change (Z.of_nat (length prefix)) with (len prefix).
    rewrite subarray_middle. do 3 f_equal.
    unfold prefix, len. rewrite !length_app. lia.
  - cbn [Z.eqb Pos.eqb]. rewrite !length_app.
    match goal with
    | |- context [(?a <? ?c)%nat] => destruct (Nat.ltb_spec a c) as [Hbad|_]
    end; [lia|].
    do 3 f_equal. lia.
  - cbn [Z.eqb Pos.eqb]. rewrite !length_app.
    match goal with
    | |- context [(?a <? ?c)%nat] => destruct (Nat.ltb_spec a c) as [Hbad|_]
    end; [lia|].
    do 3 f_equal. lia.
Qed.

Lemma encWire_length_pos (w : WireField) : (0 < length (encWire w))%nat.
Proof.
  unfold encWire. rewrite length_app.
  pose proof (encodeVarint_length_pos (mkTag (wireNumber w) (wireTypeOf w))). lia.
Qed.

Lemma fieldsFrom_encStream (ws : list WireField) : Forall wfWire ws ->
  forall (pre : list byte) (fuel : nat),
  (length ws < fuel)%nat -> fits (pre ++ encStream ws) ->
  fieldsFrom fuel (pre ++ encStream ws) (length pre) = fieldsOf (length pre) ws.
Proof.
  induction 1 as [|w ws Hw _ IH]; intros pre fuel Hf Hfit;
    (destruct fuel as [|fuel]; [simpl in Hf; lia|]); cbn [fieldsFrom fieldsOf].
  - cbn [encStream flat_map]. rewrite app_nil_r, Nat.ltb_irrefl. reflexivity.
  - cbn [encStream flat_map] in *. fold (encStream ws) in *.
    pose proof (encWire_length_pos w) as Hp.
    destruct (Nat.ltb_spec (length pre) (length (pre ++ encWire w ++ encStream ws)))
      as [_|Hbad]; [|rewrite !length_app in Hbad; lia].
    rewrite readField_encWire; [|exact Hw|].
    2:{ unfold fits, len in Hfit. rewrite !length_app in Hfit. lia. }
    f_equal. cbn [fieldOf Armory.nextOffset].
    rewrite <- length_app.
    replace (pre ++ encWire w ++ encStream ws) with ((pre ++ encWire w) ++ encStream ws)
      by (now rewrite <- app_assoc).
    apply IH; [simpl in Hf; lia|]. now rewrite <- app_assoc.
Qed.

Lemma encStream_length_ge (ws : list WireField) : (length ws <= length (encStream ws))%nat.
Proof.
  induction ws as [|w ws IH]; [simpl; lia|].
  cbn [encStream flat_map length]. rewrite length_app.
  pose proof (encWire_length_pos w). fold (encStream ws). lia.
Qed.

(** Decoding a stream of encoded fields gives the fields back. *)
Lemma topFields_encStream (ws : list WireField) :
  Forall wfWire ws -> fits (encStream ws) ->
  topFields (encStream ws) = fieldsOf 0 ws.
Proof.
  intros Hwf Hfit. unfold topFields.
  apply (fieldsFrom_encStream ws Hwf [] (S (length (encStream ws)))); [|exact Hfit].
  pose proof (encStream_length_ge ws). lia.
Qed.

(** ** [parseAttribute] and [parseCSOEconItem] over the fields read *)

Lemma parseAttribute_loop_fold (fuel : nat) (buffer : list byte) :
  fits buffer -> forall offset attr, (length buffer - offset < fuel)%nat ->
  Armory.parseAttribute_loop fuel buffer offset attr
  = Ret (fold_left attrStep (fieldsFrom fuel buffer offset) attr).
Proof.
  intros Hfit. induction fuel as [|fuel IH]; intros offset attr Hf; [lia|].
  cbn [Armory.parseAttribute_loop fieldsFrom].
  scan_step buffer offset f E; try reflexivity.
  pose proof (readField_progress _ _ _ Hfit E).
  cbn [fold_left]. rewrite IH by lia. reflexivity.
Qed.

Lemma parseAttribute_attributeOf (buffer : list byte) : fits buffer ->
  Armory.parseAttribute buffer = Ret (attributeOf buffer).
Proof.
  intros Hfit. unfold Armory.parseAttribute, attributeOf, topFields.
  rewrite parseAttribute_loop_fold by (assumption || lia). reflexivity.
Qed.

Lemma parseCSOEconItem_loop_fold (fuel : nat) (buffer : list byte) :
  fits buffer -> forall offset item, (length buffer - offset < fuel)%nat ->
  Armory.parseCSOEconItem_loop fuel buffer offset item
  = Ret (fold_left itemStep (fieldsFrom fuel buffer offset) item).
Proof.
  intros Hfit. induction fuel as [|fuel IH]; intros offset item Hf; [lia|].
  cbn [Armory.parseCSOEconItem_loop fieldsFrom].
  scan_step buffer offset f E; try reflexivity.
  pose proof (readField_progress _ _ _ Hfit E).
  cbn [fold_left]. unfold itemStep at 2.
  destruct (_ && _ && _) eqn:C.
  - apply andb_prop in C as [C _]. apply andb_prop in C as [_ W]. apply Z.eqb_eq in W.
    pose proof (child_smaller _ _ _ Hfit E W) as Hs.
    rewrite parseAttribute_attributeOf by (eapply fits_le; [exact Hfit|lia]).
    cbn beta iota zeta delta [bind]. rewrite IH by lia. reflexivity.
  - rewrite IH by lia. reflexivity.
Qed.

Lemma parseCSOEconItem_itemOf (buffer : list byte) : fits buffer ->
  Armory.parseCSOEconItem buffer = Ret (itemOf buffer).
Proof.
  intros Hfit. unfold Armory.parseCSOEconItem, itemOf, topFields.
  rewrite parseCSOEconItem_loop_fold by (assumption || lia). reflexivity.
Qed.

(** ** Items and attributes read back *)

Lemma fits_app_l (a b : list byte) : fits (a ++ b) -> fits a.
Proof. unfold fits. rewrite len_app. pose proof (len_nonneg b). lia. Qed.

Lemma fits_app_r (a b : list byte) : fits (a ++ b) -> fits b.
Proof. unfold fits. rewrite len_app. pose proof (len_nonneg a). lia. Qed.

Lemma fits_encWire_bytes (fn : Z) (p : list byte) : fits (encWire (WBytes fn p)) -> fits p.
Proof.
  unfold encWire. cbn [wireBody]. intros H.
  apply fits_app_r in H. now apply fits_app_r in H.
Qed.

Lemma attributeOf_encoded (a : Z * list byte) :
  0 <= fst a < two53 ->
  fits (encStream [WVarint 1 (fst a); WBytes 3 (snd a)]) ->
  attributeOf (encStream [WVarint 1 (fst a); WBytes 3 (snd a)]) = Some (attributeFor a).
Proof.
  intros Hd Hfit. unfold attributeOf. rewrite topFields_encStream; [|repeat constructor|exact Hfit].
  2:{ cbn [wireNumber]. lia. } 2:{ lia. } 2:{ cbn [wireNumber]. lia. }
  cbn [fieldsOf fold_left]. unfold attrStep, fieldOf.
  cbn [Armory.fieldNumber Armory.wireType Armory.fieldValue wireNumber wireTypeOf wireValue
       Z.eqb Pos.eqb andb Armory.isBuffer Armory.bufferOf Armory.NumberOf
       Armory.attr_def_index Armory.value_bytes].
  rewrite Number_small by lia. reflexivity.
Qed.

Lemma itemStep_encAttribute (a : Z * list byte) (offset : nat) (item : Armory.Item) :
  0 <= fst a < two53 -> fits (encWire (encAttribute a)) ->
  itemStep item (fieldOf offset (encAttribute a))
  = Armory.mkItem (Armory.def_index item) (Armory.attribute item ++ [attributeFor a]).
Proof.
  intros Hd Hfit. apply fits_encWire_bytes in Hfit.
  pose proof (attributeOf_encoded a Hd Hfit) as Ea.
  unfold itemStep, fieldOf, encAttribute.
  cbn [Armory.fieldNumber Armory.wireType Armory.fieldValue wireNumber wireTypeOf wireValue
       Z.eqb Pos.eqb andb Armory.isBuffer Armory.bufferOf].
  rewrite Ea. reflexivity.
Qed.

Lemma itemStep_attributes (attrs : list (Z * list byte)) :
  Forall (fun a => 0 <= fst a < two53 /\ fits (encWire (encAttribute a))) attrs ->
  forall (offset : nat) (item : Armory.Item),
  fold_left itemStep (fieldsOf offset (map encAttribute attrs)) item
  = Armory.mkItem (Armory.def_index item)
      (Armory.attribute item ++ map attributeFor attrs).
Proof.
  induction 1 as [|a attrs [Hd Hfit] _ IH]; intros offset item.
  - cbn. rewrite app_nil_r. now destruct item.
  - cbn [map fieldsOf fold_left]. rewrite IH.
    rewrite itemStep_encAttribute by assumption.
    cbn [Armory.def_index Armory.attribute]. now rewrite <- app_assoc.
Qed.

Lemma wfWire_encAttribute (a : Z * list byte) : 0 <= fst a -> wfWire (encAttribute a).
Proof. intros H. split; cbn; [lia|exact I]. Qed.

Lemma encStream_cons (w : WireField) (ws : list WireField) :
  encStream (w :: ws) = encWire w ++ encStream ws.
Proof. reflexivity. Qed.

Lemma encStream_app (ws1 ws2 : list WireField) :
  encStream (ws1 ++ ws2) = encStream ws1 ++ encStream ws2.
Proof. unfold encStream. apply flat_map_app. Qed.

Lemma fits_encStream_each (ws : list WireField) :
  fits (encStream ws) -> Forall (fun w => fits (encWire w)) ws.
Proof.
  induction ws as [|w ws IH]; intros H; constructor.
  - rewrite encStream_cons in H. now apply fits_app_l in H.
  - apply IH. rewrite encStream_cons in H. now apply fits_app_r in H.
Qed.

(** An encoded item is parsed back: its [def_index] and its attributes
    in order. *)
Lemma itemOf_encItem (d : Z) (attrs : list (Z * list byte)) :
  0 < d < two53 -> Forall (fun a => 0 <= fst a < two53) attrs ->
  fits (encItem d attrs) ->
  itemOf (encItem d attrs)
  = Some (Armory.mkItem (Some (Fin d)) (map attributeFor attrs)).
Proof.
  intros Hd Ha Hfit. unfold itemOf, encItem in *.
  rewrite topFields_encStream; [| |exact Hfit].
  2:{ constructor; [split; cbn; lia|].
      apply Forall_map. eapply Forall_impl; [|exact Ha].
      intros a Hr. cbv beta in Hr. apply wfWire_encAttribute. lia. }
  cbn [fieldsOf fold_left]. rewrite itemStep_attributes.
  - unfold itemStep, fieldOf.
    cbn [Armory.fieldNumber Armory.wireType Armory.fieldValue wireNumber wireTypeOf wireValue
         Z.eqb Pos.eqb andb Armory.isBuffer Armory.bufferOf Armory.NumberOf
         Armory.def_index Armory.attribute app].
    rewrite Number_small by lia. unfold Armory.accepted. cbn [Armory.def_index truthy].
    destruct (Z.eqb_spec d 0); [lia|]. reflexivity.
  - rewrite encStream_cons in Hfit. apply fits_app_r in Hfit.
    apply fits_encStream_each in Hfit. rewrite Forall_map in Hfit.
    clear - Ha Hfit. induction Ha as [|a attrs Hr _ IH]; [constructor|].
    inversion Hfit; subst. constructor; [split; assumption|]. now apply IH.
Qed.

(** ** Searching a stream of fields *)

Lemma fieldsOf_app (ws1 ws2 : list WireField) : forall offset : nat,
  fieldsOf offset (ws1 ++ ws2)
  = fieldsOf offset ws1 ++ fieldsOf (offset + length (encStream ws1)) ws2.
Proof.
  induction ws1 as [|w ws1 IH]; intros offset; cbn [app fieldsOf].
  - cbn. now rewrite Nat.add_0_r.
  - rewrite IH, encStream_cons, length_app. cbn [app]. do 3 f_equal. lia.
Qed.

Lemma isVarintField_fieldOf (wanted : Z) (offset : nat) (w : WireField) :
  isVarintField wanted (fieldOf offset w) = isVarintNumbered wanted w.
Proof. reflexivity. Qed.

Lemma find_fieldsOf (wanted : Z) (ws : list WireField) : forall offset : nat,
  firstVarint wanted (fieldsOf offset ws)
  = option_map (fun w => Armory.NumberOf (wireValue w))
      (find (isVarintNumbered wanted) ws).
Proof.
  unfold firstVarint.
  induction ws as [|w ws IH]; intros offset; cbn [fieldsOf find]; [reflexivity|].
  rewrite isVarintField_fieldOf. destruct (isVarintNumbered wanted w); [reflexivity|].
  apply IH.
Qed.

Lemma find_first {A} (p : A -> bool) (l1 l2 : list A) (x : A) :
  forallb (fun y => negb (p y)) l1 = true -> p x = true ->
  find p (l1 ++ x :: l2) = Some x.
Proof.
  induction l1 as [|y l1 IH]; cbn; intros H Hx.
  - now rewrite Hx.
  - apply andb_prop in H as [Hy H]. apply negb_true_iff in Hy. rewrite Hy. auto.
Qed.

Lemma find_none' {A} (p : A -> bool) (l : list A) :
  forallb (fun y => negb (p y)) l = true -> find p l = None.
Proof.
  induction l as [|y l IH]; cbn; intros H; [reflexivity|].
  apply andb_prop in H as [Hy H]. apply negb_true_iff in Hy. rewrite Hy. auto.
Qed.

(** [itemStep] touches [def_index] on a varint field 4 only. *)
Lemma itemStep_def_index (item : Armory.Item) (offset : nat) (w : WireField) :
  isItemIndex w = false ->
  Armory.def_index (itemStep item (fieldOf offset w)) = Armory.def_index item.
Proof.
  intros H. unfold itemStep, fieldOf.
  cbn [Armory.fieldNumber Armory.wireType Armory.fieldValue].
  unfold isItemIndex in H. rewrite H.
  destruct (_ && _ && _); [|reflexivity].
  destruct (attributeOf _); reflexivity.
Qed.

Lemma fold_itemStep_def_index (ws : list WireField) :
  forallb (fun w => negb (isItemIndex w)) ws = true ->
  forall (offset : nat) (item : Armory.Item),
  Armory.def_index (fold_left itemStep (fieldsOf offset ws) item) = Armory.def_index item.
Proof.
  induction ws as [|w ws IH]; cbn [forallb fieldsOf fold_left]; intros H offset item;
    [reflexivity|].
  apply andb_prop in H as [Hw H]. apply negb_true_iff in Hw.
  rewrite IH by assumption. now apply itemStep_def_index.
Qed.

Lemma itemStep_index (item : Armory.Item) (offset : nat) (d : Z) :
  itemStep item (fieldOf offset (WVarint 4 d))
  = Armory.mkItem (Some (Number d)) (Armory.attribute item).
Proof. reflexivity. Qed.

Lemma childrenOf_app (fs1 fs2 : list Armory.Field) :
  childrenOf (fs1 ++ fs2) = childrenOf fs1 ++ childrenOf fs2.
Proof. unfold childrenOf. now rewrite filter_app, map_app. Qed.

Lemma childrenOf_flat (ws : list WireField) :
  forallb (fun w => negb (isNested w)) ws = true ->
  forall offset : nat, childrenOf (fieldsOf offset ws) = [].
Proof.
  induction ws as [|w ws IH]; cbn [forallb fieldsOf]; intros H offset; [reflexivity|].
  apply andb_prop in H as [Hw H]. apply negb_true_iff in Hw.
  change (fieldOf offset w :: fieldsOf (offset + length (encWire w)) ws)
    with ([fieldOf offset w] ++ fieldsOf (offset + length (encWire w)) ws).
  rewrite childrenOf_app, IH by assumption.
  unfold childrenOf, isChild, fieldOf. cbn [filter Armory.wireType].
  unfold isNested in Hw. rewrite Hw. reflexivity.
Qed.

Lemma childrenOf_bytes (fn : Z) (p : list byte) (ws : list WireField) (offset : nat) :
  p <> [] ->
  childrenOf (fieldsOf offset (WBytes fn p :: ws))
  = p :: childrenOf (fieldsOf (offset + length (encWire (WBytes fn p))) ws).
Proof.
  intros Hp. cbn [fieldsOf]. unfold childrenOf. cbn [filter].
  assert (E : isChild (fieldOf offset (WBytes fn p)) = true).
  { unfold isChild, fieldOf.
    cbn [Armory.wireType Armory.fieldValue wireTypeOf wireValue Armory.isBuffer
         Armory.bufferOf Z.eqb Pos.eqb andb].
    apply Z.ltb_lt. destruct p; [contradiction|]. unfold len. cbn [length]. lia. }
  rewrite E. reflexivity.
Qed.

Lemma encItem_nonempty (d : Z) (attrs : list (Z * list byte)) : encItem d attrs <> [].
Proof.
  unfold encItem. rewrite encStream_cons. intros H.
  apply app_eq_nil in H as [H _].
  pose proof (encWire_length_pos (WVarint 4 d)). rewrite H in *. cbn in *. lia.
Qed.

Lemma findCSOEconItem_encItem (d : Z) (attrs : list (Z * list byte)) :
  0 < d < two53 -> Forall (fun a => 0 <= fst a < two53) attrs ->
  fits (encItem d attrs) ->
  Armory.findCSOEconItem (encItem d attrs)
  = Ret (Some (Armory.mkItem (Some (Fin d)) (map attributeFor attrs))).
Proof.
  intros Hd Ha Hfit. rewrite findCSOEconItem_unfold by assumption.
  rewrite parseCSOEconItem_itemOf by assumption.
  rewrite itemOf_encItem by assumption.
  cbn beta iota zeta delta [bind]. unfold Armory.acceptedItem, Armory.accepted.
  cbn [Armory.def_index truthy]. destruct (Z.eqb_spec d 0); [lia|]. reflexivity.
Qed.

Lemma findCSOEconItem_envelope (ws1 ws2 : list WireField) (fn d : Z)
    (attrs : list (Z * list byte)) :
  let buffer := encStream (ws1 ++ WBytes fn (encItem d attrs) :: ws2) in
  Forall wfWire ws1 -> Forall wfWire ws2 -> 0 <= fn < 2 ^ 28 ->
  forallb (fun w => negb (isItemIndex w)) (ws1 ++ ws2) = true ->
  forallb (fun w => negb (isNested w)) ws1 = true ->
  0 < d < two53 -> Forall (fun a => 0 <= fst a < two53) attrs ->
  fits buffer ->
  Armory.findCSOEconItem buffer
  = Ret (Some (Armory.mkItem (Some (Fin d)) (map attributeFor attrs))).
Proof.
  intros buffer Hw1 Hw2 Hfn Hno4 Hflat Hd Ha Hfit.
  assert (Hwf : Forall wfWire (ws1 ++ WBytes fn (encItem d attrs) :: ws2)).
  { apply Forall_app; split; [assumption|]. constructor; [|assumption].
    split; [exact Hfn|exact I]. }
  assert (Hitem : fits (encItem d attrs)).
  { unfold buffer in Hfit. rewrite encStream_app, encStream_cons in Hfit.
    apply fits_app_r in Hfit. apply fits_app_l in Hfit.
    now apply fits_encWire_bytes in Hfit. }
  rewrite forallb_app in Hno4. apply andb_prop in Hno4 as [H41 H42].
  rewrite findCSOEconItem_unfold by assumption.
  rewrite parseCSOEconItem_itemOf by assumption.
  unfold itemOf, children. unfold buffer. rewrite topFields_encStream by assumption.
  unfold Armory.accepted.
  rewrite fold_itemStep_def_index.
  2:{ rewrite forallb_app. rewrite H41. cbn [forallb andb]. rewrite H42.
      unfold isItemIndex. cbn [wireTypeOf Z.eqb]. now rewrite andb_false_r. }
  cbn [Armory.def_index]. cbn beta iota zeta delta [bind Armory.acceptedItem].
  rewrite fieldsOf_app, childrenOf_app, childrenOf_flat by assumption.
  cbn [app]. rewrite childrenOf_bytes by apply encItem_nonempty.
  cbn [firstMatch]. rewrite findCSOEconItem_encItem by assumption.
  cbn beta iota zeta delta [bind]. unfold Armory.acceptedItem, Armory.accepted.
  cbn [Armory.def_index truthy]. destruct (Z.eqb_spec d 0); [lia|]. reflexivity.
Qed.

(** ** First and last occurrence of field 4 *)

Lemma findVarint_encStream (ws : list WireField) (wanted : Z) :
  Forall wfWire ws -> fits (encStream ws) ->
  Armory.findVarint (encStream ws) wanted
  = Ret (option_map (fun w => Armory.NumberOf (wireValue w))
           (find (isVarintNumbered wanted) ws)).
Proof.
  intros Hwf Hfit. rewrite findVarint_fields by assumption.
  rewrite topFields_encStream by assumption. now rewrite find_fieldsOf.
Qed.

Lemma parseCSOEconItem_last_index (ws1 ws2 : list WireField) (d : Z) :
  let buffer := encStream (ws1 ++ WVarint 4 d :: ws2) in
  Forall wfWire (ws1 ++ WVarint 4 d :: ws2) ->
  forallb (fun w => negb (isItemIndex w)) ws2 = true ->
  0 < d < two53 -> fits buffer ->
  exists attrs,
    Armory.parseCSOEconItem buffer = Ret (Some (Armory.mkItem (Some (Fin d)) attrs)).
Proof.
  intros buffer Hwf H2 Hd Hfit.
  rewrite parseCSOEconItem_itemOf by assumption.
  unfold itemOf, buffer. rewrite topFields_encStream by assumption.
  rewrite fieldsOf_app. cbn [fieldsOf]. rewrite fold_left_app. cbn [fold_left].
  rewrite itemStep_index.
  set (it := fold_left itemStep _ (Armory.mkItem (Some (Number d)) _)).
  assert (Hi : Armory.def_index it = Some (Fin d)).
  { unfold it. rewrite fold_itemStep_def_index by assumption.
    cbn [Armory.def_index]. now rewrite Number_small by lia. }
  unfold Armory.accepted. rewrite Hi. cbn [truthy].
  destruct (Z.eqb_spec d 0); [lia|]. cbn [negb].
  exists (Armory.attribute it). destruct it; cbn in *. now rewrite Hi.
Qed.

(** ** The welcome message *)

Lemma parseClientWelcomeManual_loop_range (fuel : nat) :
  forall payload offset r,
  SteamClient.parseClientWelcomeManual_loop fuel payload offset = Ret r -> inRange r.
Proof.
  induction fuel as [|fuel IH]; intros payload offset r H; [discriminate|].
  cbn [SteamClient.parseClientWelcomeManual_loop] in H.
  destruct (offset <? len payload); [|now inversion H].
  destruct (Session.readVarint payload offset) as [[tag|]| |];
    cbn [bind] in H; try discriminate; [|now inversion H].
  destruct (_ =? 2).
  { destruct (Session.readVarint payload _) as [[l|]| |];
      cbn [bind] in H; try discriminate; [|now inversion H].
    destruct (Session.findStarsInCache fuel _) as [[inner|]| |] eqn:E;
      cbn [bind] in H; try discriminate.
    - inversion H; subst. unfold Session.findStarsInCache in E.
      eapply findStarsInCache_loop_range; exact E.
    - eapply IH; exact H. }
  destruct (Session.skipByWireType _ _ _) as [[next|]| |];
    cbn [bind] in H; try discriminate; [|now inversion H].
  eapply IH; exact H.
Qed.

Lemma parseClientWelcomeManual_range (fuel : nat) (payload : list byte) (r : option Z) :
  SteamClient.parseClientWelcomeManual fuel payload = Ret r -> inRange r.
Proof.
  unfold SteamClient.parseClientWelcomeManual.
  destruct (len payload =? 0); [now intros H; inversion H|].
  apply parseClientWelcomeManual_loop_range.
Qed.

Lemma gcHandler_range (fuel : nat) (stars : option Z) (appid msgType : Z)
    (payload : list byte) (r : option Z) :
  inRange stars ->
  SteamClient.gcHandler fuel stars appid msgType payload = Ret r -> inRange r.
Proof.
  intros Hs. unfold SteamClient.gcHandler.
  destruct (_ || _); [now intros H; inversion H; subst|].
  destruct (SteamClient.parseClientWelcomeManual fuel payload) as [[s|]| |] eqn:E;
    intros H; inversion H; subst; try assumption.
  eapply parseClientWelcomeManual_range; exact E.
Qed.

Lemma gcHandlerAll_range (fuel : nat) (msgs : list (Z * Z * list byte)) :
  forall (stars r : option Z), inRange stars ->
  SteamClient.gcHandlerAll fuel stars msgs = Ret r -> inRange r.
Proof.
  induction msgs as [|[[appid msgType] payload] msgs IH]; intros stars r Hs H.
  - inversion H; subst. exact Hs.
  - cbn [SteamClient.gcHandlerAll] in H.
    destruct (SteamClient.gcHandler fuel stars appid msgType payload) as [s'| |] eqn:E;
      cbn [bind] in H; try discriminate.
    eapply IH; [|exact H]. eapply gcHandler_range; eassumption.
Qed.

(** The balance held after some messages is the one held before, or the
    one parsed from a welcome message of the game among them. *)
Lemma gcHandlerAll_origin (fuel : nat) (msgs : list (Z * Z * list byte)) :
  forall (stars r : option Z),
  SteamClient.gcHandlerAll fuel stars msgs = Ret r ->
  r = stars \/
  exists payload,
    In (SteamClient.APP_ID, SteamClient.MSG_CLIENT_WELCOME, payload) msgs /\
    SteamClient.parseClientWelcomeManual fuel payload = Ret r.
Proof.
  induction msgs as [|[[appid msgType] payload] msgs IH]; intros stars r H.
  - inversion H; subst. now left.
  - cbn [SteamClient.gcHandlerAll] in H.
    destruct (SteamClient.gcHandler fuel stars appid msgType payload) as [s'| |] eqn:E;
      cbn [bind] in H; try discriminate.
    destruct (IH _ _ H) as [->|(p & Hin & Hp)].
    + unfold SteamClient.gcHandler in E.
      destruct (Z.eqb_spec appid SteamClient.APP_ID) as [->|];
        [|cbn in E; inversion E; now left].
      destruct (Z.eqb_spec msgType SteamClient.MSG_CLIENT_WELCOME) as [->|];
        [|cbn in E; inversion E; now left].
      cbn [negb orb] in E.
      destruct (SteamClient.parseClientWelcomeManual fuel payload) as [[s|]| |] eqn:P;
        inversion E; subst; try (now left).
      right. exists payload. split; [now left|exact P].
    + right. exists p. split; [now right|exact Hp].
Qed.

(** A message of another application or of another type changes nothing. *)
Lemma gcHandlerAll_foreign (fuel : nat) (msgs : list (Z * Z * list byte)) :
  forall stars : option Z,
  Forall (fun m => fst (fst m) <> SteamClient.APP_ID \/
                   snd (fst m) <> SteamClient.MSG_CLIENT_WELCOME) msgs ->
  SteamClient.gcHandlerAll fuel stars msgs = Ret stars.
Proof.
  intros stars H. induction H as [|[[appid msgType] payload] msgs Hm _ IH];
    [reflexivity|].
  cbn [SteamClient.gcHandlerAll fst snd] in *. unfold SteamClient.gcHandler.
  assert (E : negb (appid =? SteamClient.APP_ID)
              || negb (msgType =? SteamClient.MSG_CLIENT_WELCOME) = true).
  { destruct Hm as [Hm|Hm]; apply Z.eqb_neq in Hm; rewrite Hm; cbn;
      [reflexivity|apply orb_true_r]. }
  rewrite E. cbn [bind]. exact IH.
Qed.

Lemma parseClientWelcomeManual_loop_mono (fuel : nat) :
  forall payload offset r,
  SteamClient.parseClientWelcomeManual_loop fuel payload offset = Ret r ->
  SteamClient.parseClientWelcomeManual_loop (S fuel) payload offset = Ret r.
Proof.
  induction fuel as [|fuel IH]; intros payload offset r H; [discriminate|].
  cbn [SteamClient.parseClientWelcomeManual_loop] in H.
  remember (S fuel) as n. cbn [SteamClient.parseClientWelcomeManual_loop]. subst n.
  destruct (offset <? len payload); [|exact H].
  destruct (Session.readVarint payload offset) as [[tag|]| |];
    cbn [bind] in *; try discriminate; [|exact H].
  destruct (_ =? 2).
  { destruct (Session.readVarint payload _) as [[l|]| |];
      cbn [bind] in *; try discriminate; [|exact H].
    destruct (Session.findStarsInCache fuel _) as [[inner|]| |] eqn:E;
      cbn [bind] in H; try discriminate.
    - apply (findStarsInCache_mono _ 1) in E. cbn [plus] in E. rewrite E.
      cbn [bind]. exact H.
    - apply (findStarsInCache_mono _ 1) in E. cbn [plus] in E. rewrite E.
      cbn [bind]. apply IH. exact H. }
  destruct (Session.skipByWireType _ _ _) as [[next|]| |];
    cbn [bind] in *; try discriminate; [|exact H].
  apply IH. exact H.
Qed.

Lemma parseClientWelcomeManual_mono (fuel extra : nat) (payload : list byte) (r : option Z) :
  SteamClient.parseClientWelcomeManual fuel payload = Ret r ->
  SteamClient.parseClientWelcomeManual (extra + fuel) payload = Ret r.
Proof.
  unfold SteamClient.parseClientWelcomeManual.
  destruct (len payload =? 0); [auto|].
  intros H. induction extra as [|extra IH]; [exact H|].
  cbn [plus]. now apply parseClientWelcomeManual_loop_mono.
Qed.

(** The loop on a varint field: it is passed over. *)
Lemma parseClientWelcomeManual_loop_field (f : Z * Z) (pre rest : list byte)
    (fuel : nat) : wfField f ->
  SteamClient.parseClientWelcomeManual_loop (S fuel)
    (pre ++ encField f ++ rest) (len pre)
  = SteamClient.parseClientWelcomeManual_loop fuel
      ((pre ++ encField f) ++ rest) (len (pre ++ encField f)).
Proof.
  destruct f as [fn v]. intros [Hfn Hv]. cbn [fst snd] in Hfn, Hv.
  destruct (js_tag fn 0 Hfn ltac:(lia)) as (Ht & Hs & Hl).
  pose proof (len_nonneg rest) as Hr.
  set (tagB := Armory.encodeVarint (mkTag fn 0)).
  set (valB := Armory.encodeVarint v).
  assert (Hp1 : 0 < len tagB) by apply len_encodeVarint_pos.
  assert (Hp2 : 0 < len valB) by apply len_encodeVarint_pos.
  assert (E : encField (fn, v) = tagB ++ valB) by reflexivity.
  rewrite E.
  replace (pre ++ (tagB ++ valB) ++ rest)
    with (pre ++ tagB ++ valB ++ rest) by (now rewrite <- !app_assoc).
  cbn [SteamClient.parseClientWelcomeManual_loop].
  destruct (Z.ltb_spec (len pre) (len (pre ++ tagB ++ valB ++ rest)))
    as [_|Hbad]; [|rewrite !len_app in Hbad; lia].
  unfold tagB at 1. rewrite session_readVarint_encodeVarint by lia.
  cbn [bind Session.value Session.bytesRead]. rewrite Hl. cbn [Z.eqb].
  fold tagB. unfold Session.skipByWireType. cbn [Z.eqb].
  replace (pre ++ tagB ++ valB ++ rest)
    with ((pre ++ tagB) ++ valB ++ rest) by (now rewrite <- app_assoc).
  rewrite <- len_app.
  unfold valB at 1. rewrite session_readVarint_encodeVarint by lia.
  cbn [bind Session.value Session.bytesRead]. fold valB. rewrite <- len_app.
  replace ((pre ++ tagB) ++ valB ++ rest)
    with ((pre ++ tagB ++ valB) ++ rest) by (now rewrite <- !app_assoc).
  replace ((pre ++ tagB) ++ valB) with (pre ++ tagB ++ valB)
    by (now rewrite <- !app_assoc).
  reflexivity.
Qed.


(** The loop on a length-delimited field: its content goes to
    [findStarsInCache]. *)
Lemma parseClientWelcomeManual_loop_bytes (pre rest cache : list byte) (fn : Z)
    (fuel : nat) :
  0 <= fn < 2 ^ 28 -> len cache < 2 ^ 31 ->
  SteamClient.parseClientWelcomeManual_loop (S fuel)
    (pre ++ encBytes (fn, cache) ++ rest) (len pre)
  = (stars <- Session.findStarsInCache fuel cache ;;
     match stars with
     | Some s => Ret (Some s)
     | None =>
       SteamClient.parseClientWelcomeManual_loop fuel
         ((pre ++ encBytes (fn, cache)) ++ rest) (len (pre ++ encBytes (fn, cache)))
     end).
Proof.
  intros Hfn Hc.
  destruct (js_tag fn 2 Hfn ltac:(lia)) as (Ht & Hs & Hl).
  pose proof (len_nonneg cache) as Hc0. pose proof (len_nonneg rest) as Hr.
  set (tagB := Armory.encodeVarint (mkTag fn 2)).
  set (lenB := Armory.encodeVarint (len cache)).
  assert (Hp1 : 0 < len tagB) by apply len_encodeVarint_pos.
  assert (Hp2 : 0 < len lenB) by apply len_encodeVarint_pos.
  assert (E : encBytes (fn, cache) = tagB ++ lenB ++ cache) by reflexivity.
  rewrite E.
  replace (pre ++ (tagB ++ lenB ++ cache) ++ rest)
    with (pre ++ tagB ++ lenB ++ cache ++ rest) by (now rewrite <- !app_assoc).
  cbn [SteamClient.parseClientWelcomeManual_loop].
  destruct (Z.ltb_spec (len pre) (len (pre ++ tagB ++ lenB ++ cache ++ rest)))
    as [_|Hbad]; [|rewrite !len_app in Hbad; lia].
  unfold tagB at 1. rewrite session_readVarint_encodeVarint by lia.
  cbn [bind Session.value Session.bytesRead]. rewrite Hl. cbn [Z.eqb Pos.eqb].
  fold tagB.
  replace (pre ++ tagB ++ lenB ++ cache ++ rest)
    with ((pre ++ tagB) ++ lenB ++ cache ++ rest) by (now rewrite <- app_assoc).
  rewrite <- len_app.
  unfold lenB at 1. rewrite session_readVarint_encodeVarint by lia.
  cbn [bind Session.value Session.bytesRead]. fold lenB. rewrite <- len_app.
  replace ((pre ++ tagB) ++ lenB ++ cache ++ rest)
    with (((pre ++ tagB) ++ lenB) ++ cache ++ rest) by (now rewrite <- !app_assoc).
  rewrite subarray_middle. rewrite <- len_app.
  replace ((((pre ++ tagB) ++ lenB) ++ cache))
    with (pre ++ tagB ++ lenB ++ cache) by (now rewrite <- !app_assoc).
  replace (((pre ++ tagB) ++ lenB) ++ cache ++ rest)
    with ((pre ++ tagB ++ lenB ++ cache) ++ rest) by (now rewrite <- !app_assoc).
  reflexivity.
Qed.

Lemma encBytes_nonempty (p : Z * list byte) (rest : list byte) : encBytes p ++ rest <> [].
Proof.
  unfold encBytes. intros H. apply app_eq_nil in H as [H _].
  apply app_eq_nil in H as [H _].
  pose proof (len_encodeVarint_pos (mkTag (fst p) 2)). rewrite H in *.
  unfold len in *. cbn in *. lia.
Qed.

Lemma len_pos_nonempty (l : list byte) : l <> [] -> (len l =? 0) = false.
Proof. destruct l; [contradiction|]. intros _. unfold len. cbn [length]. apply Z.eqb_neq. lia. Qed.


(** A cache on which [findStarsInCache] does not end stops the whole
    message. *)
Lemma parseClientWelcomeManual_loop_diverges (fs : list (Z * Z)) (fn : Z)
    (cache rest : list byte) :
  Forall wfField fs -> 0 <= fn < 2 ^ 28 -> len cache < 2 ^ 31 ->
  (forall fuel, Session.findStarsInCache fuel cache = OutOfFuel) ->
  forall (pre : list byte) (fuel : nat),
  SteamClient.parseClientWelcomeManual_loop fuel
    (pre ++ encFields fs ++ encBytes (fn, cache) ++ rest) (len pre) = OutOfFuel.
Proof.
  intros Hwf Hfn Hc Hv. induction Hwf as [|f fs Hf _ IH]; intros pre fuel.
  - destruct fuel as [|fuel]; [reflexivity|].
    cbn [encFields flat_map app].
    rewrite parseClientWelcomeManual_loop_bytes by assumption.
    now rewrite Hv.
  - destruct fuel as [|fuel]; [reflexivity|].
    cbn [encFields flat_map]. fold (encFields fs). rewrite <- app_assoc.
    rewrite parseClientWelcomeManual_loop_field by assumption.
    apply IH.
Qed.

Lemma parseClientWelcomeManual_diverges (fs : list (Z * Z)) (fn : Z)
    (cache rest : list byte) :
  Forall wfField fs -> 0 <= fn < 2 ^ 28 -> len cache < 2 ^ 31 ->
  (forall fuel, Session.findStarsInCache fuel cache = OutOfFuel) ->
  forall fuel,
  SteamClient.parseClientWelcomeManual fuel
    (encFields fs ++ encBytes (fn, cache) ++ rest) = OutOfFuel.
Proof.
  intros Hwf Hfn Hc Hv fuel. unfold SteamClient.parseClientWelcomeManual.
  rewrite len_pos_nonempty.
  2:{ intros H. apply app_eq_nil in H as [_ H]. now apply encBytes_nonempty in H. }
  change (encFields fs ++ encBytes (fn, cache) ++ rest)
    with ([] ++ encFields fs ++ encBytes (fn, cache) ++ rest).
  change 0 with (len []).
  now apply parseClientWelcomeManual_loop_diverges.
Qed.

(** ** The outcome of a purchase *)

Lemma findCSOEconItem_flat (ws : list WireField) :
  Forall wfWire ws ->
  forallb (fun w => negb (isItemIndex w)) ws = true ->
  forallb (fun w => negb (isNested w)) ws = true ->
  fits (encStream ws) ->
  Armory.findCSOEconItem (encStream ws) = Ret None.
Proof.
  intros Hwf H4 Hflat Hfit.
  rewrite findCSOEconItem_unfold by assumption.
  rewrite parseCSOEconItem_itemOf by assumption.
  unfold itemOf, children. rewrite topFields_encStream by assumption.
  unfold Armory.accepted. rewrite fold_itemStep_def_index by assumption.
  cbn [Armory.def_index]. cbn beta iota zeta delta [bind Armory.acceptedItem].
  now rewrite childrenOf_flat.
Qed.

Section PurchaseOutcome.

Variables armoryId currentStars itemPrice : Z.

Local Abbreviation handle := (Purchase.handle armoryId currentStars itemPrice).
Local Abbreviation run := (Purchase.run armoryId currentStars itemPrice).

Lemma run_snoc (evs : list Purchase.Event) (ev : Purchase.Event) (st : Purchase.State) :
  run (evs ++ [ev]) st = handle (run evs st) ev.
Proof. unfold Purchase.run. now rewrite fold_left_app. Qed.

Lemma resolvedBy_more (evs : list Purchase.Event) (ev : Purchase.Event)
    (data : option Purchase.Data) :
  resolvedBy currentStars itemPrice evs data ->
  resolvedBy currentStars itemPrice (evs ++ [ev]) data.
Proof.
  intros (d & payload & H1 & H2 & H3 & H4 & H5 & H6 & H7).
  exists d, payload. repeat split; try assumption. apply in_or_app. now left.
Qed.

Lemma rejectedBy_more (evs : list Purchase.Event) (ev : Purchase.Event)
    (err : option Purchase.Error) :
  rejectedBy evs err -> rejectedBy (evs ++ [ev]) err.
Proof.
  destruct err as [[| |e|]|]; cbn [rejectedBy]; try (intros H; apply in_or_app; now left).
  - intros (payload & H1 & H2). exists payload. split; [apply in_or_app; now left|exact H2].
  - auto.
Qed.

(** The log after [settle]: unchanged, or the cleanup and one outcome
    more. *)
Lemma settle_log (err : option Purchase.Error) (ok : bool)
    (data : option Purchase.Data) (st : Purchase.State) (e : Purchase.Effect) :
  In e (Purchase.log (Purchase.settle err ok data st)) ->
  In e (Purchase.log st) \/ In e Purchase.cleanupOnce \/
  (ok = true /\ e = Purchase.Resolve data) \/ (ok = false /\ e = Purchase.Reject err).
Proof.
  unfold Purchase.settle. destruct (Purchase.settled st); [now left|].
  cbn [Purchase.log]. intros H. apply in_app_or in H as [H|H]; [now left|].
  right. unfold Purchase.cleanupOnce. cbn [In] in *.
  destruct H as [<-|[<-|[<-|[<-|[<-|[<-|[]]]]]]]; auto 10.
  right. destruct ok; [left|right]; auto.
Qed.

Lemma cleanupOnce_no_outcome (e : Purchase.Effect) :
  In e Purchase.cleanupOnce -> Purchase.isCleanup e = true.
Proof.
  unfold Purchase.cleanupOnce. cbn [In].
  intros [<-|[<-|[<-|[<-|[<-|[]]]]]]; reflexivity.
Qed.

Lemma run_outcomes_origin (evs : list Purchase.Event) :
  (forall data, In (Purchase.Resolve data) (Purchase.log (run evs Purchase.initial)) ->
     resolvedBy currentStars itemPrice evs data) /\
  (forall err, In (Purchase.Reject err) (Purchase.log (run evs Purchase.initial)) ->
     rejectedBy evs err).
Proof.
  induction evs as [|ev evs [IHr IHj]] using rev_ind.
  - split; intros ? [].
  - rewrite run_snoc. set (st := run evs Purchase.initial) in *.
    assert (Hsettle : forall err data ok,
      (ok = true -> resolvedBy currentStars itemPrice (evs ++ [ev]) data) ->
      (ok = false -> rejectedBy (evs ++ [ev]) err) ->
      (forall data', In (Purchase.Resolve data')
                       (Purchase.log (Purchase.settle err ok data st)) ->
         resolvedBy currentStars itemPrice (evs ++ [ev]) data') /\
      (forall err', In (Purchase.Reject err')
                      (Purchase.log (Purchase.settle err ok data st)) ->
         rejectedBy (evs ++ [ev]) err')).
    { intros err data ok Hok Hno. split.
      - intros data' H. apply settle_log in H as [H|[H|[[E H]|[E H]]]].
        + apply resolvedBy_more. now apply IHr.
        + apply cleanupOnce_no_outcome in H. discriminate.
        + inversion H; subst. now apply Hok.
        + discriminate.
      - intros err' H. apply settle_log in H as [H|[H|[[E H]|[E H]]]].
        + apply rejectedBy_more. now apply IHj.
        + apply cleanupOnce_no_outcome in H. discriminate.
        + discriminate.
        + inversion H; subst. now apply Hno. }
    assert (Hkeep :
      (forall data', In (Purchase.Resolve data') (Purchase.log st) ->
         resolvedBy currentStars itemPrice (evs ++ [ev]) data') /\
      (forall err', In (Purchase.Reject err') (Purchase.log st) ->
         rejectedBy (evs ++ [ev]) err')).
    { split; intros; [apply resolvedBy_more|apply rejectedBy_more]; auto. }
    assert (Hlast : In ev (evs ++ [ev])) by (apply in_or_app; right; now left).
    destruct ev as [|e| | | |appid msgType payload]; cbn [Purchase.handle].
    + apply Hsettle; [discriminate|intros _; exact Hlast].
    + apply Hsettle; [discriminate|intros _; exact Hlast].
    + apply Hsettle; [discriminate|intros _; exact Hlast].
    + cbn [Purchase.log]. destruct Hkeep as [K1 K2].
      split; intros x H; apply in_app_or in H as [H|H]; auto;
        cbn [In] in H; destruct H as [H|[H|[]]]; discriminate.
    + cbn [Purchase.log]. destruct Hkeep as [K1 K2].
      split; intros x H; apply in_app_or in H as [H|H]; auto;
        cbn [In] in H; destruct H as [H|[]]; discriminate.
    + destruct (Z.eqb_spec appid Purchase.APP_ID) as [->|]; [|exact Hkeep].
      destruct (Z.eqb_spec msgType Purchase.MSG_ESO_CREATE) as [->|]; [|exact Hkeep].
      cbn [negb].
      destruct (Armory.findCSOEconItem payload) as [[it|]| |] eqn:F; try exact Hkeep.
      * assert (A : Armory.accepted it = true).
        { unfold Armory.findCSOEconItem in F.
          eapply findCSOEconItem_fuel_accepted; exact F. }
        rewrite A. apply Hsettle; [intros _|discriminate].
        eexists _, payload. split; [reflexivity|].
        cbn [Purchase.success Purchase.newStars Purchase.defIndex Purchase.item].
        repeat split; assumption.
      * apply Hsettle; [discriminate|intros _].
        cbn [rejectedBy]. exists payload. split; assumption.
Qed.


Lemma run_rejects_unparsed (pre post : list Purchase.Event) (payload : list byte) :
  forallb Purchase.passive pre = true ->
  Armory.findCSOEconItem payload = Ret None ->
  Purchase.outcomes
    (run (pre ++ Purchase.OnReceivedFromGC Purchase.APP_ID Purchase.MSG_ESO_CREATE payload
              :: post) Purchase.initial)
  = [Purchase.Reject (Some Purchase.CouldNotParse)].
Proof.
  intros Hpre F. rewrite run_app.
  destruct (run_passive armoryId currentStars itemPrice pre Purchase.initial Hpre)
    as (S & O & C).
  cbn [Purchase.run fold_left Purchase.handle].
  rewrite !Z.eqb_refl. cbn [negb]. rewrite F.
  destruct (settle_first (Some Purchase.CouldNotParse) false None _ S) as (S' & O' & C').
  destruct (run_settled armoryId currentStars itemPrice post _ S') as (_ & O'' & _).
  unfold Purchase.run in *. rewrite O'', O', O. reflexivity.
Qed.

(** The request sent on every connection to the coordinator. *)
Lemma run_requests (evs : list Purchase.Event) (appid msgType : Z) (body : list byte) :
  In (Purchase.SendToGC appid msgType body) (Purchase.log (run evs Purchase.initial)) ->
  appid = Purchase.APP_ID /\ msgType = Purchase.MSG_GC_REDEEM /\
  body = Armory.encodeRedeemBody armoryId currentStars itemPrice /\
  In Purchase.OnConnectedToGC evs.
Proof.
  induction evs as [|ev evs IH] using rev_ind; [intros []|].
  rewrite run_snoc. set (st := run evs Purchase.initial) in *.
  assert (Hkeep : In (Purchase.SendToGC appid msgType body) (Purchase.log st) ->
            appid = Purchase.APP_ID /\ msgType = Purchase.MSG_GC_REDEEM /\
            body = Armory.encodeRedeemBody armoryId currentStars itemPrice /\
            In Purchase.OnConnectedToGC (evs ++ [ev])).
  { intros H. destruct (IH H) as (? & ? & ? & ?). repeat split; try assumption.
    apply in_or_app. now left. }
  assert (Hsettle : forall err ok data,
            In (Purchase.SendToGC appid msgType body)
              (Purchase.log (Purchase.settle err ok data st)) ->
            In (Purchase.SendToGC appid msgType body) (Purchase.log st)).
  { intros err ok data H. apply settle_log in H as [H|[H|[[_ H]|[_ H]]]];
      [exact H| |discriminate|discriminate].
    apply cleanupOnce_no_outcome in H. discriminate. }
  destruct ev as [|e| | | |appid' msgType' payload]; cbn [Purchase.handle];
    try (intros H; apply Hsettle in H; now apply Hkeep).
  - cbn [Purchase.log]. intros H. apply in_app_or in H as [H|H]; [now apply Hkeep|].
    cbn [In] in H. destruct H as [H|[H|[]]]; discriminate.
  - cbn [Purchase.log]. intros H. apply in_app_or in H as [H|H]; [now apply Hkeep|].
    cbn [In] in H. destruct H as [H|[]]. inversion H; subst.
    repeat split. apply in_or_app. right. now left.
  - destruct (negb _); [exact Hkeep|]. destruct (negb _); [exact Hkeep|].
    destruct (Armory.findCSOEconItem payload) as [[it|]| |]; try exact Hkeep;
      [destruct (Armory.accepted it)|]; intros H; apply Hsettle in H; now apply Hkeep.
Qed.

End PurchaseOutcome.

(** ** The login promise *)

Lemma login_run_snoc (evs : list Login.Event) (ev : Login.Event) (st : Login.State) :
  Login.run (evs ++ [ev]) st = Login.handle (Login.run evs st) ev.
Proof. unfold Login.run. now rewrite fold_left_app. Qed.

Lemma login_run_app (evs1 evs2 : list Login.Event) (st : Login.State) :
  Login.run (evs1 ++ evs2) st = Login.run evs2 (Login.run evs1 st).
Proof. unfold Login.run. apply fold_left_app. Qed.

Lemma finishReject_done (e : Login.Error) (st : Login.State) :
  Login.done st = true -> Login.finishReject e st = st.
Proof. intros H. unfold Login.finishReject. now rewrite H. Qed.

Lemma finishResolve_done (token : option string) (st : Login.State) :
  Login.done st = true -> Login.finishResolve token st = st.
Proof. intros H. unfold Login.finishResolve. now rewrite H. Qed.

Lemma login_handle_done (st : Login.State) (ev : Login.Event) :
  Login.done st = true ->
  Login.done (Login.handle st ev) = true /\
  Login.outcomes (Login.handle st ev) = Login.outcomes st.
Proof.
  intros H. destruct ev as [|e| | |t|]; cbn [Login.handle];
    rewrite ?finishReject_done by exact H; auto.
  - unfold Login.releaseToken. destruct (negb _); [auto|].
    rewrite finishResolve_done by exact H. auto.
  - unfold Login.outcomes. cbn [Login.done Login.log]. rewrite filter_app. cbn.
    rewrite app_nil_r. auto.
  - unfold Login.releaseToken. destruct (negb _); [auto|].
    rewrite finishResolve_done by exact H. auto.
Qed.

Lemma login_handle_settledOnce (st : Login.State) (ev : Login.Event) :
  loginSettledOnce st -> loginSettledOnce (Login.handle st ev).
Proof.
  intros [(D & O)|(D & O)].
  - assert (Hrej : forall e, loginSettledOnce (Login.finishReject e st)).
    { intros e. right. unfold Login.finishReject. rewrite D.
      unfold Login.outcomes in *. cbn [Login.done Login.log].
      rewrite filter_app, O. cbn. eauto. }
    assert (Hrel : loginSettledOnce (Login.releaseToken st)).
    { unfold Login.releaseToken. destruct (negb _); [left; auto|].
      right. unfold Login.finishResolve. cbn [Login.done Login.log]. rewrite D.
      unfold Login.outcomes in *. cbn [Login.done Login.log].
      rewrite filter_app, O. cbn. eauto. }
    destruct ev as [|e| | |t|]; cbn [Login.handle]; auto.
    + left. auto.
    + left. unfold Login.outcomes in *. cbn [Login.done Login.log].
      rewrite filter_app, O. cbn. auto.
  - destruct (login_handle_done st ev D) as (D' & O').
    right. rewrite D', O'. auto.
Qed.

Lemma login_run_settledOnce (evs : list Login.Event) (st : Login.State) :
  loginSettledOnce st -> loginSettledOnce (Login.run evs st).
Proof.
  revert st. induction evs as [|ev evs IH]; intros st H; [exact H|].
  cbn [Login.run fold_left]. apply IH. now apply login_handle_settledOnce.
Qed.

Lemma login_run_done (evs : list Login.Event) (st : Login.State) :
  Login.done st = true ->
  Login.done (Login.run evs st) = true /\
  Login.outcomes (Login.run evs st) = Login.outcomes st.
Proof.
  revert st. induction evs as [|ev evs IH]; intros st H; [auto|].
  cbn [Login.run fold_left].
  destruct (login_handle_done st ev H) as (D' & O').
  destruct (IH _ D') as (D'' & O''). unfold Login.run in *.
  rewrite D'', O''. auto.
Qed.

Lemma tokenFrom_more (evs : list Login.Event) (ev : Login.Event) (token : option string) :
  tokenFrom evs token -> tokenFrom (evs ++ [ev]) token.
Proof. intros (t & E & H). exists t. split; [exact E|apply in_or_app; now left]. Qed.

(** The token kept while waiting for the disconnection, and every token
    the promise was resolved with, came in a [refreshToken] event. *)
Lemma login_run_token (evs : list Login.Event) :
  let st := Login.run evs Login.initial in
  (Login.waitingDisconnect st = true -> tokenFrom evs (Login.pendingToken st)) /\
  (forall token, In (Login.Resolve token) (Login.log st) -> tokenFrom evs token).
Proof.
  induction evs as [|ev evs [IHw IHr]] using rev_ind.
  - split; [discriminate|intros ? []].
  - rewrite login_run_snoc. set (st := Login.run evs Login.initial) in *.
    assert (Hkeep :
      (Login.waitingDisconnect st = true ->
         tokenFrom (evs ++ [ev]) (Login.pendingToken st)) /\
      (forall token, In (Login.Resolve token) (Login.log st) ->
         tokenFrom (evs ++ [ev]) token)).
    { split; intros; apply tokenFrom_more; auto. }
    assert (Hrej : forall e,
      (Login.waitingDisconnect (Login.finishReject e st) = true ->
         tokenFrom (evs ++ [ev]) (Login.pendingToken (Login.finishReject e st))) /\
      (forall token, In (Login.Resolve token) (Login.log (Login.finishReject e st)) ->
         tokenFrom (evs ++ [ev]) token)).
    { intros e. unfold Login.finishReject. destruct (Login.done st); [exact Hkeep|].
      cbn [Login.waitingDisconnect Login.pendingToken Login.log].
      split; [apply Hkeep|]. intros token H.
      apply in_app_or in H as [H|H]; [now apply Hkeep|].
      cbn in H. repeat (destruct H as [H|H]; [discriminate|]). destruct H. }
    assert (Hrel :
      (Login.waitingDisconnect (Login.releaseToken st) = true ->
         tokenFrom (evs ++ [ev]) (Login.pendingToken (Login.releaseToken st))) /\
      (forall token, In (Login.Resolve token) (Login.log (Login.releaseToken st)) ->
         tokenFrom (evs ++ [ev]) token)).
    { unfold Login.releaseToken.
      destruct (Login.waitingDisconnect st) eqn:W; cbn [negb];
        [|split; [rewrite W; discriminate|apply Hkeep]].
      unfold Login.finishResolve. cbn [Login.done Login.log].
      destruct (Login.done st);
        cbn [Login.waitingDisconnect Login.pendingToken Login.log].
      - split; [discriminate|apply Hkeep].
      - split; [discriminate|]. intros token H.
        apply in_app_or in H as [H|H]; [now apply Hkeep|].
        cbn in H. repeat (destruct H as [H|H]; [try discriminate|]); [|destruct H].
        inversion H; subst. apply tokenFrom_more. now apply IHw. }
    destruct ev as [|e| | |t|]; cbn [Login.handle]; auto.
    cbn [Login.waitingDisconnect Login.pendingToken Login.log]. split.
    + intros _. exists t. split; [reflexivity|apply in_or_app; right; now left].
    + intros token H. apply in_app_or in H as [H|H]; [now apply Hkeep|].
      cbn in H. destruct H as [H|[H|[]]]; discriminate.
Qed.

(** While the promise is pending, a token and then the disconnection, or
    the delay, resolve it with that token. *)
Lemma login_resolves (pre post : list Login.Event) (t : string) (release : Login.Event) :
  Login.done (Login.run pre Login.initial) = false ->
  release = Login.OnDisconnected \/ release = Login.DelayFired ->
  Login.outcomes
    (Login.run (pre ++ Login.OnRefreshToken t :: release :: post) Login.initial)
  = [Login.Resolve (Some t)].
Proof.
  intros D Hrel. rewrite login_run_app.
  destruct (login_run_settledOnce pre Login.initial) as [(_ & O)|(D' & _)];
    [left; auto| |congruence].
  set (st := Login.run pre Login.initial) in *.
  cbn [Login.run fold_left]. cbn [Login.handle].
  assert (E : Login.handle
                (Login.mkState (Login.done st) (Some t) true
                   (Login.log st ++ [Login.LogOff; Login.SetDelay])) release
              = Login.mkState true None false
                  ((Login.log st ++ [Login.LogOff; Login.SetDelay])
                   ++ [Login.ClearTimeout] ++ Login.cleanup
                   ++ [Login.Resolve (Some t)])).
  { destruct Hrel as [-> | ->]; cbn [Login.handle]; unfold Login.releaseToken;
      cbn [Login.waitingDisconnect negb Login.pendingToken Login.done Login.log];
      unfold Login.finishResolve; cbn [Login.done]; rewrite D; reflexivity. }
  rewrite E.
  match goal with |- Login.outcomes (fold_left _ post ?s) = _ =>
    destruct (login_run_done post s eq_refl) as (_ & O') end.
  unfold Login.run in O'. rewrite O'.
  unfold Login.outcomes in *. cbn [Login.log]. rewrite !filter_app, O. reflexivity.
Qed.

(** ** The new balance *)

Lemma toDouble_exact (z : Z) : - two53 < z < two53 -> toDouble z = Fin z.
Proof.
  intros H. unfold toDouble.
  assert (B : two53 < two1024).
  { unfold two53, two1024. apply Z.pow_lt_mono_r; lia. }
  destruct (Z.ltb_spec z 0).
  - rewrite roundDouble_small by lia.
    destruct (Z.leb_spec two1024 (- z)); [lia|]. f_equal. lia.
  - rewrite roundDouble_small by lia.
    destruct (Z.leb_spec two1024 z); [lia|]. reflexivity.
Qed.

Lemma Num_sub_exact (a b : Z) :
  - two53 < a - b < two53 -> Num_sub (Fin a) (Fin b) = Fin (a - b).
Proof. intros H. cbn [Num_sub]. now apply toDouble_exact. Qed.

(** ** Attributes without a [def_index] *)

Lemma attrStep_def_index (attr : Armory.Attribute) (offset : nat) (w : WireField) :
  isVarintNumbered 1 w = false ->
  Armory.attr_def_index (attrStep attr (fieldOf offset w)) = Armory.attr_def_index attr.
Proof.
  intros H. unfold attrStep, fieldOf.
  cbn [Armory.fieldNumber Armory.wireType Armory.fieldValue].
  unfold isVarintNumbered in H. rewrite andb_comm in H. rewrite H.
  destruct (_ && _ && _); reflexivity.
Qed.

Lemma fold_attrStep_def_index (ws : list WireField) :
  forallb (fun w => negb (isVarintNumbered 1 w)) ws = true ->
  forall (offset : nat) (attr : Armory.Attribute),
  Armory.attr_def_index (fold_left attrStep (fieldsOf offset ws) attr)
  = Armory.attr_def_index attr.
Proof.
  induction ws as [|w ws IH]; cbn [forallb fieldsOf fold_left]; intros H offset attr;
    [reflexivity|].
  apply andb_prop in H as [Hw H]. apply negb_true_iff in Hw.
  rewrite IH by assumption. now apply attrStep_def_index.
Qed.

Lemma parseAttribute_no_index (ws : list WireField) :
  Forall wfWire ws -> fits (encStream ws) ->
  forallb (fun w => negb (isVarintNumbered 1 w)) ws = true ->
  Armory.parseAttribute (encStream ws) = Ret None.
Proof.
  intros Hwf Hfit Hno. rewrite parseAttribute_attributeOf by assumption.
  unfold attributeOf. rewrite topFields_encStream by assumption.
  rewrite fold_attrStep_def_index by assumption. reflexivity.
Qed.

Lemma parseAttribute_encoded (a : Z * list byte) :
  0 <= fst a < two53 ->
  fits (encStream [WVarint 1 (fst a); WBytes 3 (snd a)]) ->
  Armory.parseAttribute (encStream [WVarint 1 (fst a); WBytes 3 (snd a)])
  = Ret (Some (attributeFor a)).
Proof.
  intros Hd Hfit. rewrite parseAttribute_attributeOf by assumption.
  now rewrite attributeOf_encoded.
Qed.

Lemma parseCSOEconItem_encItem (d : Z) (attrs : list (Z * list byte)) :
  0 < d < two53 -> Forall (fun a => 0 <= fst a < two53) attrs ->
  fits (encItem d attrs) ->
  Armory.parseCSOEconItem (encItem d attrs)
  = Ret (Some (Armory.mkItem (Some (Fin d)) (map attributeFor attrs))).
Proof.
  intros Hd Ha Hfit. rewrite parseCSOEconItem_itemOf by assumption.
  now rewrite itemOf_encItem.
Qed.

(** An item without field 4, or with the index 0, is not an item. *)
Lemma parseCSOEconItem_no_index (ws : list WireField) :
  Forall wfWire ws -> fits (encStream ws) ->
  forallb (fun w => negb (isItemIndex w)) ws = true ->
  Armory.parseCSOEconItem (encStream ws) = Ret None.
Proof.
  intros Hwf Hfit Hno. rewrite parseCSOEconItem_itemOf by assumption.
  unfold itemOf. rewrite topFields_encStream by assumption.
  unfold Armory.accepted. rewrite fold_itemStep_def_index by assumption.
  reflexivity.
Qed.

Lemma readVarint_bytesRead (buffer : list byte) (offset : nat) (v : Armory.Varint) :
  Armory.readVarint buffer offset = Ret (Some v) ->
  (0 < Armory.bytesRead v)%nat /\ (offset + Armory.bytesRead v <= length buffer)%nat.
Proof.
  rewrite readVarint_decodeFrom. intros H. inversion H as [H'].
  apply decodeFrom_bytesRead in H'. rewrite length_skipn in H'. lia.
Qed.

Lemma isVarintNumbered_4 (ws : list WireField) :
  forallb (fun w => negb (isVarintNumbered 4 w)) ws
  = forallb (fun w => negb (isItemIndex w)) ws.
Proof.
  induction ws as [|w ws IH]; [reflexivity|]. cbn [forallb]. rewrite IH.
  unfold isVarintNumbered, isItemIndex.
  now rewrite (andb_comm (wireTypeOf w =? 0)).
Qed.

(** The two readers stop at the same byte. *)
Lemma decodeFrom32_bytesRead (bs : list byte) :
  forall (r s k r' s' : Z) (n : nat), Z.of_nat n = k ->
  match decodeFrom bs r' s' n, decodeFrom32 bs r s k with
  | Some v, Some v32 => Z.of_nat (Armory.bytesRead v) = Session.bytesRead v32
  | None, None => True
  | _, _ => False
  end.
Proof.
  induction bs as [|b bs IH]; intros r s k r' s' n Hn; cbn [decodeFrom decodeFrom32];
    [exact I|].
  rewrite js_and_byte by (pose proof (b2z_range b); lia).
  destruct (Z.land (b2z b) 128 =? 0).
  - cbn [Armory.bytesRead Session.bytesRead]. lia.
  - apply IH. lia.
Qed.

Lemma session_readVarint_same_bytes (buffer : list byte) (offset : nat) :
  match Armory.readVarint buffer offset, Session.readVarint buffer (Z.of_nat offset) with
  | Ret (Some v), Ret (Some v32) => Z.of_nat (Armory.bytesRead v) = Session.bytesRead v32
  | Ret None, Ret None => True
  | _, _ => False
  end.
Proof.
  rewrite readVarint_decodeFrom, session_readVarint_decode.
  now apply decodeFrom32_bytesRead.
Qed.

(** ** The saved accounts *)

Lemma JsString_eqb_refl (a : JsString) : JsString_eqb a a = true.
Proof. induction a as [|x a IH]; [reflexivity|]. cbn. now rewrite N.eqb_refl. Qed.

Lemma JsString_eqb_eq (a b : JsString) : JsString_eqb a b = true <-> a = b.
Proof.
  split; [|intros ->; apply JsString_eqb_refl].
  revert b. induction a as [|x a IH]; intros [|y b] H; try discriminate; [reflexivity|].
  cbn in H. apply andb_prop in H as [Hx H]. apply N.eqb_eq in Hx. subst.
  f_equal. now apply IH.
Qed.

Lemma startsWith_app (p t : JsString) : startsWith p (p ++ t) = true.
Proof. induction p as [|x p IH]; [reflexivity|]. cbn. now rewrite N.eqb_refl. Qed.

(** A match that fits in the first part does not depend on the rest. *)
Lemma startsWith_app_long (p s t : JsString) :
  (length p <= length s)%nat -> startsWith p (s ++ t) = startsWith p s.
Proof.
  revert s. induction p as [|x p IH]; intros s H; [reflexivity|].
  destruct s as [|y s]; [cbn in H; lia|].
  cbn [app startsWith]. rewrite IH by (cbn in H; lia). reflexivity.
Qed.

(** A match that runs over the first part begins with it. *)
Lemma startsWith_prefix (p s t : JsString) :
  startsWith p (s ++ t) = true -> (length s <= length p)%nat ->
  s = firstn (length s) p.
Proof.
  revert s. induction p as [|x p IH]; intros s H L.
  - destruct s; [reflexivity|cbn in L; lia].
  - destruct s as [|y s]; [reflexivity|].
    cbn [app startsWith] in H. apply andb_prop in H as [Hx H].
    apply N.eqb_eq in Hx. subst. cbn [length firstn]. f_equal.
    apply IH; [exact H|cbn in L; lia].
Qed.

(** The extension does not overlap itself: after a beginning that is
    not the extension, no match runs into the extension that follows. *)
Lemma extension_no_overlap (s : JsString) :
  s <> [] -> startsWith SessionFiles.extension s = false ->
  startsWith SessionFiles.extension (s ++ SessionFiles.extension) = false.
Proof.
  intros Hs H.
  destruct (Nat.le_gt_cases (length SessionFiles.extension) (length s)) as [L|L].
  - now rewrite startsWith_app_long.
  - destruct (startsWith SessionFiles.extension (s ++ SessionFiles.extension)) eqn:E;
      [exfalso|reflexivity].
    pose proof (startsWith_prefix _ _ _ E ltac:(lia)) as P.
    rewrite P in E. remember (length s) as n eqn:En.
    assert (n <> 0%nat) by (destruct s; [contradiction|cbn in En; lia]).
    change (length SessionFiles.extension) with 13%nat in L.
    do 13 (destruct n as [|n]; [try contradiction; vm_compute in E; discriminate|]).
    lia.
Qed.

Lemma removeFirst_sessionFile (u : JsString) :
  occursIn SessionFiles.extension u = false ->
  removeFirst SessionFiles.extension (SessionFiles.sessionFile u) = u.
Proof.
  unfold SessionFiles.sessionFile.
  induction u as [|c u IH]; intros H; [reflexivity|].
  cbn [occursIn] in H. apply orb_false_iff in H as [H1 H2].
  change ((c :: u) ++ SessionFiles.extension)
    with (c :: (u ++ SessionFiles.extension)).
  cbn [removeFirst].
  change (c :: (u ++ SessionFiles.extension))
    with ((c :: u) ++ SessionFiles.extension).
  rewrite extension_no_overlap by (assumption || discriminate).
  cbn [app]. f_equal. now apply IH.
Qed.

Lemma endsWith_sessionFile (u : JsString) :
  endsWith (SessionFiles.sessionFile u) SessionFiles.extension = true.
Proof.
  unfold endsWith, SessionFiles.sessionFile. rewrite length_app.
  apply andb_true_intro. split; [apply Nat.leb_le; lia|].
  replace (length u + length SessionFiles.extension - length SessionFiles.extension)%nat
    with (length u) by lia.
  rewrite skipn_app_exact. apply JsString_eqb_refl.
Qed.

Lemma endsWith_spec (s p : JsString) :
  endsWith s p = true <-> exists u, s = u ++ p.
Proof.
  unfold endsWith. split.
  - intros H. apply andb_prop in H as [L E]. apply Nat.leb_le in L.
    apply JsString_eqb_eq in E. exists (firstn (length s - length p) s).
    transitivity (firstn (length s - length p) s ++ skipn (length s - length p) s);
      [symmetry; apply firstn_skipn|f_equal; exact E].
  - intros [u ->]. rewrite length_app. apply andb_true_intro.
    split; [apply Nat.leb_le; lia|].
    replace (length u + length p - length p)%nat with (length u) by lia.
    rewrite skipn_app_exact. apply JsString_eqb_refl.
Qed.

Lemma listAccounts_saved (users : list JsString) :
  Forall (fun u => occursIn SessionFiles.extension u = false) users ->
  SessionFiles.listAccounts true (map SessionFiles.sessionFile users) = users.
Proof.
  unfold SessionFiles.listAccounts. cbn [negb].
  induction 1 as [|u users Hu _ IH]; [reflexivity|].
  cbn [map filter]. rewrite endsWith_sessionFile. cbn [map].
  rewrite removeFirst_sessionFile by assumption. now f_equal.
Qed.

Lemma listAccounts_other (l1 l2 : list JsString) (f : JsString) :
  endsWith f SessionFiles.extension = false ->
  SessionFiles.listAccounts true (l1 ++ f :: l2)
  = SessionFiles.listAccounts true (l1 ++ l2).
Proof.
  intros H. unfold SessionFiles.listAccounts. cbn [negb].
  rewrite !filter_app. cbn [filter]. now rewrite H.
Qed.

(** What is listed is shorter by the extension than a file of the
    directory that ends with it. *)
Lemma removeFirst_length (p s : JsString) :
  occursIn p s = true ->
  (length (removeFirst p s) + length p = length s)%nat.
Proof.
  induction s as [|c s IH]; cbn [occursIn removeFirst]; intros H.
  - rewrite orb_false_r in H. rewrite H.
    destruct p; [reflexivity|discriminate].
  - destruct (startsWith p (c :: s)) eqn:E.
    + rewrite length_skipn.
      assert ((length p <= length (c :: s))%nat); [|lia].
      clear - E. revert E. generalize (c :: s). induction p as [|x p IHp];
        intros l E; [cbn; lia|].
      destruct l as [|y l]; [discriminate|]. cbn in E.
      apply andb_prop in E as [_ E]. apply IHp in E. cbn. lia.
    + cbn [orb] in H. cbn [length]. rewrite <- (IH H). lia.
Qed.

(** ** The exterior of a wear *)

Lemma jsle_trans (x y z : Schema.JsNumber) :
  Schema.le x y = true -> Schema.le y z = true -> Schema.le x z = true.
Proof.
  destruct x as [a| | |], y as [b| | |], z as [c| | |]; cbn; try congruence.
  rewrite !QArith_base.Qle_bool_iff. apply QArith_base.Qle_trans.
Qed.

(** Numbers other than NaN are comparable. *)
Lemma jslt_false_le (x y : Schema.JsNumber) :
  x <> Schema.NotANumber -> y <> Schema.NotANumber ->
  Schema.lt x y = false -> Schema.le y x = true.
Proof.
  destruct x as [a| | |], y as [b| | |]; cbn; try congruence.
  intros _ _ H. now apply negb_false_iff in H.
Qed.

Lemma jslt_true_le (x y : Schema.JsNumber) :
  Schema.lt x y = true -> Schema.le x y = true.
Proof.
  destruct x as [a| | |], y as [b| | |]; cbn; try congruence.
  intros H. apply negb_true_iff in H.
  apply QArith_base.Qle_bool_iff. apply QArith_base.Qlt_le_weak.
  apply QArith_base.Qnot_le_lt. intros L.
  apply QArith_base.Qle_bool_iff in L. congruence.
Qed.

Lemma jslt_true_not_le (x y : Schema.JsNumber) :
  Schema.lt x y = true -> Schema.le y x = false.
Proof.
  destruct x as [a| | |], y as [b| | |]; cbn; try congruence.
  intros H. now apply negb_true_iff in H.
Qed.

(** Below a bound, below every greater one. *)
Lemma jsle_above (x a t : Schema.JsNumber) :
  Schema.lt a x = true -> Schema.le t a = true -> Schema.le x t = false.
Proof.
  intros H1 H2. destruct (Schema.le x t) eqn:E; [|reflexivity].
  pose proof (jsle_trans _ _ _ E H2) as L.
  apply jslt_true_not_le in H1. congruence.
Qed.

Lemma wearToExteriorByFloat_monotone (x y : Schema.JsNumber) :
  Schema.le x y = true ->
  (Schema.rank (Schema.wearToExteriorByFloat (Schema.JNumber x))
   <= Schema.rank (Schema.wearToExteriorByFloat (Schema.JNumber y)))%nat.
Proof.
  intros Hxy. unfold Schema.wearToExteriorByFloat, Schema.DEFAULT_WEAR_BOUNDS.
  cbn [Schema.wearToExteriorByFloat_loop].
  set (t1 := Schema.Finite Schema.d0_07). set (t2 := Schema.Finite Schema.d0_15).
  set (t3 := Schema.Finite Schema.d0_38). set (t4 := Schema.Finite Schema.d0_45).
  set (t5 := Schema.one).
  pose proof (jsle_trans x y t1 Hxy) as T1. pose proof (jsle_trans x y t2 Hxy) as T2.
  pose proof (jsle_trans x y t3 Hxy) as T3. pose proof (jsle_trans x y t4 Hxy) as T4.
  pose proof (jsle_trans x y t5 Hxy) as T5.
  destruct (Schema.le y t1); [rewrite (T1 eq_refl); apply Nat.le_refl|].
  destruct (Schema.le x t1);
    [destruct (Schema.le y t2), (Schema.le y t3), (Schema.le y t4), (Schema.le y t5);
     vm_compute; lia|].
  destruct (Schema.le y t2); [rewrite (T2 eq_refl); apply Nat.le_refl|].
  destruct (Schema.le x t2);
    [destruct (Schema.le y t3), (Schema.le y t4), (Schema.le y t5); vm_compute; lia|].
  destruct (Schema.le y t3); [rewrite (T3 eq_refl); apply Nat.le_refl|].
  destruct (Schema.le x t3);
    [destruct (Schema.le y t4), (Schema.le y t5); vm_compute; lia|].
  destruct (Schema.le y t4); [rewrite (T4 eq_refl); apply Nat.le_refl|].
  destruct (Schema.le x t4); [destruct (Schema.le y t5); vm_compute; lia|].
  destruct (Schema.le y t5), (Schema.le x t5); vm_compute; lia.
Qed.

(** Clamping to 0..1 does not change the exterior of a number. *)
Lemma clamp01_exterior (x : Schema.JsNumber) :
  x <> Schema.NotANumber ->
  exists c,
    Schema.clamp01 (Schema.JNumber x) = Some c /\
    c <> Schema.NotANumber /\
    Schema.le Schema.zero c = true /\
    Schema.le c Schema.one = true /\
    Schema.wearToExteriorByFloat (Schema.JNumber c)
    = Schema.wearToExteriorByFloat (Schema.JNumber x).
Proof.
  intros Hx.
  assert (E : Schema.clamp01 (Schema.JNumber x)
              = if Schema.lt x Schema.zero then Some Schema.zero
                else if Schema.lt Schema.one x then Some Schema.one
                else Some x)
    by (destruct x; [reflexivity..|contradiction]).
  rewrite E. clear E.
  destruct (Schema.lt x Schema.zero) eqn:L0.
  - exists Schema.zero. repeat split; try discriminate.
    apply jslt_true_le in L0.
    unfold Schema.wearToExteriorByFloat, Schema.DEFAULT_WEAR_BOUNDS.
    cbn [Schema.wearToExteriorByFloat_loop].
    rewrite (jsle_trans x Schema.zero (Schema.Finite Schema.d0_07) L0 eq_refl).
    reflexivity.
  - destruct (Schema.lt Schema.one x) eqn:L1.
    + exists Schema.one. repeat split; try discriminate.
      unfold Schema.wearToExteriorByFloat, Schema.DEFAULT_WEAR_BOUNDS.
      cbn [Schema.wearToExteriorByFloat_loop].
      rewrite (jsle_above x _ (Schema.Finite Schema.d0_07) L1 eq_refl).
      rewrite (jsle_above x _ (Schema.Finite Schema.d0_15) L1 eq_refl).
      rewrite (jsle_above x _ (Schema.Finite Schema.d0_38) L1 eq_refl).
      rewrite (jsle_above x _ (Schema.Finite Schema.d0_45) L1 eq_refl).
      rewrite (jsle_above x _ Schema.one L1 eq_refl).
      reflexivity.
    + exists x. repeat split; try assumption.
      * apply jslt_false_le; [assumption|discriminate|assumption].
      * apply jslt_false_le; [discriminate|assumption|assumption].
Qed.

(** The wear that [resolveExterior] ends with lies between the bounds of
    the paint. *)
Lemma resolveExterior_between (lo hi x : Schema.JsNumber) (gcQuality : Schema.JsValue) :
  Schema.normalizeExteriorFromGC gcQuality = None ->
  x <> Schema.NotANumber -> lo <> Schema.NotANumber -> hi <> Schema.NotANumber ->
  Schema.le lo hi = true ->
  exists w,
    Schema.le lo w = true /\ Schema.le w hi = true /\
    Schema.resolveExterior
      (Some (Schema.mkPaint (Schema.JNumber lo) (Schema.JNumber hi)))
      (Schema.JNumber x) gcQuality
    = Schema.wearToExteriorByFloat (Schema.JNumber w).
Proof.
  intros Hgc Hx Hlo Hhi Hle.
  destruct (clamp01_exterior x Hx) as (c & Ec & Hc & _ & _ & _).
  unfold Schema.resolveExterior. rewrite Hgc, Ec.
  cbn [option_map Schema.paint_min Schema.paint_max Schema.numberOrNull].
  set (e1 := if Schema.lt c lo then lo else c).
  assert (H1 : Schema.le lo e1 = true /\ e1 <> Schema.NotANumber).
  { unfold e1. destruct (Schema.lt c lo) eqn:L.
    - split; [|assumption]. apply jslt_false_le; try assumption.
      destruct lo; try reflexivity; try contradiction.
      cbn. apply negb_false_iff. apply QArith_base.Qle_bool_iff.
      apply QArith_base.Qle_refl.
    - split; [|assumption]. now apply jslt_false_le. }
  destruct H1 as [H1 N1].
  exists (if Schema.lt hi e1 then hi else e1).
  destruct (Schema.lt hi e1) eqn:L.
  - repeat split; [assumption|].
    apply jslt_false_le; try assumption.
    destruct hi; try reflexivity; try contradiction.
    cbn. apply negb_false_iff. apply QArith_base.Qle_bool_iff.
    apply QArith_base.Qle_refl.
  - repeat split; [assumption|]. now apply jslt_false_le.
Qed.

(** ** Trimming *)

Lemma trimStart_head (s t : JsString) (c : N) :
  trimStart s = c :: t -> isWhiteSpace c = false.
Proof.
  induction s as [|d s IH]; cbn; [discriminate|].
  destruct (isWhiteSpace d) eqn:W; [exact IH|].
  intros H. inversion H; subst. exact W.
Qed.

Lemma trimStart_fixed (s : JsString) (c : N) :
  isWhiteSpace c = false -> trimStart (c :: s) = c :: s.
Proof. intros H. cbn. now rewrite H. Qed.

(** What [trimStart] leaves is the end of the string. *)
Lemma trimStart_suffix (s : JsString) : exists u, s = u ++ trimStart s.
Proof.
  induction s as [|d s [u IH]]; [now exists []|]. cbn.
  destruct (isWhiteSpace d); [|now exists []].
  exists (d :: u). cbn. now f_equal.
Qed.

Lemma trimEnd_prefix (s : JsString) : exists u, s = trimEnd s ++ u.
Proof.
  unfold trimEnd. destruct (trimStart_suffix (rev s)) as [u H].
  exists (rev u). rewrite <- rev_app_distr, <- H. now rewrite rev_involutive.
Qed.

Lemma trimEnd_last (s t : JsString) (c : N) :
  trimEnd s = t ++ [c] -> isWhiteSpace c = false.
Proof.
  unfold trimEnd. intros H. apply (f_equal (@rev N)) in H.
  rewrite rev_involutive, rev_app_distr in H. cbn in H.
  eapply trimStart_head; exact H.
Qed.

Lemma trimEnd_fixed (t : JsString) (c : N) :
  isWhiteSpace c = false -> trimEnd (t ++ [c]) = t ++ [c].
Proof.
  intros H. unfold trimEnd. rewrite rev_app_distr. cbn [rev app].
  rewrite trimStart_fixed by assumption.
  change (c :: rev t) with ([c] ++ rev t).
  rewrite rev_app_distr, rev_involutive. reflexivity.
Qed.

(** What [trim] returns, when it is not empty, begins and ends with a
    code unit that is not white space, and [trim] leaves it as it is. *)
Lemma trim_shape (s : JsString) :
  trim s = [] \/
  exists c t d,
    (trim s = c :: t) /\ (exists t', trim s = t' ++ [d]) /\
    isWhiteSpace c = false /\ isWhiteSpace d = false.
Proof.
  unfold trim. destruct (trimEnd (trimStart s)) as [|c t] eqn:E; [now left|right].
  destruct (trimEnd_prefix (trimStart s)) as [u Hu]. rewrite E in Hu.
  assert (Hc : isWhiteSpace c = false) by (eapply trimStart_head; exact Hu).
  destruct (exists_last (l := c :: t) ltac:(discriminate)) as (t' & d & Ht).
  exists c, t, d. split; [reflexivity|]. split; [now exists t'|].
  split; [exact Hc|]. rewrite Ht in E. eapply trimEnd_last; exact E.
Qed.

Lemma trim_idempotent (s : JsString) : trim (trim s) = trim s.
Proof.
  destruct (trim_shape s) as [E|(c & t & d & E1 & (t' & E2) & Hc & Hd)].
  - rewrite E. reflexivity.
  - unfold trim at 1. rewrite E1, trimStart_fixed by assumption.
    rewrite <- E1, E2. now apply trimEnd_fixed.
Qed.

(** * Properties beyond the claims *)

(** ** The varint codec of [ArmoryManager] *)

(** X1.  [readVarint] gives back what [encodeVarint] wrote, wherever the
    encoding lies in a buffer: for every [n >= 0], of any size, reading
    at the offset where the encoding of [n] starts returns the value [n]
    and, as [bytesRead], the length of the encoding. *)
Theorem X1_armory_varint_round_trip (n : Z) (pre suf : list byte) :
  0 <= n ->
  Armory.readVarint (pre ++ Armory.encodeVarint n ++ suf) (length pre)
  = Ret (Some (Armory.mkVarint n (length (Armory.encodeVarint n)))).
Proof. apply armory_readVarint_encodeVarint. Qed.

Lemma X1_armory_varint_round_trip_witness :
  0 <= 2 ^ 64 + 300 /\
  Armory.readVarint (bytes [1; 2] ++ Armory.encodeVarint (2 ^ 64 + 300) ++ bytes [3]) 2
  = Ret (Some (Armory.mkVarint (2 ^ 64 + 300) 10)).
Proof.
  split; [lia|].
  exact (X1_armory_varint_round_trip (2 ^ 64 + 300) (bytes [1; 2]) (bytes [3])
           ltac:(lia)).
Defined.

(** X2.  The encoding of [n >= 0] is the shortest one: it has
    [1 + floor(log2 n / 7)] bytes (one byte for 0), every byte but the
    last carries the continuation bit and the last does not. *)
Theorem X2_encodeVarint_canonical (n : Z) :
  0 <= n ->
  length (Armory.encodeVarint n) = S (Z.to_nat (Z.log2 n / 7)) /\
  exists body final,
    Armory.encodeVarint n = body ++ [final] /\
    allContinue body /\ Z.land (b2z final) 128 = 0.
Proof.
  intros Hn. split; [now apply encodeVarint_length|now apply encodeVarint_shape].
Qed.

Lemma X2_encodeVarint_canonical_witness :
  0 <= 16384 /\
  length (Armory.encodeVarint 16384) = 3%nat /\
  exists body final,
    Armory.encodeVarint 16384 = body ++ [final] /\
    allContinue body /\ Z.land (b2z final) 128 = 0.
Proof.
  split; [lia|]. exact (X2_encodeVarint_canonical 16384 ltac:(lia)).
Defined.

(** X3.  No encoding is the beginning of another: when two encodings of
    non-negative numbers, each followed by any bytes, give the same
    bytes, the numbers are equal and so are the bytes that follow.  A
    sequence of varints is therefore read back in one way only. *)
Theorem X3_encodeVarint_prefix_free (a b : Z) (s t : list byte) :
  0 <= a -> 0 <= b ->
  Armory.encodeVarint a ++ s = Armory.encodeVarint b ++ t ->
  a = b /\ s = t.
Proof. apply encodeVarint_prefix_free. Qed.

Lemma X3_encodeVarint_prefix_free_witness :
  Armory.encodeVarint 300 ++ bytes [7] = Armory.encodeVarint (256 + 44) ++ bytes [3 + 4] /\
  300 = 256 + 44 /\ bytes [7] = bytes [3 + 4].
Proof.
  split; [reflexivity|].
  exact (X3_encodeVarint_prefix_free 300 (256 + 44) (bytes [7]) (bytes [3 + 4])
           ltac:(lia) ltac:(lia) eq_refl).
Defined.

(** X4.  A negative number is not encoded as a varint: the loop is not
    entered and the one byte written is the number modulo 256; and as
    [readVarint] only returns values that are not negative, no buffer
    decodes to it. *)
Theorem X4_encodeVarint_negative (n : Z) :
  - two53 <= n < 0 ->
  Armory.encodeVarint n = [z2b n] /\
  forall buffer offset v,
    Armory.readVarint buffer offset = Ret (Some v) -> Armory.value v <> n.
Proof.
  intros Hn. split; [apply encodeVarint_negative; lia|].
  intros buffer offset v H. apply readVarint_value_bound in H. lia.
Qed.

Lemma X4_encodeVarint_negative_witness :
  - two53 <= -1 < 0 /\
  Armory.encodeVarint (-1) = bytes [255] /\
  Armory.readVarint (Armory.encodeVarint (-1)) 0 = Ret None.
Proof.
  split; [unfold two53; lia|].
  split; [|reflexivity].
  exact (proj1 (X4_encodeVarint_negative (-1) ltac:(unfold two53; lia))).
Defined.

(** X5.  What [readVarint] returns: at least one byte was read, all of
    them inside the buffer, and the value is below [2^(7 * bytesRead)].
    Encodings longer than needed are accepted, so encoding the value
    again never takes more bytes than were read. *)
Theorem X5_readVarint_value_bound (buffer : list byte) (offset : nat)
    (v : Armory.Varint) :
  Armory.readVarint buffer offset = Ret (Some v) ->
  (0 < Armory.bytesRead v)%nat /\
  (offset + Armory.bytesRead v <= length buffer)%nat /\
  0 <= Armory.value v < 2 ^ (7 * Z.of_nat (Armory.bytesRead v)) /\
  (length (Armory.encodeVarint (Armory.value v)) <= Armory.bytesRead v)%nat.
Proof.
  intros H. destruct (readVarint_bytesRead _ _ _ H) as [Hp Hb].
  pose proof (readVarint_value_bound _ _ _ H) as Hv.
  repeat split; try lia. now apply encodeVarint_length_le.
Qed.

Lemma X5_readVarint_value_bound_witness :
  Armory.readVarint (bytes [0x80; 0x00; 0x01]) 0 = Ret (Some (Armory.mkVarint 0 2)) /\
  (0 < 2)%nat /\ (0 + 2 <= 3)%nat /\ 0 <= 0 < 2 ^ (7 * Z.of_nat 2) /\
  (length (Armory.encodeVarint 0) <= 2)%nat.
Proof.
  split; [reflexivity|].
  exact (X5_readVarint_value_bound (bytes [0x80; 0x00; 0x01]) 0
           (Armory.mkVarint 0 2) eq_refl).
Defined.

(** ** The 32-bit [readVarint] of SessionManager.js *)

(** X6.  The 32-bit [readVarint] against the one of [ArmoryManager].
    At an offset inside the buffer both read the same bytes: one returns
    [null] exactly when the other does, and otherwise both report the
    same [bytesRead] (the values differ once they pass 31 bits).  At or
    past the end the 32-bit one returns [null]; but at a negative offset
    its end test passes, the byte read is [undefined], taken for 0, and
    it returns the value 0 with one byte read. *)
Theorem X6_session_readVarint_outside (buffer : list byte) :
  (forall offset : nat,
     match Armory.readVarint buffer offset,
           Session.readVarint buffer (Z.of_nat offset) with
     | Ret (Some v), Ret (Some v32) =>
       Z.of_nat (Armory.bytesRead v) = Session.bytesRead v32
     | Ret None, Ret None => True
     | _, _ => False
     end) /\
  (forall offset : Z,
     len buffer <= offset -> Session.readVarint buffer offset = Ret None) /\
  (forall offset : Z,
     offset < 0 ->
     Session.readVarint buffer offset = Ret (Some (Session.mkVarint 0 1))).
Proof.
  split; [apply session_readVarint_same_bytes|].
  split; intros offset; [apply session_readVarint_past_end
                        |apply session_readVarint_before_start].
Qed.

Lemma X6_session_readVarint_outside_witness :
  -6 < 0 /\
  Session.readVarint loopingCache (-6) = Ret (Some (Session.mkVarint 0 1)) /\
  len loopingCache <= 6 /\
  Session.readVarint loopingCache 6 = Ret None.
Proof.
  split; [lia|].
  split; [exact (proj2 (proj2 (X6_session_readVarint_outside loopingCache)) (-6)
                   ltac:(lia))|].
  split; [vm_compute; discriminate|].
  exact (proj1 (proj2 (X6_session_readVarint_outside loopingCache)) 6
           ltac:(vm_compute; discriminate)).
Defined.

(** X7.  For the values a signed 32-bit accumulator holds, [0 <= n <
    2^31], the 32-bit [readVarint] reads back what [encodeVarint] wrote,
    wherever the encoding lies in a buffer. *)
Theorem X7_session_varint_round_trip (n : Z) (pre suf : list byte) :
  0 <= n < 2 ^ 31 ->
  Session.readVarint (pre ++ Armory.encodeVarint n ++ suf) (len pre)
  = Ret (Some (Session.mkVarint n (len (Armory.encodeVarint n)))).
Proof. apply session_readVarint_encodeVarint. Qed.

Lemma X7_session_varint_round_trip_witness :
  0 <= 2 ^ 31 - 1 < 2 ^ 31 /\
  Session.readVarint (bytes [9] ++ Armory.encodeVarint (2 ^ 31 - 1) ++ bytes [3]) 1
  = Ret (Some (Session.mkVarint (2 ^ 31 - 1) 5)).
Proof.
  split; [lia|].
  exact (X7_session_varint_round_trip (2 ^ 31 - 1) (bytes [9]) (bytes [3]) ltac:(lia)).
Defined.

(** ** Fields and messages of [ArmoryManager] *)

(** X8.  A sequence of fields written on the wire (tag, then a varint, a
    length and its bytes, or four or eight bytes) is read back by
    [readField], run from offset 0 and then from each [nextOffset]:
    every field comes back with its number, its wire type, its value (the
    number, the bytes, [null] for the fixed-width ones) and the offset
    where the next one starts, and nothing else is read. *)
Theorem X8_fields_round_trip (ws : list WireField) :
  Forall wfWire ws -> fits (encStream ws) ->
  topFields (encStream ws) = fieldsOf 0 ws.
Proof. apply topFields_encStream. Qed.

Lemma X8_fields_round_trip_witness :
  Forall wfWire [WVarint 4 501; WBytes 12 (bytes [8; 6]); WFixed32 2 (bytes [1; 2; 3; 4])] /\
  fits (encStream [WVarint 4 501; WBytes 12 (bytes [8; 6]);
                   WFixed32 2 (bytes [1; 2; 3; 4])]) /\
  topFields (encStream [WVarint 4 501; WBytes 12 (bytes [8; 6]);
                        WFixed32 2 (bytes [1; 2; 3; 4])])
  = [Armory.mkField 4 0 (Armory.VBigInt 501) 3;
     Armory.mkField 12 2 (Armory.VBuffer (bytes [8; 6])) 7;
     Armory.mkField 2 5 Armory.VNull 12].
Proof.
  assert (W : Forall wfWire [WVarint 4 501; WBytes 12 (bytes [8; 6]);
                             WFixed32 2 (bytes [1; 2; 3; 4])]).
  { repeat constructor; simpl; lia. }
  assert (F : fits (encStream [WVarint 4 501; WBytes 12 (bytes [8; 6]);
                               WFixed32 2 (bytes [1; 2; 3; 4])]))
    by (vm_compute; reflexivity).
  split; [exact W|]. split; [exact F|].
  exact (X8_fields_round_trip _ W F).
Defined.

(** X9.  [findVarint] returns the first varint field with the wanted
    number, as a JS number, and [null] when the fields hold none; fields
    of another wire type with that number are passed over. *)
Theorem X9_findVarint_first (ws : list WireField) (wanted : Z) :
  Forall wfWire ws -> fits (encStream ws) ->
  Armory.findVarint (encStream ws) wanted
  = Ret (option_map (fun w => Armory.NumberOf (wireValue w))
           (find (isVarintNumbered wanted) ws)).
Proof. apply findVarint_encStream. Qed.

Lemma X9_findVarint_first_witness :
  Forall wfWire [WBytes 4 (bytes [1]); WVarint 4 7; WVarint 4 9] /\
  fits (encStream [WBytes 4 (bytes [1]); WVarint 4 7; WVarint 4 9]) /\
  Armory.findVarint (encStream [WBytes 4 (bytes [1]); WVarint 4 7; WVarint 4 9]) 4
  = Ret (Some (Fin 7)).
Proof.
  assert (W : Forall wfWire [WBytes 4 (bytes [1]); WVarint 4 7; WVarint 4 9]).
  { repeat constructor; simpl; lia. }
  assert (F : fits (encStream [WBytes 4 (bytes [1]); WVarint 4 7; WVarint 4 9]))
    by (vm_compute; reflexivity).
  split; [exact W|]. split; [exact F|].
  exact (X9_findVarint_first _ 4 W F).
Defined.

(** X10.  An attribute written as field 1 = [def_index], field 3 = value
    bytes is parsed back by [parseAttribute] to that index and to the
    bytes in lower-case hexadecimal; a message with no varint field 1 is
    no attribute: the result is [null]. *)
Theorem X10_parseAttribute_round_trip :
  (forall a : Z * list byte,
     0 <= fst a < two53 ->
     fits (encStream [WVarint 1 (fst a); WBytes 3 (snd a)]) ->
     Armory.parseAttribute (encStream [WVarint 1 (fst a); WBytes 3 (snd a)])
     = Ret (Some (Armory.mkAttribute (Some (Fin (fst a))) (Some (toHex (snd a)))))) /\
  (forall ws : list WireField,
     Forall wfWire ws -> fits (encStream ws) ->
     forallb (fun w => negb (isVarintNumbered 1 w)) ws = true ->
     Armory.parseAttribute (encStream ws) = Ret None).
Proof.
  split; [apply parseAttribute_encoded|apply parseAttribute_no_index].
Qed.

Lemma X10_parseAttribute_round_trip_witness :
  Armory.parseAttribute
    (encStream [WVarint 1 6; WBytes 3 (bytes [0xDE; 0xAD; 0xBE; 0xEF])])
  = Ret (Some (Armory.mkAttribute (Some (Fin 6)) (Some "deadbeef"%string))) /\
  Armory.parseAttribute (encStream [WBytes 3 (bytes [0xDE; 0xAD]); WVarint 2 5])
  = Ret None.
Proof.
  split.
  - exact (proj1 X10_parseAttribute_round_trip (6, bytes [0xDE; 0xAD; 0xBE; 0xEF])
             ltac:(unfold two53; simpl; lia) ltac:(vm_compute; reflexivity)).
  - refine (proj2 X10_parseAttribute_round_trip
              [WBytes 3 (bytes [0xDE; 0xAD]); WVarint 2 5] _
              ltac:(vm_compute; reflexivity) eq_refl).
    repeat constructor; simpl; lia.
Defined.

(** X11.  An item written as field 4 = [def_index] followed by its
    attributes, each a field 12, is parsed back by [parseCSOEconItem] to
    that index and to the attributes in the order written; a message
    with no varint field 4 is no item: the result is [null]. *)
Theorem X11_parseCSOEconItem_round_trip :
  (forall (d : Z) (attrs : list (Z * list byte)),
     0 < d < two53 -> Forall (fun a => 0 <= fst a < two53) attrs ->
     fits (encItem d attrs) ->
     Armory.parseCSOEconItem (encItem d attrs)
     = Ret (Some (Armory.mkItem (Some (Fin d)) (map attributeFor attrs)))) /\
  (forall ws : list WireField,
     Forall wfWire ws -> fits (encStream ws) ->
     forallb (fun w => negb (isItemIndex w)) ws = true ->
     Armory.parseCSOEconItem (encStream ws) = Ret None).
Proof.
  split; [apply parseCSOEconItem_encItem|apply parseCSOEconItem_no_index].
Qed.

Lemma X11_parseCSOEconItem_round_trip_witness :
  Armory.parseCSOEconItem (encItem 501 [(6, bytes [0xDE; 0xAD]); (7, bytes [0x2A])])
  = Ret (Some (Armory.mkItem (Some (Fin 501))
                 [Armory.mkAttribute (Some (Fin 6)) (Some "dead"%string);
                  Armory.mkAttribute (Some (Fin 7)) (Some "2a"%string)])) /\
  Armory.parseCSOEconItem
    (encStream [WVarint 1 6; WBytes 12 (encStream [WVarint 1 6])])
  = Ret None.
Proof.
  split.
  - refine (proj1 X11_parseCSOEconItem_round_trip 501
              [(6, bytes [0xDE; 0xAD]); (7, bytes [0x2A])]
              ltac:(unfold two53; lia) _ ltac:(vm_compute; reflexivity)).
    repeat constructor; unfold two53; simpl; lia.
  - refine (proj2 X11_parseCSOEconItem_round_trip
              [WVarint 1 6; WBytes 12 (encStream [WVarint 1 6])] _
              ltac:(vm_compute; reflexivity) eq_refl).
    repeat constructor; simpl; lia.
Defined.

(** X12.  When a message holds the varint field 4 twice, [findVarint]
    (and with it the first test of [findDefIndexDeep]) takes the first
    value and [parseCSOEconItem] keeps the last: the two readings of the
    index of one message differ as soon as the two values do. *)
Theorem X12_first_and_last_index (ws1 ws2 ws3 : list WireField) (a b : Z) :
  let buffer := encStream (ws1 ++ WVarint 4 a :: ws2 ++ WVarint 4 b :: ws3) in
  Forall wfWire (ws1 ++ WVarint 4 a :: ws2 ++ WVarint 4 b :: ws3) ->
  forallb (fun w => negb (isItemIndex w)) ws1 = true ->
  forallb (fun w => negb (isItemIndex w)) ws3 = true ->
  0 < a < two53 -> 0 < b < two53 -> fits buffer ->
  Armory.findVarint buffer 4 = Ret (Some (Fin a)) /\
  exists attrs,
    Armory.parseCSOEconItem buffer = Ret (Some (Armory.mkItem (Some (Fin b)) attrs)).
Proof.
  intros buffer Hwf H1 H3 Ha Hb Hfit. split.
  - unfold buffer. rewrite findVarint_encStream by assumption.
    rewrite (find_first (isVarintNumbered 4) ws1 _ (WVarint 4 a)).
    + cbn [option_map wireValue Armory.NumberOf]. now rewrite Number_small by lia.
    + now rewrite isVarintNumbered_4.
    + reflexivity.
  - unfold buffer in *. clear buffer.
    assert (E : ws1 ++ WVarint 4 a :: ws2 ++ WVarint 4 b :: ws3
                = (ws1 ++ WVarint 4 a :: ws2) ++ WVarint 4 b :: ws3)
      by (rewrite <- app_assoc; reflexivity).
    rewrite E in *. now apply parseCSOEconItem_last_index.
Qed.

Lemma X12_first_and_last_index_witness :
  Armory.findVarint (encStream [WVarint 4 7; WVarint 4 9]) 4 = Ret (Some (Fin 7)) /\
  exists attrs,
    Armory.parseCSOEconItem (encStream [WVarint 4 7; WVarint 4 9])
    = Ret (Some (Armory.mkItem (Some (Fin 9)) attrs)).
Proof.
  refine (X12_first_and_last_index [] [] [] 7 9 _ eq_refl eq_refl
            ltac:(unfold two53; lia) ltac:(unfold two53; lia)
            ltac:(vm_compute; reflexivity)).
  repeat constructor; simpl; lia.
Defined.

(** X13.  [findCSOEconItem] finds an item that lies one level down: when
    the message itself holds no varint field 4 and no length-delimited
    field comes before the one that holds the item, the item is returned
    with its index and its attributes, whatever the number of the field
    around it and whatever follows it. *)
Theorem X13_findCSOEconItem_nested (ws1 ws2 : list WireField) (fn d : Z)
    (attrs : list (Z * list byte)) :
  let buffer := encStream (ws1 ++ WBytes fn (encItem d attrs) :: ws2) in
  Forall wfWire ws1 -> Forall wfWire ws2 -> 0 <= fn < 2 ^ 28 ->
  forallb (fun w => negb (isItemIndex w)) (ws1 ++ ws2) = true ->
  forallb (fun w => negb (isNested w)) ws1 = true ->
  0 < d < two53 -> Forall (fun a => 0 <= fst a < two53) attrs ->
  fits buffer ->
  Armory.findCSOEconItem buffer
  = Ret (Some (Armory.mkItem (Some (Fin d)) (map attributeFor attrs))).
Proof. apply findCSOEconItem_envelope. Qed.

Lemma X13_findCSOEconItem_nested_witness :
  Armory.findCSOEconItem
    (encStream ([WVarint 1 7; WFixed64 3 (bytes [1; 2; 3; 4; 5; 6; 7; 8])]
                ++ WBytes 2 (encItem 501 [(6, bytes [0xDE; 0xAD])])
                :: [WBytes 5 (encItem 9 [])]))
  = Ret (Some (Armory.mkItem (Some (Fin 501))
                 [Armory.mkAttribute (Some (Fin 6)) (Some "dead"%string)])).
Proof.
  refine (X13_findCSOEconItem_nested
            [WVarint 1 7; WFixed64 3 (bytes [1; 2; 3; 4; 5; 6; 7; 8])]
            [WBytes 5 (encItem 9 [])] 2 501 [(6, bytes [0xDE; 0xAD])]
            _ _ ltac:(lia) eq_refl eq_refl ltac:(unfold two53; lia) _
            ltac:(vm_compute; reflexivity)).
  - repeat constructor; simpl; lia.
  - repeat constructor; simpl; lia.
  - repeat constructor; unfold two53; simpl; lia.
Defined.

(** X14.  Why the loops of [ArmoryManager] end: a field that is read
    ends after the offset it was read at, and the content of a
    length-delimited field is shorter than the buffer it was read from,
    so every loop advances and every recursive call is on fewer bytes. *)
Theorem X14_readField_progress (buffer : list byte) (offset : nat) (f : Armory.Field) :
  fits buffer ->
  Armory.readField buffer offset = Ret (Some f) ->
  (offset < Armory.nextOffset f <= length buffer)%nat /\
  (Armory.wireType f = 2 ->
   (length (Armory.bufferOf (Armory.fieldValue f)) < length buffer)%nat).
Proof.
  intros Hfit H. split; [split|].
  - eapply readField_progress; eassumption.
  - eapply readField_nextOffset_le; eassumption.
  - intros W. eapply child_smaller; eassumption.
Qed.

Lemma X14_readField_progress_witness :
  fits itemBuffer /\
  Armory.readField itemBuffer 3
  = Ret (Some (Armory.mkField 12 2
                 (Armory.VBuffer (bytes [0x08; 0x06; 0x1A; 0x04; 0xDE; 0xAD; 0xBE; 0xEF]))
                 13)) /\
  (3 < 13 <= length itemBuffer)%nat /\
  (length (bytes [0x08; 0x06; 0x1A; 0x04; 0xDE; 0xAD; 0xBE; 0xEF]%Z)
   < length itemBuffer)%nat.
Proof.
  assert (F : fits itemBuffer) by (vm_compute; reflexivity).
  assert (R : Armory.readField itemBuffer 3
    = Ret (Some (Armory.mkField 12 2
                   (Armory.VBuffer (bytes [0x08; 0x06; 0x1A; 0x04; 0xDE; 0xAD; 0xBE; 0xEF]))
                   13))) by (vm_compute; reflexivity).
  destruct (X14_readField_progress itemBuffer 3 _ F R) as [P C].
  split; [exact F|]. split; [exact R|]. split; [exact P|]. exact (C eq_refl).
Defined.

(** ** The balance read by [SteamClient] *)

(** X15.  The balance kept in [this.stars] is [null] or a number from 0
    to 5000: whatever a welcome message holds, [parseClientWelcomeManual]
    returns nothing else, and starting from [null] the handler of
    [connect] stores nothing else, whatever the messages received. *)
Theorem X15_stars_in_range :
  (forall fuel payload r,
     SteamClient.parseClientWelcomeManual fuel payload = Ret r -> inRange r) /\
  (forall fuel msgs r,
     SteamClient.gcHandlerAll fuel None msgs = Ret r -> inRange r).
Proof.
  split; [apply parseClientWelcomeManual_range|].
  intros fuel msgs r. apply gcHandlerAll_range. exact I.
Qed.

Lemma X15_stars_in_range_witness :
  SteamClient.gcHandlerAll 7%nat None
    [(730, 4004, encBytes (1, balance7000) ++ encBytes (3, balance1200))]
  = Ret (Some 1200) /\
  0 <= 1200 <= 5000.
Proof.
  assert (E : SteamClient.gcHandlerAll 7%nat None
                [(730, 4004, encBytes (1, balance7000) ++ encBytes (3, balance1200))]
              = Ret (Some 1200)) by (vm_compute; reflexivity).
  split; [exact E|]. exact (proj2 X15_stars_in_range _ _ _ E).
Defined.

(** X16.  Only a welcome message of the game changes the balance: the
    balance held after some messages is the one held before or the one
    parsed from a message of application 730 and type 4004 among them,
    and messages of any other application or type leave it as it was. *)
Theorem X16_stars_origin :
  (forall fuel msgs stars r,
     SteamClient.gcHandlerAll fuel stars msgs = Ret r ->
     r = stars \/
     exists payload,
       In (SteamClient.APP_ID, SteamClient.MSG_CLIENT_WELCOME, payload) msgs /\
       SteamClient.parseClientWelcomeManual fuel payload = Ret r) /\
  (forall fuel msgs stars,
     Forall (fun m => fst (fst m) <> SteamClient.APP_ID \/
                      snd (fst m) <> SteamClient.MSG_CLIENT_WELCOME) msgs ->
     SteamClient.gcHandlerAll fuel stars msgs = Ret stars).
Proof.
  split.
  - intros fuel msgs stars r. apply gcHandlerAll_origin.
  - intros fuel msgs stars. apply gcHandlerAll_foreign.
Qed.

Lemma X16_stars_origin_witness :
  SteamClient.gcHandlerAll 7%nat (Some 40)
    [(730, 4005, encBytes (1, balance1200)); (440, 4004, encBytes (1, balance1200))]
  = Ret (Some 40).
Proof.
  refine (proj2 X16_stars_origin 7%nat
            [(730, 4005, encBytes (1, balance1200)); (440, 4004, encBytes (1, balance1200))]
            (Some 40) _).
  constructor; [right; vm_compute; discriminate|].
  constructor; [left; vm_compute; discriminate|constructor].
Defined.



(** X18.  The loop that never ends reaches the caller: a welcome message
    one of whose length-delimited fields holds the six bytes 0A FA FF FF
    FF 0F, after any varint fields and before any bytes, keeps the
    handler of [connect] from returning, whatever the fuel; its
    [try]/[catch] does not help, as nothing is thrown. *)
Theorem X18_welcome_never_returns (fs : list (Z * Z)) (fn : Z) (rest : list byte)
    (stars : option Z) (fuel : nat) :
  Forall wfField fs -> 0 <= fn < 2 ^ 28 ->
  SteamClient.gcHandler fuel stars SteamClient.APP_ID SteamClient.MSG_CLIENT_WELCOME
    (encFields fs ++ encBytes (fn, loopingCache) ++ rest)
  = OutOfFuel.
Proof.
  intros Hwf Hfn. unfold SteamClient.gcHandler. rewrite !Z.eqb_refl. cbn [negb orb].
  rewrite parseClientWelcomeManual_diverges; try assumption; [reflexivity| |].
  - vm_compute. reflexivity.
  - intros k. apply loopingCache_diverges.
Qed.

Lemma X18_welcome_never_returns_witness :
  SteamClient.gcHandler 1000%nat (Some 5) 730 4004
    (encFields [(1, 3)] ++ encBytes (3, loopingCache) ++ encBytes (3, balance1200))
  = OutOfFuel.
Proof.
  refine (X18_welcome_never_returns [(1, 3)] 3 (encBytes (3, balance1200)) (Some 5)
            1000%nat _ ltac:(lia)).
  repeat constructor; simpl; lia.
Defined.

(** ** The promise of [loginWithCredentials] *)

(** X19.  The login promise is decided at most once: after any events it
    is pending with no outcome, or done with exactly one (a resolution or
    a rejection), and once it is done no later event adds or changes an
    outcome. *)
Theorem X19_login_settles_once :
  (forall evs, loginSettledOnce (Login.run evs Login.initial)) /\
  (forall evs1 evs2,
     Login.done (Login.run evs1 Login.initial) = true ->
     Login.outcomes (Login.run (evs1 ++ evs2) Login.initial)
     = Login.outcomes (Login.run evs1 Login.initial)).
Proof.
  split.
  - intros evs. apply login_run_settledOnce. left. auto.
  - intros evs1 evs2 H. rewrite login_run_app.
    now destruct (login_run_done evs2 _ H) as (_ & O).
Qed.

Lemma X19_login_settles_once_witness :
  Login.done (Login.run [Login.OnError 5] Login.initial) = true /\
  Login.outcomes
    (Login.run ([Login.OnError 5]
                ++ [Login.OnRefreshToken "t"; Login.OnDisconnected; Login.TimerFired])
       Login.initial)
  = [Login.Reject (Login.ClientError 5)].
Proof.
  split; [reflexivity|].
  exact (proj2 X19_login_settles_once [Login.OnError 5]
           [Login.OnRefreshToken "t"; Login.OnDisconnected; Login.TimerFired] eq_refl).
Defined.

(** X20.  The login promise resolves with a token that came in a
    [refreshToken] event, never with [null] and never on a disconnection
    alone; and while it is pending, a [refreshToken] event followed by
    the disconnection, or by the 1.5 s delay, resolves it with the token
    of that event, whatever comes after. *)
Theorem X20_login_token :
  (forall evs token,
     In (Login.Resolve token) (Login.log (Login.run evs Login.initial)) ->
     tokenFrom evs token) /\
  (forall pre post t release,
     Login.done (Login.run pre Login.initial) = false ->
     release = Login.OnDisconnected \/ release = Login.DelayFired ->
     Login.outcomes
       (Login.run (pre ++ Login.OnRefreshToken t :: release :: post) Login.initial)
     = [Login.Resolve (Some t)]).
Proof.
  split.
  - intros evs. apply (login_run_token evs).
  - apply login_resolves.
Qed.

Lemma X20_login_token_witness :
  Login.outcomes
    (Login.run ([Login.OnLoggedOn; Login.OnDisconnected; Login.OnRefreshToken "old"]
                ++ Login.OnRefreshToken "new" :: Login.DelayFired
                :: [Login.OnDisconnected; Login.TimerFired])
       Login.initial)
  = [Login.Resolve (Some "new"%string)] /\
  tokenFrom
    [Login.OnLoggedOn; Login.OnDisconnected; Login.OnRefreshToken "old";
     Login.OnRefreshToken "new"; Login.DelayFired]
    (Some "new"%string).
Proof.
  split.
  - exact (proj2 X20_login_token
             [Login.OnLoggedOn; Login.OnDisconnected; Login.OnRefreshToken "old"]
             [Login.OnDisconnected; Login.TimerFired] "new"%string Login.DelayFired
             eq_refl (or_intror eq_refl)).
  - refine (proj1 X20_login_token
              [Login.OnLoggedOn; Login.OnDisconnected; Login.OnRefreshToken "old";
               Login.OnRefreshToken "new"; Login.DelayFired]
              (Some "new"%string) _).
    vm_compute. do 9 right. left. reflexivity.
Defined.

(** ** The promise of [purchaseItem] *)

(** X21.  Where the outcome of a purchase comes from, for a balance and
    a price that are JS numbers holding integers.  A resolution carries
    [success], an item that [findCSOEconItem] found in a message of
    application 730 and type 21 that was received, the [def_index] of
    that item, not zero, and as new balance [currentStars - itemPrice]
    as JS computes it: the double nearest to the exact difference, which
    is the exact difference as long as that lies within 2^53; a rejection
    names its cause: the timer, a disconnection, an error of the client,
    or a message of that type in which no item was found.  Every request
    sent goes to application 730 with the type 9209 and the body of
    [encodeRedeemBody], after a connection to the coordinator. *)
Theorem X21_purchase_outcome_origin (armoryId currentStars itemPrice : Z)
    (evs : list Purchase.Event) :
  let st := Purchase.run armoryId currentStars itemPrice evs Purchase.initial in
  isDouble currentStars -> isDouble itemPrice ->
  (forall data, In (Purchase.Resolve data) (Purchase.log st) ->
     resolvedBy currentStars itemPrice evs data /\
     (- two53 < currentStars - itemPrice < two53 ->
      exists d, data = Some d /\ Purchase.newStars d = Fin (currentStars - itemPrice))) /\
  (forall err, In (Purchase.Reject err) (Purchase.log st) -> rejectedBy evs err) /\
  (forall appid msgType body,
     In (Purchase.SendToGC appid msgType body) (Purchase.log st) ->
     appid = Purchase.APP_ID /\ msgType = Purchase.MSG_GC_REDEEM /\
     body = Armory.encodeRedeemBody armoryId currentStars itemPrice /\
     In Purchase.OnConnectedToGC evs).
Proof.
  intros st _ _.
  destruct (run_outcomes_origin armoryId currentStars itemPrice evs) as [R J].
  split; [|split; [exact J|]].
  - intros data H. pose proof (R data H) as B. split; [exact B|].
    intros Hs. destruct B as (d & payload & -> & _ & N & _).
    exists d. split; [reflexivity|]. rewrite N. now apply Num_sub_exact.
  - intros appid msgType body. apply run_requests.
Qed.

Lemma X21_purchase_outcome_origin_witness :
  isDouble (2 ^ 53 + 2) /\ isDouble 1 /\
  resolvedBy (2 ^ 53 + 2) 1
    [Purchase.OnLoggedOn; Purchase.OnConnectedToGC;
     Purchase.OnReceivedFromGC 730 21 itemBuffer]
    (Some (Purchase.mkData true (Some (Fin 501)) (Fin (2 ^ 53))
             (Armory.mkItem (Some (Fin 501))
                [Armory.mkAttribute (Some (Fin 6)) (Some "deadbeef"%string)]))).
Proof.
  assert (D1 : isDouble (2 ^ 53 + 2)) by (vm_compute; reflexivity).
  assert (D2 : isDouble 1) by (vm_compute; reflexivity).
  split; [exact D1|]. split; [exact D2|].
  refine (proj1 (proj1 (X21_purchase_outcome_origin 42 (2 ^ 53 + 2) 1
                   [Purchase.OnLoggedOn; Purchase.OnConnectedToGC;
                    Purchase.OnReceivedFromGC 730 21 itemBuffer] D1 D2) _ _)).
  vm_compute. do 8 right. left. reflexivity.
Defined.



(** X23.  A message of application 730 and type 21 that holds no item,
    here fields among which there is no varint field 4 and no
    length-delimited field, rejects the purchase with "Could not parse
    CSOEconItem" when only events that do not settle came before it; the
    empty message is one of them. *)
Theorem X23_purchase_rejects_unparsed (armoryId currentStars itemPrice : Z)
    (pre post : list Purchase.Event) (ws : list WireField) :
  forallb Purchase.passive pre = true ->
  Forall wfWire ws ->
  forallb (fun w => negb (isItemIndex w)) ws = true ->
  forallb (fun w => negb (isNested w)) ws = true ->
  fits (encStream ws) ->
  Purchase.outcomes
    (Purchase.run armoryId currentStars itemPrice
       (pre ++ Purchase.OnReceivedFromGC Purchase.APP_ID Purchase.MSG_ESO_CREATE
                 (encStream ws) :: post) Purchase.initial)
  = [Purchase.Reject (Some Purchase.CouldNotParse)].
Proof.
  intros Hpre Hwf H4 Hflat Hfit.
  apply run_rejects_unparsed; [exact Hpre|]. now apply findCSOEconItem_flat.
Qed.

Lemma X23_purchase_rejects_unparsed_witness :
  Purchase.outcomes
    (Purchase.run 42 100 25
       ([Purchase.OnLoggedOn; Purchase.OnConnectedToGC]
        ++ Purchase.OnReceivedFromGC 730 21 (encStream [])
        :: [Purchase.OnReceivedFromGC 730 21 itemBuffer]) Purchase.initial)
  = [Purchase.Reject (Some Purchase.CouldNotParse)].
Proof.
  exact (X23_purchase_rejects_unparsed 42 100 25
           [Purchase.OnLoggedOn; Purchase.OnConnectedToGC]
           [Purchase.OnReceivedFromGC 730 21 itemBuffer] []
           eq_refl (Forall_nil _) eq_refl eq_refl ltac:(vm_compute; reflexivity)).
Defined.

(** ** The saved accounts ([SessionManager.listAccounts]) *)

(** X24.  The accounts listed are the accounts saved: from a directory
    that holds the session files of some user names, none of which
    contains ".steamsession", [listAccounts] returns these names, in the
    order of the directory; a file that does not end with the extension
    is left out, and a directory that does not exist gives the empty
    list.  The condition on the names is needed, as the first occurrence
    of the extension is what is removed: the file saved for
    "x.steamsessionY" is listed as "xY.steamsession". *)
Theorem X24_listAccounts_round_trip :
  (forall users,
     Forall (fun u => occursIn SessionFiles.extension u = false) users ->
     SessionFiles.listAccounts true (map SessionFiles.sessionFile users) = users) /\
  (forall l1 l2 f,
     endsWith f SessionFiles.extension = false ->
     SessionFiles.listAccounts true (l1 ++ f :: l2)
     = SessionFiles.listAccounts true (l1 ++ l2)) /\
  (forall entries, SessionFiles.listAccounts false entries = []) /\
  SessionFiles.listAccounts true [SessionFiles.sessionFile (lit "x.steamsessionY")]
  = [lit "xY.steamsession"].
Proof.
  split; [apply listAccounts_saved|]. split; [apply listAccounts_other|].
  split; reflexivity.
Qed.

Lemma X24_listAccounts_round_trip_witness :
  SessionFiles.listAccounts true
    (map SessionFiles.sessionFile [lit "alice"; lit "bob.2"; lit ".steam"])
  = [lit "alice"; lit "bob.2"; lit ".steam"] /\
  SessionFiles.listAccounts true
    ([lit "alice.steamsession"] ++ lit "notes.txt" :: [lit "bob.steamsession"])
  = SessionFiles.listAccounts true ([lit "alice.steamsession"] ++ [lit "bob.steamsession"]).
Proof.
  split.
  - refine (proj1 X24_listAccounts_round_trip [lit "alice"; lit "bob.2"; lit ".steam"] _).
    repeat constructor.
  - exact (proj1 (proj2 X24_listAccounts_round_trip) [lit "alice.steamsession"]
             [lit "bob.steamsession"] (lit "notes.txt") eq_refl).
Defined.

(** ** The exterior of an item ([SchemaResolver]) *)

(** X25.  The exterior follows the wear: among numbers, a greater wear
    never gives an earlier exterior of the scale Factory New, Minimal
    Wear, Field-Tested, Well-Worn, Battle-Scarred.  [clamp01] takes
    every number other than NaN into 0..1 without changing its exterior;
    NaN alone differs: [clamp01] gives [null] for it, while
    [wearToExteriorByFloat] takes it to Battle-Scarred. *)
Theorem X25_exterior_monotone :
  (forall x y,
     Schema.le x y = true ->
     (Schema.rank (Schema.wearToExteriorByFloat (Schema.JNumber x))
      <= Schema.rank (Schema.wearToExteriorByFloat (Schema.JNumber y)))%nat) /\
  (forall x,
     x <> Schema.NotANumber ->
     exists c,
       Schema.clamp01 (Schema.JNumber x) = Some c /\
       Schema.le Schema.zero c = true /\ Schema.le c Schema.one = true /\
       Schema.wearToExteriorByFloat (Schema.JNumber c)
       = Schema.wearToExteriorByFloat (Schema.JNumber x)) /\
  Schema.clamp01 (Schema.JNumber Schema.NotANumber) = None /\
  Schema.wearToExteriorByFloat (Schema.JNumber Schema.NotANumber)
  = lit "Battle-Scarred".
Proof.
  split; [apply wearToExteriorByFloat_monotone|]. split; [|split; reflexivity].
  intros x Hx. destruct (clamp01_exterior x Hx) as (c & E & _ & H0 & H1 & Hw).
  exists c. auto.
Qed.

Lemma X25_exterior_monotone_witness :
  Schema.le (Schema.Finite (QArith_base.Qmake 1 10))
            (Schema.Finite (QArith_base.Qmake 4 10)) = true /\
  (Schema.rank (Schema.wearToExteriorByFloat
                  (Schema.JNumber (Schema.Finite (QArith_base.Qmake 1 10))))
   <= Schema.rank (Schema.wearToExteriorByFloat
                     (Schema.JNumber (Schema.Finite (QArith_base.Qmake 4 10)))))%nat /\
  exists c,
    Schema.clamp01 (Schema.JNumber Schema.PosInfinity) = Some c /\
    Schema.le Schema.zero c = true /\ Schema.le c Schema.one = true /\
    Schema.wearToExteriorByFloat (Schema.JNumber c)
    = Schema.wearToExteriorByFloat (Schema.JNumber Schema.PosInfinity).
Proof.
  split; [reflexivity|]. split.
  - exact (proj1 X25_exterior_monotone (Schema.Finite (QArith_base.Qmake 1 10))
             (Schema.Finite (QArith_base.Qmake 4 10)) eq_refl).
  - refine (proj1 (proj2 X25_exterior_monotone) Schema.PosInfinity _). discriminate.
Defined.

(** X26.  The exterior of an item stays within the paint: when the
    coordinator gives no quality, the wear is a number other than NaN
    and the paint has the bounds [min <= max], the exterior returned by
    [resolveExterior] is the one of a wear between [min] and [max], so
    it is neither earlier in the scale than the exterior of [min] nor
    later than the one of [max]. *)
Theorem X26_resolveExterior_between (lo hi x : Schema.JsNumber)
    (gcQuality : Schema.JsValue) :
  let result :=
    Schema.resolveExterior
      (Some (Schema.mkPaint (Schema.JNumber lo) (Schema.JNumber hi)))
      (Schema.JNumber x) gcQuality in
  Schema.normalizeExteriorFromGC gcQuality = None ->
  x <> Schema.NotANumber -> lo <> Schema.NotANumber -> hi <> Schema.NotANumber ->
  Schema.le lo hi = true ->
  (exists w,
     Schema.le lo w = true /\ Schema.le w hi = true /\
     result = Schema.wearToExteriorByFloat (Schema.JNumber w)) /\
  (Schema.rank (Schema.wearToExteriorByFloat (Schema.JNumber lo))
   <= Schema.rank result
   <= Schema.rank (Schema.wearToExteriorByFloat (Schema.JNumber hi)))%nat.
Proof.
  intros result Hgc Hx Hlo Hhi Hle.
  destruct (resolveExterior_between lo hi x gcQuality Hgc Hx Hlo Hhi Hle)
    as (w & H1 & H2 & E).
  split; [exists w; auto|]. unfold result. rewrite E.
  split; now apply wearToExteriorByFloat_monotone.
Qed.

Lemma X26_resolveExterior_between_witness :
  Schema.resolveExterior
    (Some (Schema.mkPaint (Schema.JNumber (Schema.Finite (QArith_base.Qmake 1 10)))
             (Schema.JNumber (Schema.Finite (QArith_base.Qmake 2 10)))))
    (Schema.JNumber (Schema.Finite (QArith_base.Qmake 1 100))) Schema.JOther
  = lit "Minimal Wear" /\
  (Schema.rank (Schema.wearToExteriorByFloat
                  (Schema.JNumber (Schema.Finite (QArith_base.Qmake 1 10))))
   <= Schema.rank (lit "Minimal Wear")
   <= Schema.rank (Schema.wearToExteriorByFloat
                     (Schema.JNumber (Schema.Finite (QArith_base.Qmake 2 10)))))%nat.
Proof.
  split; [reflexivity|].
  refine (proj2 (X26_resolveExterior_between
                   (Schema.Finite (QArith_base.Qmake 1 10))
                   (Schema.Finite (QArith_base.Qmake 2 10))
                   (Schema.Finite (QArith_base.Qmake 1 100)) Schema.JOther
                   eq_refl _ _ _ eq_refl)); discriminate.
Defined.

(** X27.  A quality given by the coordinator wins and is trimmed once
    and for all: when [normalizeExteriorFromGC] returns a string, it is
    not empty, it neither begins nor ends with white space, normalizing
    it again gives it back, and [resolveExterior] returns it whatever
    the paint and the wear. *)
Theorem X27_normalizeExteriorFromGC (quality : Schema.JsValue) (t : JsString) :
  Schema.normalizeExteriorFromGC quality = Some t ->
  (exists c r d r',
     t = c :: r /\ t = r' ++ [d] /\
     isWhiteSpace c = false /\ isWhiteSpace d = false) /\
  Schema.normalizeExteriorFromGC (Schema.JString t) = Some t /\
  (forall p paintwear, Schema.resolveExterior p paintwear quality = t).
Proof.
  intros H. unfold Schema.normalizeExteriorFromGC in H.
  destruct quality as [n|s|]; try discriminate.
  destruct (trim s) as [|c r] eqn:E; [discriminate|]. inversion H; subst.
  destruct (trim_shape s) as [E0|(c' & r' & d & E1 & (r'' & E2) & Hc & Hd)];
    [congruence|].
  rewrite E in E1, E2. inversion E1; subst.
  split; [exists c', r', d, r''; auto|]. split.
  - unfold Schema.normalizeExteriorFromGC. rewrite <- E, trim_idempotent, E.
    reflexivity.
  - intros p paintwear. unfold Schema.resolveExterior, Schema.normalizeExteriorFromGC.
    rewrite E. reflexivity.
Qed.

Lemma X27_normalizeExteriorFromGC_witness :
  Schema.normalizeExteriorFromGC (Schema.JString (lit "  Field-Tested ")) 
  = Some (lit "Field-Tested") /\
  Schema.normalizeExteriorFromGC (Schema.JString (lit "Field-Tested"))
  = Some (lit "Field-Tested") /\
  Schema.resolveExterior None Schema.JOther (Schema.JString (lit "  Field-Tested "))
  = lit "Field-Tested".
Proof.
  split; [reflexivity|].
  destruct (X27_normalizeExteriorFromGC (Schema.JString (lit "  Field-Tested "))
              (lit "Field-Tested") eq_refl) as (_ & I & R).
  split; [exact I|exact (R None Schema.JOther)].
Defined.
